(** * pybot: the GTSAM SLAM front end ([deprecated/mapping/gtsam.py])

    A shallow embedding of [BaseSLAM] and [VisualSLAM]: the factor-graph
    builder, the switchable (robust) odometry constraints, the smart
    landmark table with its settle pass, and the update step that drives
    the solver.  The GTSAM solver, the rigid-body geometry and the smart
    factor's triangulation are collaborators of the module; they enter as
    interfaces (type classes) and every statement below holds for all of
    their implementations. *)

From Stdlib Require Import ZArith QArith Qabs Lia Ascii.
From stdpp Require Import base option list gmap fin_maps strings.

Local Open Scope Z_scope.

(** ** Exceptions and results *)

Inductive Exc :=
| KeyError
| IndexError
| AssertionError
| RuntimeError
| ValueError
| ValuesKeyAlreadyExists.

Inductive Res (A : Type) :=
| Ok (a : A)
| Raise (e : Exc).
Arguments Ok {A} a.
Arguments Raise {A} e.

(** ** Methods as state transformers

    A method takes the object, and returns the object as it has left it
    together with its result or the exception it raised: the mutations made
    before a [raise] stay. *)

Definition M (S A : Type) : Type := S → S * Res A.

Definition ret {S A} (a : A) : M S A := λ s, (s, Ok a).
Definition raise {S A} (e : Exc) : M S A := λ s, (s, Raise e).
Definition bind {S A B} (m : M S A) (k : A → M S B) : M S B :=
  λ s, match m s with
       | (s', Ok a) => k a s'
       | (s', Raise e) => (s', Raise e)
       end.
Definition get {S} : M S S := λ s, (s, Ok s).
Definition modify {S} (f : S → S) : M S unit := λ s, (f s, Ok tt).

(** [try: m except: raise e] *)
Definition try_except_raise {S A} (m : M S A) (e : Exc) : M S A :=
  λ s, match m s with
       | (s', Ok a) => (s', Ok a)
       | (s', Raise _) => (s', Raise e)
       end.

#[global] Instance M_ret {S} : MRet (M S) := λ A, ret.
#[global] Instance M_bind {S} : MBind (M S) := λ A B k m, bind m k.

(** [assert(b)] *)
Definition assert {S} (b : bool) : M S unit :=
  if b then ret tt else raise AssertionError.

(** [for x in l: body x] *)
Fixpoint for_each {S A} (l : list A) (body : A → M S unit) : M S unit :=
  match l with
  | [] => ret tt
  | x :: l' => body x;; for_each l' body
  end.

(** A loop that appends to local lists: [acc] is the locals. *)
Fixpoint for_acc {S A B} (l : list A) (acc : B) (body : A → B → M S B)
  : M S B :=
  match l with
  | [] => ret acc
  | x :: l' => acc' ← body x acc; for_acc l' acc' body
  end.

(** ** Keys, values and factors (the pygtsam vocabulary) *)

(** [symbol(ch, i)]: a key is a character and an index. *)
Abbreviation Symbol := (ascii * Z)%type.
Definition symbol (ch : ascii) (i : Z) : Symbol := (ch, i).
Definition Symbol_chr (k : Symbol) : ascii := k.1.
Definition Symbol_index (k : Symbol) : Z := k.2.

(** Pixels, points and noise levels: the floats of the source are read as
    rationals. *)
Definition Point2 : Type := Q * Q.
Definition Point3 : Type := Q * Q * Q.

(** [Diagonal.Sigmas(v)] *)
Inductive NoiseModel :=
| Diagonal_Sigmas (sigmas : list Q).

(** [Cal3_S2(fx, fy, s, u0, v0)] *)
Record Cal3_S2 := { fx : Q; fy : Q; skew : Q; cx : Q; cy : Q }.

(** The rigid transforms ([RigidTransform], [Pose3]) with the two
    operations the module uses. *)
Class Geometry := {
  Pose : Type;
  identity : Pose;
  oplus : Pose → Pose → Pose;
  transform_from : Pose → Point3 → Point3
}.

(** The constants of [pybot.mapping.cfg] that the constructors take as
    defaults. *)
Class Cfg := {
  ODOM_NOISE : list Q;
  PRIOR_POSE_NOISE : list Q;
  MEASUREMENT_NOISE : list Q;
  PRIOR_POINT3D_NOISE : list Q;
  PX_MEASUREMENT_NOISE : list Q;
  VSLAM_MIN_LANDMARK_OBS : Z
}.

Section Engine.
Context {geometry : Geometry} {config : Cfg}.

Inductive Value :=
| VPose3 (p : Pose)
| VPoint3 (p : Point3)
| VSwitch (v : Q).

(** [Values]: a container of values by key. *)
Abbreviation Values := (gmap Symbol Value).

Inductive Factor :=
| PriorFactorPose3 (k : Symbol) (p : Pose) (n : NoiseModel)
| BetweenFactorPose3 (k1 k2 : Symbol) (p : Pose) (n : NoiseModel)
| PriorFactorPoint3 (k : Symbol) (p : Point3) (n : NoiseModel)
| PriorFactorSwitchVariableSigmoid (k : Symbol) (v : Q) (n : NoiseModel)
| BetweenFactorSwitchableSigmoidPose3
    (k1 k2 ks : Symbol) (p : Pose) (n : NoiseModel)
| GenericProjectionFactorPose3Point3Cal3_S2
    (pt : Point2) (n : NoiseModel) (kx kl : Symbol) (K : Cal3_S2).

(** [NonlinearFactorGraph]: factors in the order they were added. *)
Definition NonlinearFactorGraph : Type := list Factor.

(** A landmark of [ls_] is a pose (pose landmarks) or a 3-vector (point
    landmarks). *)
Inductive Landmark :=
| LPose (p : Pose)
| LPoint (p : Point3).

(** The solver: [ISAM2] with [update(graph, values)], [update()] and
    [calculateEstimate()], and the Levenberg-Marquardt batch optimizer.
    [None] is a raised exception, after which the object still holds the
    solver it had. *)
Class GraphSolver := {
  ISAM2 : Type;
  ISAM2_new : ISAM2;
  isam_update : ISAM2 → NonlinearFactorGraph → Values → option ISAM2;
  isam_update_ : ISAM2 → option ISAM2;
  calculateEstimate : ISAM2 → Values;
  LevenbergMarquardtOptimizer_optimize :
    NonlinearFactorGraph → Values → option Values
}.

(** [SmartFactor]: the measurements added with [add_single], latest last;
    [keys()] and [measured()] are its two columns. *)
Definition SmartFactor : Type := list (Point2 * Symbol).
Definition add_single (pt : Point2) (k : Symbol) (f : SmartFactor)
  : SmartFactor := f ++ [(pt, k)].
Definition keys (f : SmartFactor) : list Symbol := f.*2.
Definition measured (f : SmartFactor) : list Point2 := f.*1.

(** The triangulation of a smart factor. *)
Class Triangulation := {
  isDegenerate : SmartFactor → bool;
  isPointBehindCamera : SmartFactor → bool;
  smart_error : SmartFactor → Values → Q;
  point_compute : SmartFactor → Values → Point3
}.

Context {solver : GraphSolver} {triangulation : Triangulation}.

(** ** The engine state *)

Record BaseSLAM := {
  slam_ : ISAM2;
  idx_ : Z;
  graph_ : NonlinearFactorGraph;
  initial_ : Values;
  measurement_noise_ : NoiseModel;
  prior_pose_noise_ : NoiseModel;
  odo_noise_ : NoiseModel;
  xs_ : gmap Z Pose;
  ls_ : gmap Z Landmark;
  xls_ : list (Z * Z);
  xxs_ : list (Z * Z);
  current_ : option Values;
  robust_ : bool;
  switch_ : list Q
}.

(** An entry of [lid_factors_]. *)
Record LidFactor := {
  in_graph : bool;
  count : Z;
  factor : SmartFactor
}.

Record VisualSLAM := {
  base : BaseSLAM;
  batch_init_ : bool;
  px_error_threshold_ : Q;
  min_landmark_obs_ : Z;
  K_ : Cal3_S2;
  lid_count_ : gmap Z Z;
  lid_factors_ : gmap Z LidFactor;
  image_measurement_noise_ : NoiseModel;
  prior_point3d_noise_ : NoiseModel
}.

(** Field updates. *)
Definition set_slam (f : ISAM2 → ISAM2) (s : BaseSLAM) : BaseSLAM :=
  {| slam_ := f (slam_ s); idx_ := idx_ s; graph_ := graph_ s;
     initial_ := initial_ s; measurement_noise_ := measurement_noise_ s;
     prior_pose_noise_ := prior_pose_noise_ s; odo_noise_ := odo_noise_ s;
     xs_ := xs_ s; ls_ := ls_ s; xls_ := xls_ s; xxs_ := xxs_ s;
     current_ := current_ s; robust_ := robust_ s; switch_ := switch_ s |}.
Definition set_idx (f : Z → Z) (s : BaseSLAM) : BaseSLAM :=
  {| slam_ := slam_ s; idx_ := f (idx_ s); graph_ := graph_ s;
     initial_ := initial_ s; measurement_noise_ := measurement_noise_ s;
     prior_pose_noise_ := prior_pose_noise_ s; odo_noise_ := odo_noise_ s;
     xs_ := xs_ s; ls_ := ls_ s; xls_ := xls_ s; xxs_ := xxs_ s;
     current_ := current_ s; robust_ := robust_ s; switch_ := switch_ s |}.
Definition set_graph (f : NonlinearFactorGraph → NonlinearFactorGraph)
    (s : BaseSLAM) : BaseSLAM :=
  {| slam_ := slam_ s; idx_ := idx_ s; graph_ := f (graph_ s);
     initial_ := initial_ s; measurement_noise_ := measurement_noise_ s;
     prior_pose_noise_ := prior_pose_noise_ s; odo_noise_ := odo_noise_ s;
     xs_ := xs_ s; ls_ := ls_ s; xls_ := xls_ s; xxs_ := xxs_ s;
     current_ := current_ s; robust_ := robust_ s; switch_ := switch_ s |}.
Definition set_initial (f : Values → Values) (s : BaseSLAM) : BaseSLAM :=
  {| slam_ := slam_ s; idx_ := idx_ s; graph_ := graph_ s;
     initial_ := f (initial_ s); measurement_noise_ := measurement_noise_ s;
     prior_pose_noise_ := prior_pose_noise_ s; odo_noise_ := odo_noise_ s;
     xs_ := xs_ s; ls_ := ls_ s; xls_ := xls_ s; xxs_ := xxs_ s;
     current_ := current_ s; robust_ := robust_ s; switch_ := switch_ s |}.
Definition set_xs (f : gmap Z Pose → gmap Z Pose) (s : BaseSLAM) : BaseSLAM :=
  {| slam_ := slam_ s; idx_ := idx_ s; graph_ := graph_ s;
     initial_ := initial_ s; measurement_noise_ := measurement_noise_ s;
     prior_pose_noise_ := prior_pose_noise_ s; odo_noise_ := odo_noise_ s;
     xs_ := f (xs_ s); ls_ := ls_ s; xls_ := xls_ s; xxs_ := xxs_ s;
     current_ := current_ s; robust_ := robust_ s; switch_ := switch_ s |}.
Definition set_ls (f : gmap Z Landmark → gmap Z Landmark) (s : BaseSLAM)
  : BaseSLAM :=
  {| slam_ := slam_ s; idx_ := idx_ s; graph_ := graph_ s;
     initial_ := initial_ s; measurement_noise_ := measurement_noise_ s;
     prior_pose_noise_ := prior_pose_noise_ s; odo_noise_ := odo_noise_ s;
     xs_ := xs_ s; ls_ := f (ls_ s); xls_ := xls_ s; xxs_ := xxs_ s;
     current_ := current_ s; robust_ := robust_ s; switch_ := switch_ s |}.
Definition set_xls (f : list (Z * Z) → list (Z * Z)) (s : BaseSLAM)
  : BaseSLAM :=
  {| slam_ := slam_ s; idx_ := idx_ s; graph_ := graph_ s;
     initial_ := initial_ s; measurement_noise_ := measurement_noise_ s;
     prior_pose_noise_ := prior_pose_noise_ s; odo_noise_ := odo_noise_ s;
     xs_ := xs_ s; ls_ := ls_ s; xls_ := f (xls_ s); xxs_ := xxs_ s;
     current_ := current_ s; robust_ := robust_ s; switch_ := switch_ s |}.
Definition set_xxs (f : list (Z * Z) → list (Z * Z)) (s : BaseSLAM)
  : BaseSLAM :=
  {| slam_ := slam_ s; idx_ := idx_ s; graph_ := graph_ s;
     initial_ := initial_ s; measurement_noise_ := measurement_noise_ s;
     prior_pose_noise_ := prior_pose_noise_ s; odo_noise_ := odo_noise_ s;
     xs_ := xs_ s; ls_ := ls_ s; xls_ := xls_ s; xxs_ := f (xxs_ s);
     current_ := current_ s; robust_ := robust_ s; switch_ := switch_ s |}.
Definition set_current (f : option Values → option Values) (s : BaseSLAM)
  : BaseSLAM :=
  {| slam_ := slam_ s; idx_ := idx_ s; graph_ := graph_ s;
     initial_ := initial_ s; measurement_noise_ := measurement_noise_ s;
     prior_pose_noise_ := prior_pose_noise_ s; odo_noise_ := odo_noise_ s;
     xs_ := xs_ s; ls_ := ls_ s; xls_ := xls_ s; xxs_ := xxs_ s;
     current_ := f (current_ s); robust_ := robust_ s; switch_ := switch_ s |}.
Definition set_switch (f : list Q → list Q) (s : BaseSLAM) : BaseSLAM :=
  {| slam_ := slam_ s; idx_ := idx_ s; graph_ := graph_ s;
     initial_ := initial_ s; measurement_noise_ := measurement_noise_ s;
     prior_pose_noise_ := prior_pose_noise_ s; odo_noise_ := odo_noise_ s;
     xs_ := xs_ s; ls_ := ls_ s; xls_ := xls_ s; xxs_ := xxs_ s;
     current_ := current_ s; robust_ := robust_ s; switch_ := f (switch_ s) |}.

Definition set_base (f : BaseSLAM → BaseSLAM) (v : VisualSLAM) : VisualSLAM :=
  {| base := f (base v); batch_init_ := batch_init_ v;
     px_error_threshold_ := px_error_threshold_ v;
     min_landmark_obs_ := min_landmark_obs_ v; K_ := K_ v;
     lid_count_ := lid_count_ v; lid_factors_ := lid_factors_ v;
     image_measurement_noise_ := image_measurement_noise_ v;
     prior_point3d_noise_ := prior_point3d_noise_ v |}.
Definition set_batch_init (f : bool → bool) (v : VisualSLAM) : VisualSLAM :=
  {| base := base v; batch_init_ := f (batch_init_ v);
     px_error_threshold_ := px_error_threshold_ v;
     min_landmark_obs_ := min_landmark_obs_ v; K_ := K_ v;
     lid_count_ := lid_count_ v; lid_factors_ := lid_factors_ v;
     image_measurement_noise_ := image_measurement_noise_ v;
     prior_point3d_noise_ := prior_point3d_noise_ v |}.
Definition set_lid_count (f : gmap Z Z → gmap Z Z) (v : VisualSLAM)
  : VisualSLAM :=
  {| base := base v; batch_init_ := batch_init_ v;
     px_error_threshold_ := px_error_threshold_ v;
     min_landmark_obs_ := min_landmark_obs_ v; K_ := K_ v;
     lid_count_ := f (lid_count_ v); lid_factors_ := lid_factors_ v;
     image_measurement_noise_ := image_measurement_noise_ v;
     prior_point3d_noise_ := prior_point3d_noise_ v |}.
Definition set_lid_factors (f : gmap Z LidFactor → gmap Z LidFactor)
    (v : VisualSLAM) : VisualSLAM :=
  {| base := base v; batch_init_ := batch_init_ v;
     px_error_threshold_ := px_error_threshold_ v;
     min_landmark_obs_ := min_landmark_obs_ v; K_ := K_ v;
     lid_count_ := lid_count_ v; lid_factors_ := f (lid_factors_ v);
     image_measurement_noise_ := image_measurement_noise_ v;
     prior_point3d_noise_ := prior_point3d_noise_ v |}.

(** ** BaseSLAM *)

(** [Diagonal.Sigmas(noise) if noise is not None else dflt] *)
Definition noise_or (noise : option (list Q)) (dflt : NoiseModel)
  : NoiseModel :=
  match noise with
  | Some v => Diagonal_Sigmas v
  | None => dflt
  end.

(** [self.graph_.add(f)] *)
Definition graph_add (f : Factor) : M BaseSLAM unit :=
  modify (set_graph (λ g, g ++ [f])).

(** [self.initial_.insert(k, v)]: GTSAM's [Values::insert] throws when the
    key is already in the container. *)
Definition initial_insert (k : Symbol) (v : Value) : M BaseSLAM unit :=
  self ← get;
  match initial_ self !! k with
  | Some _ => raise ValuesKeyAlreadyExists
  | None => modify (set_initial <[k := v]>)
  end.

(** [self.xs_[xid]] *)
Definition xs_getitem (xid : Z) : M BaseSLAM Pose :=
  self ← get;
  match xs_ self !! xid with
  | Some p => mret p
  | None => raise KeyError
  end.

(** [BaseSLAM.__init__]: the argument [robust] is accepted and not read,
    [self.robust_ = True]. *)
Definition BaseSLAM_init (odom_noise prior_pose_noise measurement_noise
    : list Q) (robust : bool) : BaseSLAM :=
  {| slam_ := ISAM2_new;
     idx_ := -1;
     graph_ := [];
     initial_ := ∅;
     measurement_noise_ := Diagonal_Sigmas measurement_noise;
     prior_pose_noise_ := Diagonal_Sigmas prior_pose_noise;
     odo_noise_ := Diagonal_Sigmas odom_noise;
     xs_ := ∅;
     ls_ := ∅;
     xls_ := [];
     xxs_ := [];
     current_ := None;
     robust_ := true;
     switch_ := [] |}.

Definition latest (self : BaseSLAM) : Z := idx_ self.
Definition index (self : BaseSLAM) : Z := idx_ self.
Definition is_initialized (self : BaseSLAM) : bool := 0 <=? latest self.
Definition estimate_available (self : BaseSLAM) : bool :=
  bool_decide (is_Some (current_ self)).

Definition initialize (p : Pose) (index : Z) (noise : option (list Q))
  : M BaseSLAM unit :=
  let x_id := symbol "x" index in
  let pose0 := p in
  self ← get;
  graph_add (PriorFactorPose3 x_id pose0
               (noise_or noise (prior_pose_noise_ self)));;
  initial_insert x_id (VPose3 pose0);;
  modify (set_xs <[index := p]>);;
  modify (set_idx (λ _, index)).

Definition add_pose_prior (index : Z) (p : Pose) (noise : option (list Q))
  : M BaseSLAM unit :=
  let x_id := symbol "x" index in
  self ← get;
  graph_add (PriorFactorPose3 x_id p
               (noise_or noise (prior_pose_noise_ self))).

Definition add_relative_pose_constraint (xid1 xid2 : Z) (delta : Pose)
    (noise : option (list Q)) : M BaseSLAM unit :=
  let pdelta := delta in
  let x_id1 := symbol "x" xid1 in
  let x_id2 := symbol "x" xid2 in
  self ← get;
  (if robust_ self then
     let switch_idx := Z.of_nat (length (switch_ self)) in
     modify (set_switch (λ l, l ++ [1%Q]));;
     initial_insert (symbol "s" switch_idx) (VSwitch 1%Q);;
     let sw_prior_model := Diagonal_Sigmas [2%Q] in
     let sw_prior_factor :=
       PriorFactorSwitchVariableSigmoid (symbol "s" switch_idx) 1%Q
         sw_prior_model in
     graph_add sw_prior_factor;;
     let odom_model := noise_or noise (odo_noise_ self) in
     let sw_factor :=
       BetweenFactorSwitchableSigmoidPose3 x_id1 x_id2
         (symbol "s" switch_idx) pdelta odom_model in
     graph_add sw_factor
   else
     graph_add (BetweenFactorPose3 x_id1 x_id2 pdelta
                  (noise_or noise (odo_noise_ self))));;
  self ← get;
  match xs_ self !! xid2 with
  | None =>
      p1 ← xs_getitem xid1;
      let pred_pose := oplus p1 delta in
      initial_insert x_id2 (VPose3 pred_pose);;
      modify (set_xs <[xid2 := pred_pose]>)
  | Some _ => mret tt
  end;;
  modify (set_xxs (λ l, l ++ [(xid1, xid2)])).

Definition add_incremental_pose_constraint (delta : Pose)
    (noise : option (list Q)) : M BaseSLAM unit :=
  self ← get;
  (if negb (is_initialized self) then initialize identity 0 None
   else mret tt);;
  self ← get;
  add_relative_pose_constraint (latest self) (latest self + 1) delta noise;;
  modify (set_idx (λ i, i + 1)).

Definition add_pose_landmarks (xid : Z) (lids : list Z) (deltas : list Pose)
    (noise : option (list Q)) : M BaseSLAM unit :=
  let x_id := symbol "x" xid in
  let l_ids := symbol "l" <$> lids in
  self ← get;
  let noise := noise_or noise (measurement_noise_ self) in
  assert (bool_decide (length l_ids = length deltas));;
  for_each (zip l_ids deltas) (λ '(l_id, delta),
    graph_add (BetweenFactorPose3 x_id l_id delta noise));;
  modify (set_xls (λ l, l ++ ((λ lid, (xid, lid)) <$> lids)));;
  for_each (zip (zip l_ids lids) deltas) (λ '(l_id, lid, delta),
    self ← get;
    match ls_ self !! lid with
    | None =>
        try_except_raise
          (p ← xs_getitem xid;
           let pred_pose := oplus p delta in
           initial_insert l_id (VPose3 pred_pose);;
           modify (set_ls <[lid := LPose pred_pose]>))
          KeyError
    | Some _ => mret tt
    end).

Definition add_pose_landmarks_incremental (lid : list Z) (delta : list Pose)
    (noise : option (list Q)) : M BaseSLAM unit :=
  self ← get;
  add_pose_landmarks (latest self) lid delta noise.

(** [BaseSLAM._update] *)
Definition BaseSLAM_update : M BaseSLAM unit :=
  self ← get;
  match isam_update (slam_ self) (graph_ self) (initial_ self)
        ≫= isam_update_ with
  | None => raise RuntimeError
  | Some slam =>
      modify (set_slam (λ _, slam));;
      modify (set_graph (λ _, []));;
      modify (set_initial (λ _, ∅));;
      modify (set_current (λ _, Some (calculateEstimate slam)))
  end.

Definition _batch_solve : M BaseSLAM unit :=
  self ← get;
  match LevenbergMarquardtOptimizer_optimize (graph_ self) (initial_ self) with
  | None => raise RuntimeError
  | Some cur => modify (set_current (λ _, Some cur))
  end.

(** [l[i] = v] on a Python list: negative indices count from the end. *)
Definition list_setitem {A} (i : Z) (v : A) (l : list A) : Res (list A) :=
  let n := Z.of_nat (length l) in
  if bool_decide (0 ≤ i < n) then Ok (<[Z.to_nat i := v]> l)
  else if bool_decide (- n ≤ i < 0) then Ok (<[Z.to_nat (n + i) := v]> l)
  else Raise IndexError.

Definition _update_estimates : M BaseSLAM unit :=
  self ← get;
  match current_ self with
  | None => raise RuntimeError
  | Some current =>
      let items := map_to_list current in
      (* poses *)
      for_each items (λ '(k, v),
        match v with
        | VPose3 p =>
            if bool_decide (Symbol_chr k = "l"%char)
            then modify (set_ls <[Symbol_index k := LPose p]>)
            else if bool_decide (Symbol_chr k = "x"%char)
            then modify (set_xs <[Symbol_index k := p]>)
            else raise RuntimeError
        | _ => mret tt
        end);;
      (* landmarks *)
      for_each items (λ '(k, v),
        match v with
        | VPoint3 p =>
            if bool_decide (Symbol_chr k = "l"%char)
            then modify (set_ls <[Symbol_index k := LPoint p]>)
            else raise RuntimeError
        | _ => mret tt
        end);;
      (* switches *)
      for_each items (λ '(k, v),
        match v with
        | VSwitch q =>
            self ← get;
            match list_setitem (Symbol_index k) q (switch_ self) with
            | Ok l => modify (set_switch (λ _, l))
            | Raise e => raise e
            end
        | _ => mret tt
        end)
  end.

(** A method of the base class run on the derived object. *)
Definition lift {A} (m : M BaseSLAM A) : M VisualSLAM A :=
  λ v, let '(b, r) := m (base v) in (set_base (λ _, b) v, r).

(** ** VisualSLAM *)

(** [VisualSLAM.__init__]: the base constructor is called with its default
    [measurement_noise] and [robust]. *)
Definition VisualSLAM_init (calib : Cal3_S2) (min_landmark_obs : Z)
    (odom_noise prior_pose_noise prior_point3d_noise : list Q)
    (px_error_threshold : Q) (px_noise : list Q) : Res VisualSLAM :=
  let b := BaseSLAM_init odom_noise prior_pose_noise MEASUREMENT_NOISE true in
  if bool_decide (2 ≤ min_landmark_obs) then
    Ok {| base := b;
          batch_init_ := false;
          px_error_threshold_ := px_error_threshold;
          min_landmark_obs_ := min_landmark_obs;
          K_ := {| fx := fx calib; fy := fy calib; skew := 0%Q;
                   cx := cx calib; cy := cy calib |};
          lid_count_ := ∅;
          lid_factors_ := ∅;
          image_measurement_noise_ := Diagonal_Sigmas px_noise;
          prior_point3d_noise_ := Diagonal_Sigmas prior_point3d_noise |}
  else Raise AssertionError.

(** The default factory of [lid_factors_]. *)
Definition new_lid_factor : LidFactor :=
  {| in_graph := false; count := 0; factor := [] |}.

(** [self.lid_factors_[lid]] on the [defaultdict]: a missing key is
    inserted with the default. *)
Definition lid_factors_getitem (lid : Z) : M VisualSLAM LidFactor :=
  self ← get;
  match lid_factors_ self !! lid with
  | Some r => mret r
  | None =>
      modify (set_lid_factors <[lid := new_lid_factor]>);;
      mret new_lid_factor
  end.

(** [del self.lid_factors_[lid]] *)
Definition lid_factors_delitem (lid : Z) : M VisualSLAM unit :=
  self ← get;
  match lid_factors_ self !! lid with
  | Some _ => modify (set_lid_factors (delete lid))
  | None => raise KeyError
  end.

(** [c + Counter(lids)] *)
Definition Counter_add (c : gmap Z Z) (lids : list Z) : gmap Z Z :=
  foldl (λ c lid, <[lid := default 0 (c !! lid) + 1]> c) c lids.

Definition add_landmark_prior (index : Z) (p : Point3)
    (noise : option (list Q)) : M VisualSLAM unit :=
  let l_id := symbol "l" index in
  self ← get;
  lift (graph_add (PriorFactorPoint3 l_id p
                     (noise_or noise (prior_point3d_noise_ self)))).

Definition add_point_landmarks (xid : Z) (lids : list Z) (pts : list Point2)
    (pts3d : list Point3) (noise : option (list Q)) : M VisualSLAM unit :=
  modify (set_lid_count (λ c, Counter_add c lids));;
  let x_id := symbol "x" xid in
  let l_ids := symbol "l" <$> lids in
  self ← get;
  let noise := noise_or noise (image_measurement_noise_ self) in
  assert (bool_decide (length l_ids = length pts)
          && bool_decide (length pts = length pts3d));;
  for_each (zip l_ids pts) (λ '(l_id, pt),
    lift (graph_add (GenericProjectionFactorPose3Point3Cal3_S2
                       pt noise x_id l_id (K_ self))));;
  for_each (zip (zip l_ids lids) pts3d) (λ '(l_id, lid, pt3),
    self ← get;
    match ls_ (base self) !! lid with
    | None =>
        try_except_raise
          (lift (p ← xs_getitem xid;
                 let pred_pt3 := transform_from p pt3 in
                 initial_insert l_id (VPoint3 pred_pt3);;
                 modify (set_ls <[lid := LPoint pred_pt3]>)))
          RuntimeError
    | Some _ => mret tt
    end).

Definition add_point_landmarks_incremental (lids : list Z)
    (pts : list Point2) (pts3d : list Point3) (noise : option (list Q))
  : M VisualSLAM unit :=
  self ← get;
  add_point_landmarks (latest (base self)) lids pts pts3d noise.

Definition add_point_landmarks_smart (xid : Z) (lids : list Z)
    (pts : list Point2) : M VisualSLAM unit :=
  let x_id := symbol "x" xid in
  let l_ids := symbol "l" <$> lids in
  assert (bool_decide (length l_ids = length pts));;
  for_each (zip (zip lids l_ids) pts) (λ '(lid, l_id, pt),
    self ← get;
    match ls_ (base self) !! lid with
    | Some _ =>
        (* the projection factor of this branch is commented out *)
        mret tt
    | None =>
        r ← lid_factors_getitem lid;
        let r := {| in_graph := in_graph r; count := count r;
                    factor := add_single pt x_id (factor r) |} in
        modify (set_lid_factors <[lid := r]>);;
        r ← lid_factors_getitem lid;
        modify (set_lid_factors
                  <[lid := {| in_graph := in_graph r; count := count r + 1;
                              factor := factor r |}]>)
    end).

Definition add_point_landmarks_incremental_smart (lids : list Z)
    (pts : list Point2) : M VisualSLAM unit :=
  self ← get;
  add_point_landmarks_smart (latest (base self)) lids pts.

(** One round of the loop of [smart_update], for the key [lid]; [acc] is
    the local lists [lids, pts3]. *)
Definition smart_update_body (current : Values) (lid : Z)
    (acc : list Z * list Point3) : M VisualSLAM (list Z * list Point3) :=
  lid_factor ← lid_factors_getitem lid;
  self ← get;
  if in_graph lid_factor || bool_decide (count lid_factor < min_landmark_obs_ self)
  then mret acc
  else
    let l_id := symbol "l" lid in
    let smart := factor lid_factor in
    if isDegenerate smart || isPointBehindCamera smart
    then lid_factors_delitem lid;; mret acc
    else
      let err := smart_error smart current in
      if negb (Qle_bool err (px_error_threshold_ self)) || Qle_bool err 0
      then lid_factors_delitem lid;; mret acc
      else
        let pt3 := point_compute smart current in
        assert (negb (bool_decide (is_Some (ls_ (base self) !! lid))));;
        lift (initial_insert l_id (VPoint3 pt3);;
              modify (set_ls <[lid := LPoint pt3]>));;
        let acc := (acc.1 ++ [lid], acc.2 ++ [pt3]) in
        let x_ids := keys smart in
        let pts := measured smart in
        assert (bool_decide (length pts = length x_ids));;
        for_each (zip x_ids pts) (λ '(x_id, pt),
          lift (graph_add (GenericProjectionFactorPose3Point3Cal3_S2
                  pt (image_measurement_noise_ self) x_id l_id (K_ self))));;
        lid_factors_delitem lid;;
        mret acc.

(** [np.vstack(pts3)] raises on an empty sequence. *)
Definition np_vstack {A} (l : list A) : Res (list A) :=
  match l with
  | [] => Raise ValueError
  | _ => Ok l
  end.

Definition smart_update : M VisualSLAM (list Z * list Point3) :=
  self ← get;
  let current := calculateEstimate (slam_ (base self)) in
  '(lids, pts3) ← for_acc (map_to_list (lid_factors_ self)).*1 ([], [])
                     (smart_update_body current);
  self ← get;
  (if bool_decide (index (base self) ≤ 2) then
     for_each (zip lids pts3) (λ '(lid, pt3), add_landmark_prior lid pt3 None)
   else mret tt);;
  match np_vstack pts3 with
  | Ok pts3' =>
      if bool_decide (length lids = length pts3') then mret (lids, pts3')
      else mret ([], [])
  | Raise _ => mret ([], [])
  end.

(** [VisualSLAM._update] *)
Definition VisualSLAM_update : M VisualSLAM unit :=
  self ← get;
  (if negb (batch_init_ self) then
     modify (set_batch_init (λ _, true));;
     match LevenbergMarquardtOptimizer_optimize
             (graph_ (base self)) (initial_ (base self))
           ≫= isam_update (slam_ (base self)) (graph_ (base self)) with
     | None => raise RuntimeError
     | Some slam => lift (modify (set_slam (λ _, slam)))
     end
   else
     match isam_update (slam_ (base self)) (graph_ (base self))
             (initial_ (base self)) ≫= isam_update_ with
     | None => raise RuntimeError
     | Some slam => lift (modify (set_slam (λ _, slam)))
     end);;
  lift (modify (set_graph (λ _, []));;
        modify (set_initial (λ _, ∅));;
        self ← get;
        modify (set_current (λ _, Some (calculateEstimate (slam_ self))))).


(** ** Sequences of calls *)

(** The mutating methods of a [VisualSLAM] object, inherited ones
    included. *)
Inductive Op :=
| Op_initialize (p : Pose) (index : Z) (noise : option (list Q))
| Op_add_pose_prior (index : Z) (p : Pose) (noise : option (list Q))
| Op_add_incremental_pose_constraint (delta : Pose) (noise : option (list Q))
| Op_add_relative_pose_constraint (xid1 xid2 : Z) (delta : Pose)
    (noise : option (list Q))
| Op_add_pose_landmarks (xid : Z) (lids : list Z) (deltas : list Pose)
    (noise : option (list Q))
| Op_add_pose_landmarks_incremental (lids : list Z) (deltas : list Pose)
    (noise : option (list Q))
| Op_add_point_landmarks (xid : Z) (lids : list Z) (pts : list Point2)
    (pts3d : list Point3) (noise : option (list Q))
| Op_add_point_landmarks_incremental (lids : list Z) (pts : list Point2)
    (pts3d : list Point3) (noise : option (list Q))
| Op_add_landmark_prior (index : Z) (p : Point3) (noise : option (list Q))
| Op_add_point_landmarks_smart (xid : Z) (lids : list Z) (pts : list Point2)
| Op_add_point_landmarks_incremental_smart (lids : list Z)
    (pts : list Point2)
| Op_smart_update
| Op_update
| Op_batch_solve
| Op_update_estimates.

Definition call (op : Op) : M VisualSLAM unit :=
  match op with
  | Op_initialize p index noise => lift (initialize p index noise)
  | Op_add_pose_prior index p noise => lift (add_pose_prior index p noise)
  | Op_add_incremental_pose_constraint delta noise =>
      lift (add_incremental_pose_constraint delta noise)
  | Op_add_relative_pose_constraint xid1 xid2 delta noise =>
      lift (add_relative_pose_constraint xid1 xid2 delta noise)
  | Op_add_pose_landmarks xid lids deltas noise =>
      lift (add_pose_landmarks xid lids deltas noise)
  | Op_add_pose_landmarks_incremental lids deltas noise =>
      lift (add_pose_landmarks_incremental lids deltas noise)
  | Op_add_point_landmarks xid lids pts pts3d noise =>
      add_point_landmarks xid lids pts pts3d noise
  | Op_add_point_landmarks_incremental lids pts pts3d noise =>
      add_point_landmarks_incremental lids pts pts3d noise
  | Op_add_landmark_prior index p noise => add_landmark_prior index p noise
  | Op_add_point_landmarks_smart xid lids pts =>
      add_point_landmarks_smart xid lids pts
  | Op_add_point_landmarks_incremental_smart lids pts =>
      add_point_landmarks_incremental_smart lids pts
  | Op_smart_update => smart_update;; mret tt
  | Op_update => VisualSLAM_update
  | Op_batch_solve => lift _batch_solve
  | Op_update_estimates => lift _update_estimates
  end.

(** The calls in order, up to the first exception. *)
Definition calls (ops : list Op) : M VisualSLAM unit := for_each ops call.

(** The calls that go through [add_relative_pose_constraint]. *)
Definition is_relative (op : Op) : bool :=
  match op with
  | Op_add_incremental_pose_constraint _ _
  | Op_add_relative_pose_constraint _ _ _ _ => true
  | _ => false
  end.

Definition is_update (op : Op) : bool :=
  match op with
  | Op_update => true
  | _ => false
  end.

(** ** Relations between the object before and after a method *)

(** [m] takes the object [s] to one related to it by [R], whether it
    returns or raises. *)
Definition after {S A} (R : relation S) (m : M S A) (s : S) : Prop :=
  R s (m s).1.

Definition on_base (R : relation BaseSLAM) : relation VisualSLAM :=
  λ v v', R (base v) (base v').

(** The switch list does not shrink. *)
Definition switch_grows : relation BaseSLAM :=
  λ s s', (length (switch_ s) ≤ length (switch_ s'))%nat.

(** No switch is allocated: same mode, same number of switches, no new
    switch key staged. *)
Definition switch_same : relation BaseSLAM :=
  λ s s', robust_ s' = robust_ s
          ∧ length (switch_ s') = length (switch_ s)
          ∧ ∀ k, is_Some (initial_ s' !! symbol "s" k) →
                 is_Some (initial_ s !! symbol "s" k).

(** The pending batch only grows. *)
Definition batch_grows : relation BaseSLAM :=
  λ s s', initial_ s ⊆ initial_ s' ∧ ∀ f, f ∈ graph_ s → f ∈ graph_ s'.

(** The switch keys staged are below the number of switches. *)
Definition switch_keys_bounded (s : BaseSLAM) : Prop :=
  ∀ k, is_Some (initial_ s !! symbol "s" k) →
       0 ≤ k < Z.of_nat (length (switch_ s)).

(** Every switch is staged at confidence 1 and has its prior in the
    pending graph. *)
Definition switches_staged (s : BaseSLAM) : Prop :=
  ∀ k, 0 ≤ k < Z.of_nat (length (switch_ s)) →
       initial_ s !! symbol "s" k = Some (VSwitch 1%Q)
       ∧ PriorFactorSwitchVariableSigmoid (symbol "s" k) 1%Q
           (Diagonal_Sigmas [2%Q]) ∈ graph_ s.

(** The number of calls that go through [add_relative_pose_constraint]. *)
Definition relative_calls (ops : list Op) : nat :=
  length (List.filter is_relative ops).

(** No call is the update. *)
Definition before_update (ops : list Op) : bool :=
  forallb (λ op, negb (is_update op)) ops.

(** Robust mode with [n] switches, each key staged below [n]; while
    [staged] holds every switch is still in the pending batch. *)
Record switch_inv (n : nat) (staged : bool) (s : BaseSLAM) : Prop := {
  switch_inv_robust : robust_ s = true;
  switch_inv_length : length (switch_ s) = n;
  switch_inv_keys : switch_keys_bounded s;
  switch_inv_staged : staged = true → switches_staged s
}.

(** ** The settle pass, entry by entry *)

(** The branch that a round of the loop of [smart_update] takes on the
    entry [r]: the two [continue]s without and with [del], or the
    promotion. *)
Inductive Verdict := Skipped | Rejected | Accepted.

Definition verdict (self : VisualSLAM) (current : Values) (r : LidFactor)
  : Verdict :=
  if in_graph r || bool_decide (count r < min_landmark_obs_ self)
  then Skipped
  else if isDegenerate (factor r) || isPointBehindCamera (factor r)
  then Rejected
  else
    let err := smart_error (factor r) current in
    if negb (Qle_bool err (px_error_threshold_ self)) || Qle_bool err 0
    then Rejected
    else Accepted.

(** The loop of [smart_update] over the keys [l]. *)
Definition rounds (current : Values) (l : list Z) (acc : list Z * list Point3)
  : M VisualSLAM (list Z * list Point3) :=
  for_acc l acc (smart_update_body current).

(** The three tests of the loop, as propositions: the entry is examined,
    it fails a test, it passes them all. *)
Definition examined (self : VisualSLAM) (r : LidFactor) : Prop :=
  in_graph r = false ∧ min_landmark_obs_ self ≤ count r.

Definition fails_checks (self : VisualSLAM) (current : Values)
    (r : LidFactor) : Prop :=
  isDegenerate (factor r) = true
  ∨ isPointBehindCamera (factor r) = true
  ∨ (px_error_threshold_ self < smart_error (factor r) current)%Q
  ∨ (smart_error (factor r) current <= 0)%Q.

Definition passes_checks (self : VisualSLAM) (current : Values)
    (r : LidFactor) : Prop :=
  isDegenerate (factor r) = false
  ∧ isPointBehindCamera (factor r) = false
  ∧ (0 < smart_error (factor r) current)%Q
  ∧ (smart_error (factor r) current <= px_error_threshold_ self)%Q.

(** The entry of [lid] after one more measurement: what the [else] branch
    of [add_point_landmarks_smart] leaves in [lid_factors_]. *)
Definition observed (xid : Z) (pt : Point2) (o : option LidFactor)
  : LidFactor :=
  let r := default new_lid_factor o in
  {| in_graph := in_graph r;
     count := count r + 1;
     factor := add_single pt (symbol "x" xid) (factor r) |}.

(** One round of the loop of [add_point_landmarks_smart]. *)
Definition observe (xid : Z) (self : VisualSLAM) (m : Z * Point2)
  : VisualSLAM :=
  match ls_ (base self) !! m.1 with
  | Some _ => self
  | None =>
      set_lid_factors
        (λ t, <[m.1 := observed xid m.2 (t !! m.1)]> t) self
  end.

(** The projection factors that a promotion adds for the landmark [lid]:
    one per measurement of the smart factor, in the order they were made. *)
Definition projection_factors (self : VisualSLAM) (lid : Z) (f : SmartFactor)
  : list Factor :=
  (λ m, GenericProjectionFactorPose3Point3Cal3_S2 m.1
          (image_measurement_noise_ self) m.2 (symbol "l" lid) (K_ self))
  <$> f.

(** The object after the promotion of the entry [r] of [lid]. *)
Definition promoted (current : Values) (lid : Z) (r : LidFactor)
    (self : VisualSLAM) : VisualSLAM :=
  let pt3 := point_compute (factor r) current in
  set_lid_factors (delete lid)
    (set_base
       (λ b, set_graph (λ g, g ++ projection_factors self lid (factor r))
               (set_ls <[lid := LPoint pt3]>
                  (set_initial <[symbol "l" lid := VPoint3 pt3]> b)))
       self).

(** The entry of [lid] and the thresholds are the same. *)
Definition keeps_entry (lid : Z) : relation VisualSLAM :=
  λ v v', lid_factors_ v' !! lid = lid_factors_ v !! lid
          ∧ min_landmark_obs_ v' = min_landmark_obs_ v
          ∧ px_error_threshold_ v' = px_error_threshold_ v.

(** The thresholds fixed by the constructor are the same. *)
Definition same_thresholds : relation VisualSLAM :=
  λ v v', min_landmark_obs_ v' = min_landmark_obs_ v
          ∧ px_error_threshold_ v' = px_error_threshold_ v.

(** The calibration and the pixel noise are the same. *)
Definition same_camera : relation VisualSLAM :=
  λ v v', K_ v' = K_ v
          ∧ image_measurement_noise_ v' = image_measurement_noise_ v.

(** The object after an update that left the solver in [slam]: the
    pending batch is empty and the estimate is the solver's. *)
Definition updated (slam : ISAM2) (self : VisualSLAM) : VisualSLAM :=
  set_base
    (λ b, set_current (λ _, Some (calculateEstimate slam))
            (set_initial (λ _, ∅)
               (set_graph (λ _, []) (set_slam (λ _, slam) b))))
    self.

(** The flag of the first update is the same. *)
Definition same_batch_init : relation VisualSLAM :=
  λ v v', batch_init_ v' = batch_init_ v.

(** The landmark [lid] is the same, committed and staged. *)
Definition keeps_landmark (lid : Z) : relation BaseSLAM :=
  λ s s', ls_ s' !! lid = ls_ s !! lid
          ∧ initial_ s' !! symbol "l" lid = initial_ s !! symbol "l" lid.

(** The two tables of landmarks are the same. *)
Definition same_entries : relation VisualSLAM :=
  λ v v', lid_factors_ v' = lid_factors_ v.

Definition same_landmarks : relation BaseSLAM :=
  λ s s', ls_ s' = ls_ s.

(** The calls that do not write [ls_] on their own: all but the direct
    landmark methods and [_update_estimates]. *)
Definition smart_route (op : Op) : bool :=
  match op with
  | Op_add_pose_landmarks _ _ _ _
  | Op_add_pose_landmarks_incremental _ _ _
  | Op_add_point_landmarks _ _ _ _ _
  | Op_add_point_landmarks_incremental _ _ _ _
  | Op_update_estimates => false
  | _ => true
  end.

(** No identifier has both a pending entry and a landmark. *)
Definition pending_uncommitted (v : VisualSLAM) : Prop :=
  ∀ lid, is_Some (lid_factors_ v !! lid) → ls_ (base v) !! lid = None.

(** ** Pose chain *)

(** [add_incremental_pose_constraint] once per element of [deltas]. *)
Definition odometry (deltas : list (Pose * option (list Q)))
  : M BaseSLAM unit :=
  for_each deltas (λ '(delta, noise),
    add_incremental_pose_constraint delta noise).

(** The poses are [0..n], the latest is [n], and no staged key can clash
    with the next insertion. *)
Record chain (n : Z) (s : BaseSLAM) : Prop := {
  chain_idx : idx_ s = n;
  chain_nonneg : 0 ≤ n;
  chain_xs : ∀ k, is_Some (xs_ s !! k) ↔ 0 ≤ k ≤ n;
  chain_staged_x : ∀ k, is_Some (initial_ s !! symbol "x" k) →
                        is_Some (xs_ s !! k);
  chain_staged_s : ∀ k, is_Some (initial_ s !! symbol "s" k) →
                        k < Z.of_nat (length (switch_ s))
}.

(** ** Accessors *)

Definition poses_count (self : BaseSLAM) : nat := size (xs_ self).
Definition target_landmarks_count (self : BaseSLAM) : nat := size (ls_ self).
Definition landmark_edges (self : BaseSLAM) : list (Z * Z) := xls_ self.
Definition robot_edges (self : BaseSLAM) : list (Z * Z) := xxs_ self.

(** [np.float32(self.switch_) if self.robust_ else np.ones(len(self.xxs_))] *)
Definition robot_edges_confident (self : BaseSLAM) : list Q :=
  if robust_ self then switch_ self else repeat 1%Q (length (xxs_ self)).

(** ** What is staged is known *)

(** Every pose or landmark key among the pending initial values has its
    value in [xs_] or [ls_], and every pending switch key is the index of
    a switch. *)
Record staged_known (s : BaseSLAM) : Prop := {
  staged_x : ∀ k, is_Some (initial_ s !! symbol "x" k) → is_Some (xs_ s !! k);
  staged_l : ∀ k, is_Some (initial_ s !! symbol "l" k) → is_Some (ls_ s !! k);
  staged_s : switch_keys_bounded s
}.

(** A method keeps [I]: the relation of [after] for an invariant. *)
Definition keeps {S} (I : S → Prop) : relation S := λ s s', I s → I s'.

(** The entries of [lid_factors_]: none is marked [in_graph], each counts
    the measurements of its smart factor, of which there is at least one,
    and every measurement is keyed by a pose. *)
Definition entry_counted (r : LidFactor) : Prop :=
  in_graph r = false
  ∧ count r = Z.of_nat (length (factor r))
  ∧ 1 ≤ count r
  ∧ ∀ k, k ∈ keys (factor r) → Symbol_chr k = "x"%char.

Definition entries_counted (v : VisualSLAM) : Prop :=
  ∀ lid r, lid_factors_ v !! lid = Some r → entry_counted r.

(** The edges [(i, i + 1)] for [i] from [n], [len] of them. *)
Definition consecutive (n : Z) (len : nat) : list (Z * Z) :=
  (λ i, (i, i + 1)) <$> seqZ n (Z.of_nat len).

(** The object after the first half of [add_relative_pose_constraint],
    when the switch key is new: the switch with its prior and the
    switchable factor in robust mode, the plain factor otherwise. *)
Definition constrained (xid1 xid2 : Z) (delta : Pose)
    (noise : option (list Q)) (s : BaseSLAM) : BaseSLAM :=
  if robust_ s then
    let ks := symbol "s" (Z.of_nat (length (switch_ s))) in
    set_graph
      (λ g, g ++ [BetweenFactorSwitchableSigmoidPose3
                    (symbol "x" xid1) (symbol "x" xid2) ks delta
                    (noise_or noise (odo_noise_ s))])
      (set_graph
         (λ g, g ++ [PriorFactorSwitchVariableSigmoid ks 1%Q
                       (Diagonal_Sigmas [2%Q])])
         (set_initial <[ks := VSwitch 1%Q]>
            (set_switch (λ l, l ++ [1%Q]) s)))
  else
    set_graph
      (λ g, g ++ [BetweenFactorPose3 (symbol "x" xid1) (symbol "x" xid2)
                    delta (noise_or noise (odo_noise_ s))])
      s.

(** The field [f] is the same. *)
Definition same {S A} (f : S → A) : relation S := λ s s', f s' = f s.

Definition is_Ok {A} (r : Res A) : bool :=
  match r with
  | Ok _ => true
  | Raise _ => false
  end.

(** The poses are [i..i + len], one after the other, with the edge between
    each two, and what is staged is known. *)
Record run_from (i : Z) (len : nat) (s : BaseSLAM) : Prop := {
  run_idx : idx_ s = i + Z.of_nat len;
  run_start : 0 ≤ i;
  run_xs : ∀ k, is_Some (xs_ s !! k) ↔ i ≤ k ≤ i + Z.of_nat len;
  run_count : poses_count s = S len;
  run_edges : robot_edges s = consecutive i len;
  run_confident : robot_edges_confident s = repeat 1%Q len;
  run_staged : staged_known s
}.

(** One round of the loop that gives a landmark its first value: the
    landmark [lid] is staged as [val] and recorded as [lm] unless it is
    in [ls_]. *)
Definition sighted (lid : Z) (val : Value) (lm : Landmark) (s : BaseSLAM)
  : BaseSLAM :=
  match ls_ s !! lid with
  | Some _ => s
  | None => set_ls <[lid := lm]> (set_initial <[symbol "l" lid := val]> s)
  end.

(** The first element of [l] for the landmark [lid]. *)
Definition first_sight {A} (lid : Z) (l : list (Z * A)) : option A :=
  snd <$> List.find (λ m, bool_decide (m.1 = lid)) l.

(** The loop over the sightings [(lid, (val, lm))]. *)
Definition sightings (l : list (Z * (Value * Landmark))) (s : BaseSLAM)
  : BaseSLAM :=
  foldl (λ s m, sighted m.1 m.2.1 m.2.2 s) s l.

(** The number of occurrences of [lid] in [lids]. *)
Definition occurrences (lid : Z) (lids : list Z) : Z :=
  Z.of_nat (length (filter (λ x, x = lid) lids)).

(** ** What a settle pass leaves *)

(** The entry of [lid], as [self.lid_factors_[lid]] reads it. *)
Definition entry (v : VisualSLAM) (lid : Z) : LidFactor :=
  default new_lid_factor (lid_factors_ v !! lid).

(** The entry that a returning settle pass leaves for [lid]: the one it
    had, if the pass skips it. *)
Definition skipped_entry (v : VisualSLAM) (lid : Z) : option LidFactor :=
  r ← lid_factors_ v !! lid;
  match verdict v (calculateEstimate (slam_ (base v))) r with
  | Skipped => Some r
  | _ => None
  end.

(** The projection factors and the points of the landmarks [lids], from
    the entries that they have in [v]. *)
Definition promoted_factors (v : VisualSLAM) (lids : list Z) : list Factor :=
  mjoin ((λ lid, projection_factors v lid (factor (entry v lid))) <$> lids).

Definition promoted_points (v : VisualSLAM) (lids : list Z) : list Point3 :=
  (λ lid, point_compute (factor (entry v lid))
            (calculateEstimate (slam_ (base v)))) <$> lids.

(** The priors that the pass adds while the latest pose index is at most
    2. *)
Definition settle_priors (v : VisualSLAM) (lids : list Z) : list Factor :=
  if bool_decide (index (base v) ≤ 2) then
    (λ m, PriorFactorPoint3 (symbol "l" m.1) m.2 (prior_point3d_noise_ v))
    <$> zip lids (promoted_points v lids)
  else [].

(** The fields that a round of the pass reads and does not write. *)
Definition same_settings : relation VisualSLAM :=
  λ v v', min_landmark_obs_ v' = min_landmark_obs_ v
          ∧ px_error_threshold_ v' = px_error_threshold_ v
          ∧ K_ v' = K_ v
          ∧ image_measurement_noise_ v' = image_measurement_noise_ v
          ∧ prior_point3d_noise_ v' = prior_point3d_noise_ v
          ∧ idx_ (base v') = idx_ (base v).

(** ** Reading the estimate back *)

(** The keys that [_update_estimates] accepts in an estimate, on an
    object with [n] switches: a pose under ['l'] or ['x'], a point under
    ['l'], a switch at an index of the list. *)
Definition estimate_keyed (n : Z) (k : Symbol) (v : Value) : Prop :=
  match v with
  | VPose3 _ => Symbol_chr k = "l"%char ∨ Symbol_chr k = "x"%char
  | VPoint3 _ => Symbol_chr k = "l"%char
  | VSwitch _ => - n ≤ Symbol_index k < n
  end.

(** One round of each of its three loops, on an item so keyed. *)
Definition refresh_pose (s : BaseSLAM) (m : Symbol * Value) : BaseSLAM :=
  match m.2 with
  | VPose3 p =>
      if bool_decide (Symbol_chr m.1 = "l"%char)
      then set_ls <[Symbol_index m.1 := LPose p]> s
      else set_xs <[Symbol_index m.1 := p]> s
  | _ => s
  end.

Definition refresh_point (s : BaseSLAM) (m : Symbol * Value) : BaseSLAM :=
  match m.2 with
  | VPoint3 p => set_ls <[Symbol_index m.1 := LPoint p]> s
  | _ => s
  end.

Definition refresh_switch (s : BaseSLAM) (m : Symbol * Value) : BaseSLAM :=
  match m.2 with
  | VSwitch q =>
      match list_setitem (Symbol_index m.1) q (switch_ s) with
      | Ok l => set_switch (λ _, l) s
      | Raise _ => s
      end
  | _ => s
  end.

(** What an item writes, and where: a pose, a pose landmark, a point
    landmark, a switch. *)
Definition pose_of (m : Symbol * Value) : option (Z * Pose) :=
  match m.2 with
  | VPose3 p =>
      if bool_decide (Symbol_chr m.1 = "l"%char) then None
      else Some (Symbol_index m.1, p)
  | _ => None
  end.

Definition pose_landmark_of (m : Symbol * Value) : option (Z * Landmark) :=
  match m.2 with
  | VPose3 p =>
      if bool_decide (Symbol_chr m.1 = "l"%char)
      then Some (Symbol_index m.1, LPose p) else None
  | _ => None
  end.

Definition point_landmark_of (m : Symbol * Value) : option (Z * Landmark) :=
  match m.2 with
  | VPoint3 p => Some (Symbol_index m.1, LPoint p)
  | _ => None
  end.

Definition switch_of (m : Symbol * Value) : option (Z * Q) :=
  match m.2 with
  | VSwitch q => Some (Symbol_index m.1, q)
  | _ => None
  end.

Definition refresh {A} (target : Symbol * Value → option (Z * A))
    (m : gmap Z A) (kv : Symbol * Value) : gmap Z A :=
  match target kv with
  | Some (j, a) => <[j := a]> m
  | None => m
  end.

Definition refresh_list (l : list Q) (kv : Symbol * Value) : list Q :=
  match switch_of kv with
  | Some (j, q) =>
      match list_setitem j q l with
      | Ok l' => l'
      | Raise _ => l
      end
  | None => l
  end.

(** The sightings of [lid] through [add_point_landmarks], directly or
    from the latest pose. *)
Definition point_sightings (lid : Z) (ops : list Op) : Z :=
  foldr (λ op n,
           match op with
           | Op_add_point_landmarks _ lids _ _ _
           | Op_add_point_landmarks_incremental lids _ _ _ =>
               occurrences lid lids + n
           | _ => n
           end) 0 ops.

(** ** Marginals *)

(** [ISAM2.marginalCovariance(key)], which raises for a key that the
    solver does not hold. *)
Class Marginals := {
  Covariance : Type;
  marginalCovariance : ISAM2 → Symbol → Res Covariance
}.

Context {marginals : Marginals}.

(** The two tables [xcovs_] and [lcovs_] of the object; only the
    constructor, which leaves them empty, [_update_marginals] and the
    accessors below touch them, and they are kept apart from the record
    [BaseSLAM]. *)
Record MarginalTables := {
  xcovs_ : gmap Z Covariance;
  lcovs_ : gmap Z Covariance
}.

Definition MarginalTables_init : MarginalTables :=
  {| xcovs_ := ∅; lcovs_ := ∅ |}.

Definition set_xcovs (f : gmap Z Covariance → gmap Z Covariance)
    (t : MarginalTables) : MarginalTables :=
  {| xcovs_ := f (xcovs_ t); lcovs_ := lcovs_ t |}.
Definition set_lcovs (f : gmap Z Covariance → gmap Z Covariance)
    (t : MarginalTables) : MarginalTables :=
  {| xcovs_ := xcovs_ t; lcovs_ := f (lcovs_ t) |}.

Definition _update_marginals (self : BaseSLAM) : M MarginalTables unit :=
  if negb (estimate_available self) then raise RuntimeError
  else
    for_each (map_to_list (xs_ self)).*1 (λ xid,
      match marginalCovariance (slam_ self) (symbol "x" xid) with
      | Ok c => modify (set_xcovs <[xid := c]>)
      | Raise e => raise e
      end);;
    for_each (map_to_list (ls_ self)).*1 (λ lid,
      match marginalCovariance (slam_ self) (symbol "l" lid) with
      | Ok c => modify (set_lcovs <[lid := c]>)
      | Raise e => raise e
      end).

Definition marginals_available (t : MarginalTables) : bool :=
  bool_decide (0 < size (xcovs_ t))%nat
  || bool_decide (0 < size (lcovs_ t))%nat.

(** [self.xcovs_[node_id]], [self.lcovs_[node_id]] *)
Definition pose_marginal (node_id : Z) (t : MarginalTables)
  : Res Covariance :=
  match xcovs_ t !! node_id with
  | Some c => Ok c
  | None => Raise KeyError
  end.
Definition landmark_marginal (node_id : Z) (t : MarginalTables)
  : Res Covariance :=
  match lcovs_ t !! node_id with
  | Some c => Ok c
  | None => Raise KeyError
  end.

(** The covariance that the solver gives for a key, if it gives one. *)
Definition covariance_of (slam : ISAM2) (k : Symbol) : option Covariance :=
  match marginalCovariance slam k with
  | Ok c => Some c
  | Raise _ => None
  end.

(** ** Two-view bundle adjustment *)

(** [DoglegOptimizer(graph, values).optimize()]; [None] is a raised
    exception. *)
Class BatchOptimizer := {
  DoglegOptimizer_optimize : NonlinearFactorGraph → Values → option Values
}.

Context {dogleg : BatchOptimizer}.

(** [a[mask]] for a boolean mask: the rows of [a] at which the mask
    holds; numpy raises IndexError when the mask has another length than
    [a]. *)
Definition np_mask {A} (mask : list bool) (a : list A) : Res (list A) :=
  if bool_decide (length mask = length a)
  then Ok ((filter (λ m, m.1 = true) (zip mask a)).*2)
  else Raise IndexError.

(** [enumerate(l)] and [range(n)] *)
Definition enumerate {A} (l : list A) : list (Z * A) :=
  imap (λ i x, (Z.of_nat i, x)) l.
Definition range (n : Z) : list Z := seqZ 0 n.

(** The locals [graph] and [initialEstimate] of [two_view_BA]. *)
Record BA := {
  graph : NonlinearFactorGraph;
  initialEstimate : Values
}.

Definition BA_new : BA := {| graph := []; initialEstimate := ∅ |}.

(** [graph.add(f)] and [initialEstimate.insert(k, v)] *)
Definition BA_add (f : Factor) : M BA unit :=
  modify (λ b, {| graph := graph b ++ [f];
                  initialEstimate := initialEstimate b |}).
Definition BA_insert (k : Symbol) (v : Value) : M BA unit :=
  b ← get;
  match initialEstimate b !! k with
  | Some _ => raise ValuesKeyAlreadyExists
  | None => modify (λ b, {| graph := graph b;
                            initialEstimate := <[k := v]> (initialEstimate b) |})
  end.

(** [two_view_BA], up to the result of the optimizer; what follows it
    prints and opens a shell.  [scale_prior] is not read. *)
Definition two_view_BA (K : Cal3_S2) (pts1 pts2 : list Point2)
    (X : list Point3) (p_21 : Pose) (scale_prior : bool) : M BA unit :=
  let K := {| fx := fx K; fy := fy K; skew := 0%Q; cx := cx K; cy := cy K |} in
  let infront := (λ x : Point3, Qle_bool 0 x.2) <$> X in
  match np_mask infront pts1, np_mask infront pts2, np_mask infront X with
  | Ok pts1, Ok pts2, Ok X =>
      let px_noise := [1%Q; 1%Q] in
      let measurement_noise := Diagonal_Sigmas px_noise in
      let prior_pose_noise :=
        Diagonal_Sigmas [1 # 10; 1 # 10; 1 # 10; 1 # 20; 1 # 20; 1 # 20]%Q in
      BA_add (PriorFactorPose3 (symbol "x" 0) identity prior_pose_noise);;
      let pdelta := p_21 in
      let odo_noise := Diagonal_Sigmas (repeat (1 # 10)%Q 6) in
      BA_add (BetweenFactorPose3 (symbol "x" 0) (symbol "x" 1)
                pdelta odo_noise);;
      let point_noise := Diagonal_Sigmas (repeat (1 # 20)%Q 3) in
      for_each (range (Z.max 5 (Z.of_nat (length X)))) (λ j,
        match X !! Z.to_nat j with
        | Some point =>
            BA_add (PriorFactorPoint3 (symbol "l" j) point point_noise)
        | None => raise IndexError
        end);;
      for_each (enumerate (zip pts1 pts2)) (λ '(lid, (pt1, pt2)),
        BA_add (GenericProjectionFactorPose3Point3Cal3_S2
                  pt1 measurement_noise (symbol "x" 0) (symbol "l" lid) K);;
        BA_add (GenericProjectionFactorPose3Point3Cal3_S2
                  pt2 measurement_noise (symbol "x" 1) (symbol "l" lid) K));;
      BA_insert (symbol "x" 0) (VPose3 identity);;
      BA_insert (symbol "x" 1) (VPose3 p_21);;
      for_each (enumerate X) (λ '(lid, pt),
        BA_insert (symbol "l" lid) (VPoint3 pt));;
      b ← get;
      match DoglegOptimizer_optimize (graph b) (initialEstimate b) with
      | Some result => mret tt
      | None => raise RuntimeError
      end
  | _, _, _ => raise IndexError
  end.

(** The factors that [two_view_BA] builds from the points in front. *)
Definition BA_point_priors (X : list Point3) : list Factor :=
  (λ m, PriorFactorPoint3 (symbol "l" m.1) m.2
          (Diagonal_Sigmas (repeat (1 # 20)%Q 3)))
  <$> enumerate X.

Definition BA_projections (K : Cal3_S2) (pts : list (Point2 * Point2))
  : list Factor :=
  mjoin ((λ m, [GenericProjectionFactorPose3Point3Cal3_S2 m.2.1
                  (Diagonal_Sigmas [1%Q; 1%Q]) (symbol "x" 0)
                  (symbol "l" m.1) K;
                GenericProjectionFactorPose3Point3Cal3_S2 m.2.2
                  (Diagonal_Sigmas [1%Q; 1%Q]) (symbol "x" 1)
                  (symbol "l" m.1) K])
         <$> enumerate pts).

End Engine.

(** * A one-dimensional world

    Concrete collaborators on which the statements below are run: poses
    are integers composed by addition, the solver returns the initial
    values as its estimate, and a smart factor triangulates to its first
    measurement with an error that grows with the horizontal spread of the
    others. *)

Definition line_geometry : Geometry :=
  {| Pose := Z;
     identity := 0;
     oplus := Z.add;
     transform_from p pt := ((pt.1.1 + inject_Z p)%Q, pt.1.2, pt.2) |}.

Definition line_cfg : Cfg :=
  {| ODOM_NOISE := [1%Q];
     PRIOR_POSE_NOISE := [1%Q];
     MEASUREMENT_NOISE := [1%Q];
     PRIOR_POINT3D_NOISE := [1%Q; 1%Q; 1%Q];
     PX_MEASUREMENT_NOISE := [2%Q; 2%Q];
     VSLAM_MIN_LANDMARK_OBS := 2 |}.

Definition line_solver : @GraphSolver line_geometry :=
  {| ISAM2 := gmap Symbol (@Value line_geometry);
     ISAM2_new := ∅;
     isam_update slam graph values := Some (values ∪ slam);
     isam_update_ slam := Some slam;
     calculateEstimate slam := slam;
     LevenbergMarquardtOptimizer_optimize graph values := Some values |}.

Definition line_spread (f : SmartFactor) : Q :=
  match f with
  | [] => 0
  | m0 :: f' => foldr (λ m acc, Qabs (m.1.1 - m0.1.1) + acc) 0 f'
  end%Q.

Definition line_triangulation : @Triangulation line_geometry :=
  {| isDegenerate f := Qle_bool (line_spread f) 0;
     isPointBehindCamera f := existsb (λ m, negb (Qle_bool 0 m.1.1)) f;
     smart_error f current := (1 + line_spread f)%Q;
     point_compute f current :=
       match f with
       | [] => (0, 0, 0)%Q
       | m0 :: _ => (m0.1.1, m0.1.2, 1%Q)
       end |}.

Definition line_calib : Cal3_S2 :=
  {| fx := 500; fy := 500; skew := 0; cx := 320; cy := 240 |}.

(** [VisualSLAM(calib, min_landmark_obs=2, px_error_threshold=4)] *)
Definition line_engine : @VisualSLAM line_geometry line_solver :=
  {| base := @BaseSLAM_init line_geometry line_solver [1%Q] [1%Q] [1%Q] true;
     batch_init_ := false;
     px_error_threshold_ := 4;
     min_landmark_obs_ := 2;
     K_ := line_calib;
     lid_count_ := ∅;
     lid_factors_ := ∅;
     image_measurement_noise_ := Diagonal_Sigmas [2%Q; 2%Q];
     prior_point3d_noise_ := Diagonal_Sigmas [1%Q; 1%Q; 1%Q] |}.

Section Line.
#[local] Existing Instances line_geometry line_cfg line_solver
  line_triangulation.

(** Pose 0 at the origin; the landmarks 7, 8 and 9 seen from it; one
    odometry step; 8 and 9 seen again from pose 1, the landmark 8 ten
    pixels away from where it was and the landmark 9 one pixel away. *)
Definition line_ops : list Op :=
  [Op_initialize 0 0 None;
   Op_add_point_landmarks_smart 0 [7; 8; 9] [(1, 0); (0, 0); (0, 0)]%Q;
   Op_add_incremental_pose_constraint 1 None;
   Op_add_point_landmarks_smart 1 [8; 9] [(10, 0); (1, 0)]%Q].

Definition line_pending : VisualSLAM := (calls line_ops line_engine).1.

(** The entries of the three landmarks at that point. *)
Definition line_entry7 : LidFactor :=
  {| in_graph := false; count := 1;
     factor := [((1, 0)%Q, symbol "x" 0)] |}.
Definition line_entry8 : LidFactor :=
  {| in_graph := false; count := 2;
     factor := [((0, 0)%Q, symbol "x" 0); ((10, 0)%Q, symbol "x" 1)] |}.
Definition line_entry9 : LidFactor :=
  {| in_graph := false; count := 2;
     factor := [((0, 0)%Q, symbol "x" 0); ((1, 0)%Q, symbol "x" 1)] |}.

(** After the settle pass. *)
Definition line_settled : VisualSLAM := (smart_update line_pending).1.

(** The landmark 8 seen twice more, one pixel apart, and a second settle
    pass. *)
Definition line_again : list Op :=
  [Op_add_point_landmarks_smart 1 [8] [(3, 0)]%Q;
   Op_add_incremental_pose_constraint 1 None;
   Op_add_point_landmarks_smart 2 [8] [(4, 0)]%Q].

Definition line_resighted : VisualSLAM := (calls line_again line_settled).1.

(** The landmark 9, pending after [line_ops], seen once more from pose 1,
    this time through [add_point_landmarks]. *)
Definition line_mixed : VisualSLAM :=
  (add_point_landmarks 1 [9] [(1, 0)]%Q [(0, 0, 1)]%Q None line_pending).1.

(** The same run without the landmark 9. *)
Definition line_hopeless : VisualSLAM :=
  (calls [Op_initialize 0 0 None;
          Op_add_point_landmarks_smart 0 [7; 8] [(1, 0); (0, 0)]%Q;
          Op_add_incremental_pose_constraint 1 None;
          Op_add_point_landmarks_smart 1 [8] [(10, 0)]%Q] line_engine).1.

(** An engine initialized and updated once. *)
Definition line_updated : BaseSLAM :=
  base (calls [Op_initialize 0 0 None; Op_update] line_engine).1.

(** Two relative constraints on an initialized engine. *)
Definition line_relative : list Op :=
  [Op_initialize 0 0 None;
   Op_add_incremental_pose_constraint 1 None;
   Op_add_relative_pose_constraint 0 1 1 None].

(** The engine with pose 0 only, before and after its first update. *)
Definition line_started : VisualSLAM :=
  (calls [Op_initialize 0 0 None] line_engine).1.
Definition line_posed : VisualSLAM :=
  (calls [Op_initialize 0 0 None; Op_update] line_engine).1.

(** Pose 0 and three sightings through [add_point_landmarks], two of
    them of the landmark 4. *)
Definition line_counted : list Op :=
  [Op_initialize 0 0 None;
   Op_add_point_landmarks 0 [4; 4; 5] [(1, 0); (2, 0); (3, 0)]%Q
     [(1, 1, 1); (2, 2, 2); (3, 3, 3)]%Q None].

(** Seven correspondences, the fourth behind the first camera, and the
    first four of them. *)
Definition line_pixels : list Point2 :=
  [(0, 0); (1, 0); (2, 0); (3, 0); (4, 0); (5, 0); (6, 0)]%Q.
Definition line_points : list Point3 :=
  [(0, 0, 1); (1, 0, 1); (2, 0, 1); (3, 0, -1); (4, 0, 1); (5, 0, 1);
   (6, 0, 1)]%Q.
Definition line_pixels_front : list Point2 :=
  [(0, 0); (1, 0); (2, 0); (4, 0); (5, 0); (6, 0)]%Q.
Definition line_points_front : list Point3 :=
  [(0, 0, 1); (1, 0, 1); (2, 0, 1); (4, 0, 1); (5, 0, 1); (6, 0, 1)]%Q.

End Line.

(** The solver's marginals: a unit covariance for every key it holds. *)
Definition line_marginals : @Marginals line_geometry line_solver :=
  {| Covariance := Q;
     marginalCovariance slam k :=
       match slam !! k with
       | Some _ => Ok 1%Q
       | None => Raise RuntimeError
       end |}.

(** An optimizer that returns the initial values. *)
Definition line_dogleg : @BatchOptimizer line_geometry :=
  {| DoglegOptimizer_optimize graph values := Some values |}.

(** * Properties *)

Section Properties.
Context {geometry : Geometry} {config : Cfg}.
Context {solver : GraphSolver} {triangulation : Triangulation}.

Ltac run :=
  unfold mbind, M_bind, bind, mret, M_ret, ret, raise, get, modify, assert;
  simpl.

(** ** Reasoning about what a method leaves unchanged *)

Section After.
Context {S : Type} (R : relation S) `{!PreOrder R}.

Lemma after_ret {A} (a : A) s : after R (mret a) s.
Proof. unfold after. simpl. reflexivity. Qed.

Lemma after_raise {A} e s : after R (raise e : M S A) s.
Proof. unfold after. simpl. reflexivity. Qed.

Lemma after_get s : after R get s.
Proof. unfold after. simpl. reflexivity. Qed.

Lemma after_modify f s : R s (f s) → after R (modify f) s.
Proof. done. Qed.

Lemma after_bind {A B} (m : M S A) (k : A → M S B) s :
  after R m s → (∀ a s', after R (k a) s') → after R (m ≫= k) s.
Proof.
  unfold after, mbind, M_bind, bind. intros Hm Hk.
  destruct (m s) as [s' [a|e]]; simpl in *; [|done].
  etransitivity; [exact Hm|apply Hk].
Qed.

Lemma after_get_bind {B} (k : S → M S B) s :
  after R (k s) s → after R (get ≫= k) s.
Proof. done. Qed.

Lemma after_assert b s : after R (assert b) s.
Proof. destruct b; [apply (after_ret tt)|apply after_raise]. Qed.

Lemma after_try {A} (m : M S A) e s :
  after R m s → after R (try_except_raise m e) s.
Proof.
  unfold after, try_except_raise. by destruct (m s) as [s' [a|e']].
Qed.

Lemma after_for_each {A} (l : list A) (body : A → M S unit) s :
  (∀ x, x ∈ l → ∀ s', after R (body x) s') → after R (for_each l body) s.
Proof.
  revert s. induction l as [|x l IH]; intros s Hb; simpl.
  - apply (after_ret tt).
  - apply after_bind; [apply Hb; left|intros _ s'; apply IH].
    intros y Hy. apply Hb. by right.
Qed.

Lemma after_for_acc {A B} (l : list A) (acc : B) (body : A → B → M S B) s :
  (∀ x acc s', after R (body x acc) s') → after R (for_acc l acc body) s.
Proof.
  intros Hb. revert acc s. induction l as [|x l IH]; intros acc s; simpl.
  - apply after_ret.
  - apply after_bind; [apply Hb|intros acc' s'; apply IH].
Qed.
End After.

#[local] Instance on_base_preorder R `{!PreOrder R} : PreOrder (on_base R).
Proof.
  split.
  - intros v. unfold on_base. reflexivity.
  - intros v1 v2 v3. unfold on_base. apply transitivity.
Qed.

Lemma after_lift {A} (R : relation BaseSLAM) (m : M BaseSLAM A) v :
  after R m (base v) → after (on_base R) (lift m) v.
Proof. unfold after, on_base, lift. by destruct (m (base v)). Qed.

Lemma after_base (R : relation BaseSLAM) `{!PreOrder R} (f : VisualSLAM → VisualSLAM) v :
  base (f v) = base v → after (on_base R) (modify f) v.
Proof. unfold after, on_base. simpl. intros ->. reflexivity. Qed.

Lemma after_lift_entry {A} lid (m : M BaseSLAM A) v :
  after (keeps_entry lid) (lift m) v.
Proof. unfold after, keeps_entry, lift. by destruct (m (base v)). Qed.

Lemma after_lift_thresholds {A} (m : M BaseSLAM A) v :
  after same_thresholds (lift m) v.
Proof. unfold after, same_thresholds, lift. by destruct (m (base v)). Qed.

Lemma after_lift_camera {A} (m : M BaseSLAM A) v :
  after same_camera (lift m) v.
Proof. unfold after, same_camera, lift. by destruct (m (base v)). Qed.

Lemma after_lift_batch_init {A} (m : M BaseSLAM A) v :
  after same_batch_init (lift m) v.
Proof. unfold after, same_batch_init, lift. by destruct (m (base v)). Qed.

Lemma after_lift_entries {A} (m : M BaseSLAM A) v :
  after same_entries (lift m) v.
Proof. unfold after, same_entries, lift. by destruct (m (base v)). Qed.

Ltac frame_step :=
  match goal with
  | |- ∀ _, _ => intros ?
  | |- PreOrder _ => apply _
  | |- after _ (mbind _ get) _ => apply after_get_bind; cbv beta
  | |- after _ (mbind _ _) _ => apply after_bind
  | |- after _ (mret _) _ => apply after_ret
  | |- after _ (ret _) _ => apply after_ret
  | |- after _ (raise _) _ => apply after_raise
  | |- after _ get _ => apply after_get
  | |- after _ (assert _) _ => apply after_assert
  | |- after _ (try_except_raise _ _) _ => apply after_try
  | |- after _ (for_each _ _) _ => apply after_for_each
  | |- after _ (for_acc _ _ _) _ => apply after_for_acc
  | |- after (on_base _) (lift _) _ => apply after_lift
  | |- after (keeps_entry _) (lift _) _ => apply after_lift_entry
  | |- after same_thresholds (lift _) _ => apply after_lift_thresholds
  | |- after same_camera (lift _) _ => apply after_lift_camera
  | |- after same_entries (lift _) _ => apply after_lift_entries
  | |- after same_batch_init (lift _) _ => apply after_lift_batch_init
  | |- after (on_base _) (modify _) _ => apply after_base; [|reflexivity]
  | |- after _ (modify _) _ => apply after_modify
  | |- after _ (match ?x with _ => _ end) _ => destruct x eqn:?
  end.

Ltac frame_unfold :=
  unfold call, initialize, add_pose_prior, add_incremental_pose_constraint,
    add_relative_pose_constraint, add_pose_landmarks,
    add_pose_landmarks_incremental, BaseSLAM_update, _batch_solve,
    _update_estimates, add_landmark_prior, add_point_landmarks,
    add_point_landmarks_incremental, add_point_landmarks_smart,
    add_point_landmarks_incremental_smart, smart_update, smart_update_body,
    VisualSLAM_update, initial_insert, graph_add, xs_getitem,
    lid_factors_getitem, lid_factors_delitem.

Ltac frame := repeat first [frame_step | progress frame_unfold].

Lemma list_setitem_length {A} i (v : A) l l' :
  list_setitem i v l = Ok l' → length l' = length l.
Proof.
  unfold list_setitem. repeat case_bool_decide; intros [=]; subst;
    by rewrite length_insert.
Qed.

#[local] Instance switch_grows_preorder : PreOrder switch_grows.
Proof.
  split; unfold switch_grows; [intros s; lia|intros s1 s2 s3; lia].
Qed.

#[local] Instance switch_same_preorder : PreOrder switch_same.
Proof.
  split; unfold switch_same.
  - intros s. done.
  - intros s1 s2 s3 (-> & -> & H12) (-> & -> & H23). eauto.
Qed.

#[local] Instance batch_grows_preorder : PreOrder batch_grows.
Proof.
  split; unfold batch_grows.
  - intros s. done.
  - intros s1 s2 s3 [Hi12 Hg12] [Hi23 Hg23].
    split; [by etransitivity|eauto].
Qed.

Lemma symbol_inj ch1 ch2 i j : symbol ch1 i = symbol ch2 j → ch1 = ch2 ∧ i = j.
Proof. unfold symbol. intros [= -> ->]. done. Qed.

(** The keys zipped with the identifiers they were made from. *)
Lemma zip_symbol_l {B} ch (lids : list Z) (l_id : Symbol) lid (y : B) ys :
  (l_id, lid, y) ∈ zip (zip (symbol ch <$> lids) lids) ys →
  Symbol_chr l_id = ch.
Proof.
  intros Hin%elem_of_zip_l%elem_of_zip_l.
  apply list_elem_of_fmap in Hin as (z & -> & _). done.
Qed.

(** Over every call the switch list keeps its elements' number or grows. *)
Lemma call_switch_grows op v : after (on_base switch_grows) (call op) v.
Proof.
  destruct op; frame.
  all: unfold switch_grows; simpl; rewrite ?length_app; try lia.
  match goal with
  | E : list_setitem _ _ _ = Ok _ |- _ => apply list_setitem_length in E
  end.
  lia.
Qed.

(** A call that does not go through [add_relative_pose_constraint]
    allocates no switch. *)
Lemma call_switch_same op v :
  is_relative op = false → after (on_base switch_same) (call op) v.
Proof.
  destruct op; intros [=]; frame.
  all: unfold switch_same; simpl; split_and!; try done.
  all: try (intros k; rewrite lookup_insert_is_Some;
            intros [[? _]%symbol_inj|[_ ?]]; done).
  all: try (intros k; rewrite lookup_empty; by intros [? ?]).
  all: try (intros k; rewrite lookup_insert_is_Some;
            intros [E|[_ ?]]; [|done];
            match goal with
            | Hin : _ ∈ zip _ _ |- _ => apply zip_symbol_l in Hin
            end; subst; done).
  match goal with
  | E : list_setitem _ _ _ = Ok _ |- _ => by apply list_setitem_length in E
  end.
Qed.

(** Every call but the update keeps what is pending. *)
Lemma call_batch_grows op v :
  is_update op = false → after (on_base batch_grows) (call op) v.
Proof.
  destruct op; intros [=]; frame.
  all: unfold batch_grows; simpl; split; try done.
  all: try (by apply insert_subseteq).
  all: intros f Hf; apply elem_of_app; by left.
Qed.

Lemma initial_insert_fresh k v s :
  initial_ s !! k = None →
  initial_insert k v s = (set_initial <[k := v]> s, Ok tt).
Proof. intros Hk. unfold initial_insert. run. by rewrite Hk. Qed.

Lemma initial_insert_dup k v s :
  is_Some (initial_ s !! k) →
  initial_insert k v s = (s, Raise ValuesKeyAlreadyExists).
Proof. intros [w Hk]. unfold initial_insert. run. by rewrite Hk. Qed.

Lemma xs_getitem_Some xid p s :
  xs_ s !! xid = Some p → xs_getitem xid s = (s, Ok p).
Proof. intros Hk. unfold xs_getitem. run. by rewrite Hk. Qed.

Lemma xs_getitem_None xid s :
  xs_ s !! xid = None → xs_getitem xid s = (s, Raise KeyError).
Proof. intros Hk. unfold xs_getitem. run. by rewrite Hk. Qed.

Lemma initialize_fresh p index noise s :
  initial_ s !! symbol "x" index = None →
  initialize p index noise s
  = (set_idx (λ _, index)
       (set_xs <[index := p]>
          (set_initial <[symbol "x" index := VPose3 p]>
             (set_graph
                (λ g, g ++ [PriorFactorPose3 (symbol "x" index) p
                              (noise_or noise (prior_pose_noise_ s))])
                s))),
     Ok tt).
Proof.
  intros Hfree. unfold initialize. run.
  by rewrite initial_insert_fresh by done.
Qed.

(** The robust branch when every key it stages is new. *)
Lemma add_relative_robust_fresh xid1 xid2 delta noise s p1 :
  robust_ s = true →
  initial_ s !! symbol "s" (Z.of_nat (length (switch_ s))) = None →
  xs_ s !! xid2 = None →
  xs_ s !! xid1 = Some p1 →
  initial_ s !! symbol "x" xid2 = None →
  let ks := symbol "s" (Z.of_nat (length (switch_ s))) in
  add_relative_pose_constraint xid1 xid2 delta noise s
  = (set_xxs (λ l, l ++ [(xid1, xid2)])
       (set_xs <[xid2 := oplus p1 delta]>
          (set_initial <[symbol "x" xid2 := VPose3 (oplus p1 delta)]>
             (set_graph
                (λ g, g ++ [BetweenFactorSwitchableSigmoidPose3
                              (symbol "x" xid1) (symbol "x" xid2) ks delta
                              (noise_or noise (odo_noise_ s))])
                (set_graph
                   (λ g, g ++ [PriorFactorSwitchVariableSigmoid ks 1%Q
                                 (Diagonal_Sigmas [2%Q])])
                   (set_initial <[ks := VSwitch 1%Q]>
                      (set_switch (λ l, l ++ [1%Q]) s)))))),
     Ok tt).
Proof.
  intros Hr Hs H2 H1 Hx ks.
  unfold add_relative_pose_constraint. run. rewrite Hr.
  rewrite initial_insert_fresh by done. simpl. rewrite H2.
  rewrite xs_getitem_Some with (p := p1) by done.
  rewrite initial_insert_fresh
    by (simpl; rewrite lookup_insert_ne; [done|by intros [? ?]%symbol_inj]).
  done.
Qed.

Lemma add_incremental_chain n s delta noise :
  chain n s →
  ∃ s' pn, add_incremental_pose_constraint delta noise s = (s', Ok tt)
        ∧ chain (n + 1) s'
        ∧ xs_ s !! n = Some pn
        ∧ xs_ s' = <[n + 1 := oplus pn delta]> (xs_ s).
Proof.
  intros [<- Hn Hxs Hx Hs].
  assert (Hfresh : xs_ s !! (idx_ s + 1) = None).
  { apply eq_None_not_Some. rewrite Hxs. lia. }
  assert (Hcur : is_Some (xs_ s !! idx_ s)) by (apply Hxs; lia).
  destruct Hcur as [pn Hpn].
  assert (Hxfree : initial_ s !! symbol "x" (idx_ s + 1) = None).
  { apply eq_None_not_Some. intros Hc. apply Hx in Hc.
    rewrite Hfresh in Hc. by destruct Hc. }
  assert (Hsfree : initial_ s !! symbol "s" (Z.of_nat (length (switch_ s)))
                   = None).
  { apply eq_None_not_Some. intros Hc. apply Hs in Hc. lia. }
  unfold add_incremental_pose_constraint, is_initialized, latest.
  run.
  destruct (Z.leb_spec 0 (idx_ s)) as [_|]; [simpl|lia].
  unfold add_relative_pose_constraint. run.
  destruct (robust_ s) eqn:Hr.
  - rewrite initial_insert_fresh by done. simpl. rewrite Hfresh.
    rewrite xs_getitem_Some with (p := pn) by done.
    rewrite initial_insert_fresh
      by (simpl; rewrite lookup_insert_ne; [done|by intros [? ?]%symbol_inj]).
    simpl. eexists. exists pn. split; [reflexivity|].
    split; [|by split]. split; simpl.
    + lia.
    + lia.
    + intros k. rewrite lookup_insert_is_Some, Hxs. lia.
    + intros k. rewrite !lookup_insert_is_Some. intros Hk.
      destruct (decide (idx_ s + 1 = k)); [by left|right]. split; [done|].
      destruct Hk as [[_ ?]%symbol_inj|[_ [[? _]%symbol_inj|[_ Hk]]]];
        [done|done|by apply Hx].
    + intros k. rewrite !lookup_insert_is_Some, length_app. simpl.
      intros [[? _]%symbol_inj|[_ [[_ <-]%symbol_inj|[_ Hk]]]];
        [done|lia|]. apply Hs in Hk. lia.
  - simpl. rewrite Hfresh.
    rewrite xs_getitem_Some with (p := pn) by done.
    rewrite initial_insert_fresh by done.
    simpl. eexists. exists pn. split; [reflexivity|].
    split; [|by split]. split; simpl.
    + lia.
    + lia.
    + intros k. rewrite lookup_insert_is_Some, Hxs. lia.
    + intros k. rewrite !lookup_insert_is_Some. intros Hk.
      destruct (decide (idx_ s + 1 = k)); [by left|right]. split; [done|].
      destruct Hk as [[_ ?]%symbol_inj|[_ Hk]]; [done|by apply Hx].
    + intros k. rewrite !lookup_insert_is_Some.
      intros [[? _]%symbol_inj|[_ Hk]]; [done|by apply Hs].
Qed.

Lemma odometry_chain deltas n s pn :
  chain n s →
  xs_ s !! n = Some pn →
  ∃ s', odometry deltas s = (s', Ok tt)
        ∧ chain (n + Z.of_nat (length deltas)) s'
        ∧ (∀ k, k ≤ n → xs_ s' !! k = xs_ s !! k)
        ∧ (∀ j, (j ≤ length deltas)%nat →
             xs_ s' !! (n + Z.of_nat j)
             = Some (foldl oplus pn (take j deltas.*1))).
Proof.
  revert n s pn.
  induction deltas as [|[delta noise] deltas IH]; intros n s pn Hc Hpn.
  - exists s. split; [done|]. rewrite Z.add_0_r. split; [done|].
    split; [done|]. intros j Hj. simpl in Hj.
    replace j with 0%nat by lia. by rewrite Z.add_0_r.
  - destruct (add_incremental_chain n s delta noise Hc)
      as (s1 & pn' & E1 & Hc1 & Hpn' & Hxs1).
    assert (pn' = pn) as -> by congruence.
    assert (Hnext : xs_ s1 !! (n + 1) = Some (oplus pn delta))
      by (rewrite Hxs1; apply lookup_insert_eq).
    destruct (IH _ _ _ Hc1 Hnext) as (s2 & E2 & Hc2 & Hold & Hnew).
    assert (Holder : ∀ k, k ≤ n → xs_ s2 !! k = xs_ s !! k).
    { intros k Hk. rewrite Hold by lia. rewrite Hxs1.
      apply lookup_insert_ne. lia. }
    exists s2. split; [|split; [|split]].
    + unfold odometry in *. simpl. run. by rewrite E1.
    + replace (n + Z.of_nat (length ((delta, noise) :: deltas)))
        with (n + 1 + Z.of_nat (length deltas)); [done|].
      simpl length. lia.
    + done.
    + intros [|j] Hj; simpl in *.
      * rewrite Z.add_0_r, Holder by lia. done.
      * replace (n + Z.of_nat (S j)) with (n + 1 + Z.of_nat j) by lia.
        apply Hnew. lia.
Qed.

Lemma initialize_new_chain on pn mn rb p noise :
  ∃ s, initialize p 0 noise (BaseSLAM_init on pn mn rb) = (s, Ok tt)
       ∧ chain 0 s ∧ xs_ s !! 0 = Some p.
Proof.
  unfold initialize. run. rewrite initial_insert_fresh by done. simpl.
  eexists. split; [reflexivity|]. split; [split; simpl|].
  - done.
  - done.
  - intros k. rewrite lookup_insert_is_Some, lookup_empty.
    split; [intros [<-|[_ [? [=]]]]; lia|intros ?; left; lia].
  - intros k. rewrite lookup_insert_is_Some, lookup_empty.
    intros [[_ <-]%symbol_inj|[_ [? [=]]]]. rewrite lookup_insert_eq. eauto.
  - intros k. rewrite lookup_insert_is_Some, lookup_empty.
    intros [[? _]%symbol_inj|[_ [? [=]]]]. done.
  - simpl. by rewrite lookup_insert_eq.
Qed.

(** ** Switch variables *)

Lemma bind_Ok_inv {S A B} (m : M S A) (k : A → M S B) s s' b :
  (m ≫= k) s = (s', Ok b) →
  ∃ a s1, m s = (s1, Ok a) ∧ k a s1 = (s', Ok b).
Proof.
  unfold mbind, M_bind, bind. destruct (m s) as [s1 [a|e]]; [eauto|done].
Qed.

Lemma returns {S A} (m : M S A) s a : (m s).2 = Ok a → m s = ((m s).1, Ok a).
Proof. destruct (m s) as [s' r]. simpl. by intros ->. Qed.

Lemma lift_inv {A} (m : M BaseSLAM A) v v' r :
  lift m v = (v', r) → m (base v) = (base v', r).
Proof. unfold lift. destruct (m (base v)) as [b r']. by intros [= <- <-]. Qed.

Lemma switch_inv_same n b s s' :
  switch_inv n b s → switch_same s s' → (b = true → batch_grows s s') →
  switch_inv n b s'.
Proof.
  intros [Hr Hl Hk Hs] (Hr' & Hl' & Hk') Hb. split.
  - congruence.
  - congruence.
  - intros k Hin. rewrite Hl'. auto.
  - intros -> k Hin. rewrite Hl' in Hin.
    destruct (Hs eq_refl k Hin) as [Hv Hf].
    destruct (Hb eq_refl) as [Hsub Hg]. split; [|by apply Hg].
    by eapply lookup_weaken.
Qed.

(** One call of [add_relative_pose_constraint] in robust mode, whether it
    returns or raises: one more switch, staged at 1 with its prior and its
    switchable factor, and nothing pending is lost. *)
Lemma add_relative_robust xid1 xid2 delta noise s :
  robust_ s = true → switch_keys_bounded s →
  let s' := (add_relative_pose_constraint xid1 xid2 delta noise s).1 in
  let k := Z.of_nat (length (switch_ s)) in
  robust_ s' = true
  ∧ switch_ s' = switch_ s ++ [1%Q]
  ∧ switch_keys_bounded s'
  ∧ batch_grows s s'
  ∧ initial_ s' !! symbol "s" k = Some (VSwitch 1%Q)
  ∧ PriorFactorSwitchVariableSigmoid (symbol "s" k) 1%Q
      (Diagonal_Sigmas [2%Q]) ∈ graph_ s'
  ∧ BetweenFactorSwitchableSigmoidPose3 (symbol "x" xid1) (symbol "x" xid2)
      (symbol "s" k) delta (noise_or noise (odo_noise_ s)) ∈ graph_ s'.
Proof.
  intros Hr Hk.
  assert (Hfree : initial_ s !! symbol "s" (Z.of_nat (length (switch_ s)))
                  = None).
  { apply eq_None_not_Some. intros Hc. apply Hk in Hc. lia. }
  unfold add_relative_pose_constraint. run. rewrite Hr.
  rewrite initial_insert_fresh by done. simpl.
  set (s1 := set_graph _ (set_graph _ (set_initial _ (set_switch _ s)))).
  assert (H1 : xs_ s1 = xs_ s
    ∧ robust_ s1 = true
    ∧ switch_ s1 = switch_ s ++ [1%Q]
    ∧ switch_keys_bounded s1
    ∧ batch_grows s s1
    ∧ initial_ s1 !! symbol "s" (Z.of_nat (length (switch_ s)))
      = Some (VSwitch 1%Q)
    ∧ PriorFactorSwitchVariableSigmoid
        (symbol "s" (Z.of_nat (length (switch_ s)))) 1%Q
        (Diagonal_Sigmas [2%Q]) ∈ graph_ s1
    ∧ BetweenFactorSwitchableSigmoidPose3 (symbol "x" xid1) (symbol "x" xid2)
        (symbol "s" (Z.of_nat (length (switch_ s)))) delta
        (noise_or noise (odo_noise_ s)) ∈ graph_ s1).
  { subst s1. simpl. split_and!.
    - done.
    - done.
    - done.
    - intros k. simpl. rewrite lookup_insert_is_Some, length_app. simpl.
      intros [[_ <-]%symbol_inj|[_ Hin%Hk]]; lia.
    - split; simpl; [by apply insert_subseteq|].
      intros f Hf. rewrite !elem_of_app. auto.
    - apply lookup_insert_eq.
    - rewrite !elem_of_app, !list_elem_of_singleton. auto.
    - rewrite !elem_of_app, !list_elem_of_singleton. auto. }
  clearbody s1.
  destruct H1 as (Hxs1 & Hr1 & Hl1 & Hk1 & Hb1 & Hv1 & Hp1 & Hf1).
  assert (Hx : ∀ (k : Symbol) v, Symbol_chr k = "x"%char →
             initial_ s1 !! k = None →
             switch_keys_bounded (set_initial <[k := v]> s1)
             ∧ batch_grows s (set_initial <[k := v]> s1)
             ∧ initial_ (set_initial <[k := v]> s1)
                 !! symbol "s" (Z.of_nat (length (switch_ s)))
               = Some (VSwitch 1%Q)).
  { intros [ch i] v Hch Hnone. simpl in Hch. subst ch. split_and!.
    - intros k. simpl. rewrite lookup_insert_is_Some.
      intros [[? _]%symbol_inj|[_ Hin%Hk1]]; done.
    - etransitivity; [exact Hb1|]. split; simpl; [by apply insert_subseteq|done].
    - simpl. rewrite lookup_insert_ne; [done|]. by intros [? ?]%symbol_inj. }
  simpl.
  destruct (xs_ s !! xid2) as [p2|] eqn:E2; simpl.
  { by split_and!. }
  destruct (xs_ s1 !! xid1) as [p1|] eqn:E1.
  2:{ rewrite xs_getitem_None by done. simpl. by split_and!. }
  rewrite xs_getitem_Some with (p := p1) by done.
  destruct (initial_ s1 !! symbol "x" xid2) as [w|] eqn:E3.
  { rewrite initial_insert_dup by (rewrite E3; eauto). simpl. by split_and!. }
  rewrite initial_insert_fresh by done. simpl.
  destruct (Hx (symbol "x" xid2) (VPose3 (oplus p1 delta)) eq_refl E3)
    as (Hk2 & Hb2 & Hv2).
  by split_and!.
Qed.

Lemma switch_inv_weaken n b b' s :
  switch_inv n b s → (b' = true → b = true) → switch_inv n b' s.
Proof. intros [Hr Hl Hk Hs] Hb. split; auto. Qed.

Lemma add_relative_switch_inv xid1 xid2 delta noise n b s :
  switch_inv n b s →
  switch_inv (n + 1) b (add_relative_pose_constraint xid1 xid2 delta noise s).1.
Proof.
  intros [Hr Hl Hk Hs].
  destruct (add_relative_robust xid1 xid2 delta noise s Hr Hk)
    as (Hr' & Hl' & Hk' & [Hsub Hg] & Hv' & Hp' & _).
  split.
  - done.
  - rewrite Hl', length_app. simpl. lia.
  - done.
  - intros -> k Hin. rewrite Hl', length_app in Hin. simpl in Hin.
    destruct (decide (k = Z.of_nat (length (switch_ s)))) as [->|Hne].
    + done.
    + destruct (Hs eq_refl k) as [Hv Hf]; [lia|].
      split; [by eapply lookup_weaken|by apply Hg].
Qed.

Lemma call_switch_inv op n b v v' :
  switch_inv n b (base v) →
  call op v = (v', Ok tt) →
  switch_inv (n + (if is_relative op then 1 else 0))
    (b && negb (is_update op)) (base v').
Proof.
  intros Hinv Hcall.
  destruct (is_relative op) eqn:Hrel.
  - destruct op; try discriminate Hrel; simpl in *; rewrite andb_true_r.
    + (* add_incremental_pose_constraint *)
      apply lift_inv in Hcall.
      unfold add_incremental_pose_constraint in Hcall.
      apply bind_Ok_inv in Hcall as (self & s0 & [= <- <-] & Hcall).
      apply bind_Ok_inv in Hcall as ([] & s1 & E1 & Hcall).
      apply bind_Ok_inv in Hcall as (self1 & s1' & [= <- <-] & Hcall).
      apply bind_Ok_inv in Hcall as ([] & s2 & E2 & [= <-]).
      assert (Hinv1 : switch_inv n b s1).
      { replace s1 with
          ((if negb (is_initialized (base v))
            then initialize identity 0 None else mret ()) (base v)).1
          by (by rewrite E1).
        apply switch_inv_same with (s := base v); [done| |intros _].
        - assert (after switch_same
                    (if negb (is_initialized (base v))
                     then initialize identity 0 None else mret ())
                    (base v)) as Ha; [|exact Ha].
          frame.
          all: unfold switch_same; simpl; split_and!; try done.
          intros k; rewrite lookup_insert_is_Some.
          by intros [[? _]%symbol_inj|[_ ?]].
        - assert (after batch_grows
                    (if negb (is_initialized (base v))
                     then initialize identity 0 None else mret ())
                    (base v)) as Ha; [|exact Ha].
          frame.
          all: unfold batch_grows; simpl; split; try done.
          all: try (by apply insert_subseteq).
          all: intros f Hf; apply elem_of_app; by left. }
      pose proof (add_relative_switch_inv (latest s1) (latest s1 + 1)
                    delta noise n b s1 Hinv1) as Hinv2.
      rewrite E2 in Hinv2. simpl in Hinv2.
      destruct Hinv2. by split.
    + (* add_relative_pose_constraint *)
      apply lift_inv in Hcall.
      pose proof (add_relative_switch_inv xid1 xid2 delta noise n b _ Hinv)
        as Hinv'.
      by rewrite Hcall in Hinv'.
  - rewrite Nat.add_0_r.
    pose proof (call_switch_same op v Hrel) as Hsame.
    unfold after, on_base in Hsame. rewrite Hcall in Hsame. simpl in Hsame.
    apply switch_inv_same with (s := base v).
    + eapply switch_inv_weaken; [done|]. by intros [? _]%andb_true_iff.
    + done.
    + intros [_ Hupd%negb_true_iff]%andb_true_iff.
      pose proof (call_batch_grows op v Hupd) as Hgrow.
      unfold after, on_base in Hgrow. by rewrite Hcall in Hgrow.
Qed.

Lemma calls_switch_inv ops n b v v' :
  switch_inv n b (base v) →
  calls ops v = (v', Ok tt) →
  switch_inv (n + relative_calls ops) (b && before_update ops) (base v').
Proof.
  revert n b v. induction ops as [|op ops IH]; intros n b v Hinv Hcalls.
  - injection Hcalls as <-. unfold relative_calls. simpl.
    by rewrite Nat.add_0_r, andb_true_r.
  - unfold calls in Hcalls. simpl in Hcalls.
    apply bind_Ok_inv in Hcalls as ([] & v1 & E1 & Hcalls).
    pose proof (call_switch_inv op n b v v1 Hinv E1) as Hinv1.
    pose proof (IH _ _ _ Hinv1 Hcalls) as Hinv'.
    unfold relative_calls, before_update in *. simpl.
    rewrite andb_assoc.
    destruct (is_relative op); simpl in *.
    + by replace (n + S (length (List.filter is_relative ops)))%nat
        with (n + 1 + length (List.filter is_relative ops))%nat by lia.
    + by rewrite Nat.add_0_r in Hinv'.
Qed.

Lemma switch_inv_init on pn mn rb :
  switch_inv 0 true (BaseSLAM_init on pn mn rb).
Proof.
  split; unfold switch_keys_bounded, switches_staged; simpl; try done.
  - intros k. rewrite lookup_empty. by intros [? ?].
  - intros _ k. lia.
Qed.

(** C2: an engine is always in robust mode; after a sequence of calls that
    all returned, the number of switch variables is the number of calls
    of [add_relative_pose_constraint] (direct, or through the incremental
    odometry), the switch keys ever staged are below that number, and
    until the first update each switch is staged at confidence 1 with its
    prior factor in the pending graph; a further call of
    [add_relative_pose_constraint] adds exactly one switch whether it
    returns or raises, and no call of any method shrinks the switch list. *)
Theorem switch_count on pn mn rb v0 ops v :
  base v0 = BaseSLAM_init on pn mn rb →
  calls ops v0 = (v, Ok tt) →
  let k := relative_calls ops in
  robust_ (base v) = true
  ∧ length (switch_ (base v)) = k
  ∧ (∀ i, is_Some (initial_ (base v) !! symbol "s" i) →
          0 ≤ i < Z.of_nat k)
  ∧ (before_update ops = true →
     ∀ i, 0 ≤ i < Z.of_nat k →
       initial_ (base v) !! symbol "s" i = Some (VSwitch 1%Q)
       ∧ PriorFactorSwitchVariableSigmoid (symbol "s" i) 1%Q
           (Diagonal_Sigmas [2%Q]) ∈ graph_ (base v))
  ∧ (∀ xid1 xid2 delta noise,
       switch_ (base (call (Op_add_relative_pose_constraint
                              xid1 xid2 delta noise) v).1)
       = switch_ (base v) ++ [1%Q])
  ∧ (∀ op u, (length (switch_ (base u))
              ≤ length (switch_ (base (call op u).1)))%nat).
Proof.
  intros Hnew Hcalls k.
  pose proof (switch_inv_init on pn mn rb) as Hinv0. rewrite <- Hnew in Hinv0.
  destruct (calls_switch_inv ops 0 true v0 v Hinv0 Hcalls)
    as [Hr Hl Hk Hs].
  simpl in *. fold k in Hl.
  split_and!.
  - done.
  - done.
  - intros i Hi. apply Hk in Hi. by rewrite Hl in Hi.
  - intros Hb i Hi. apply Hs; [done|]. by rewrite Hl.
  - intros xid1 xid2 delta noise.
    destruct (add_relative_robust xid1 xid2 delta noise (base v) Hr Hk)
      as (_ & Hl' & _).
    simpl. unfold lift.
    by destruct (add_relative_pose_constraint xid1 xid2 delta noise (base v)).
  - intros op u. apply call_switch_grows.
Qed.

(** C1: after [initialize] on a new engine, [n] calls of
    [add_incremental_pose_constraint] all return, the poses are exactly those
    of the indices [0..n], pose [k] is the origin composed with the first
    [k] increments, and [latest] is [n]; on an engine that was never
    initialized the first call initializes pose 0 at the identity itself,
    so the run equals the run after [initialize()] with its defaults. *)
Theorem pose_chain on pn mn rb deltas :
  let new := BaseSLAM_init on pn mn rb in
  (∀ p noise, ∃ s0 s,
     initialize p 0 noise new = (s0, Ok tt)
     ∧ odometry deltas s0 = (s, Ok tt)
     ∧ latest s = Z.of_nat (length deltas)
     ∧ (∀ k, is_Some (xs_ s !! k) ↔ 0 ≤ k ≤ Z.of_nat (length deltas))
     ∧ (∀ j, (j ≤ length deltas)%nat →
          xs_ s !! Z.of_nat j = Some (foldl oplus p (take j deltas.*1))))
  ∧ is_initialized new = false
  ∧ (∀ delta noise, ∃ s0,
       initialize identity 0 None new = (s0, Ok tt)
       ∧ xs_ s0 !! 0 = Some identity
       ∧ add_incremental_pose_constraint delta noise new
         = add_incremental_pose_constraint delta noise s0
       ∧ ∀ more, odometry ((delta, noise) :: more) new
                 = odometry ((delta, noise) :: more) s0).
Proof.
  intros new. split; [|split].
  - intros p noise.
    destruct (initialize_new_chain on pn mn rb p noise) as (s0 & E0 & Hc0 & H0).
    destruct (odometry_chain deltas 0 s0 p Hc0 H0) as (s & E & Hc & _ & Hv).
    exists s0, s. split; [done|]. split; [done|].
    destruct Hc as [Hi _ Hxs _ _]. rewrite Z.add_0_l in *.
    split; [done|]. split; [done|].
    intros j Hj. specialize (Hv j Hj). by rewrite Z.add_0_l in Hv.
  - done.
  - intros delta noise.
    destruct (initialize_new_chain on pn mn rb identity None)
      as (s0 & E0 & Hc0 & H0).
    exists s0. split; [done|]. split; [done|].
    subst new.
    assert (add_incremental_pose_constraint delta noise
              (BaseSLAM_init on pn mn rb)
            = add_incremental_pose_constraint delta noise s0) as Hfirst;
      [|split; [done|]; intros more; unfold odometry; simpl;
        unfold mbind, M_bind, bind; by rewrite Hfirst].
    transitivity
      ((initialize identity 0 None;;
        self ← get;
        add_relative_pose_constraint (latest self) (latest self + 1)
          delta noise;;
        modify (set_idx (λ i, i + 1))) (BaseSLAM_init on pn mn rb));
      [reflexivity|].
    unfold mbind at 1, M_bind at 1, bind at 1. rewrite E0.
    destruct Hc0 as [Hi _ _ _ _].
    unfold add_incremental_pose_constraint. run.
    unfold is_initialized, latest. rewrite Hi. simpl. by rewrite Hi.
Qed.

(** With [robust_] off the constraint is the plain between factor and no
    switch is touched: the branch that the constructor never selects. *)
Lemma add_relative_plain xid1 xid2 delta noise s :
  robust_ s = false →
  let s' := (add_relative_pose_constraint xid1 xid2 delta noise s).1 in
  switch_ s' = switch_ s
  ∧ graph_ s' = graph_ s ++ [BetweenFactorPose3 (symbol "x" xid1)
                               (symbol "x" xid2) delta
                               (noise_or noise (odo_noise_ s))]
  ∧ ∀ k, is_Some (initial_ s' !! symbol "s" k) →
         is_Some (initial_ s !! symbol "s" k).
Proof.
  intros Hr. unfold add_relative_pose_constraint. run. rewrite Hr. simpl.
  destruct (xs_ s !! xid2) as [p2|] eqn:E2; simpl; [done|].
  unfold xs_getitem. run.
  destruct (xs_ s !! xid1) as [p1|] eqn:E1; simpl; [|done].
  unfold initial_insert. run.
  destruct (initial_ s !! symbol "x" xid2) as [w|] eqn:E3; simpl; [done|].
  split_and!; [done|done|].
  intros k. rewrite lookup_insert_is_Some.
  by intros [[? _]%symbol_inj|[_ ?]].
Qed.

(** C3: [BaseSLAM(robust=False)] is in robust mode all the same: the
    constructor sets [robust_] to [True] whatever its argument, and the
    first relative-pose constraint then allocates the switch 0, stages it
    at 1, and adds its prior and the switchable factor instead of the
    plain between factor. *)
Theorem robust_argument_not_read on pn mn p delta noise :
  let new := BaseSLAM_init on pn mn false in
  robust_ new = true
  ∧ ∃ s0 s,
      initialize p 0 None new = (s0, Ok tt)
      ∧ add_relative_pose_constraint 0 1 delta noise s0 = (s, Ok tt)
      ∧ switch_ s = [1%Q]
      ∧ initial_ s !! symbol "s" 0 = Some (VSwitch 1%Q)
      ∧ graph_ s =
          [PriorFactorPose3 (symbol "x" 0) p (Diagonal_Sigmas pn);
           PriorFactorSwitchVariableSigmoid (symbol "s" 0) 1%Q
             (Diagonal_Sigmas [2%Q]);
           BetweenFactorSwitchableSigmoidPose3 (symbol "x" 0) (symbol "x" 1)
             (symbol "s" 0) delta (noise_or noise (Diagonal_Sigmas on))].
Proof.
  intros new. split; [done|].
  pose proof (initialize_fresh p 0 None new (lookup_empty _)) as E0.
  set (s0 := set_idx _ _) in E0.
  assert (Hr : robust_ s0 = true) by done.
  assert (Hs : initial_ s0 !! symbol "s" (Z.of_nat (length (switch_ s0)))
               = None).
  { subst s0. simpl. rewrite lookup_insert_ne by (by intros [? ?]%symbol_inj).
    apply lookup_empty. }
  assert (H2 : xs_ s0 !! 1 = None).
  { subst s0. simpl. rewrite lookup_insert_ne by done. apply lookup_empty. }
  assert (H1 : xs_ s0 !! 0 = Some p).
  { subst s0. simpl. apply lookup_insert_eq. }
  assert (Hx : initial_ s0 !! symbol "x" 1 = None).
  { subst s0. simpl. rewrite lookup_insert_ne by (by intros [? ?]%symbol_inj).
    apply lookup_empty. }
  pose proof (add_relative_robust_fresh 0 1 delta noise s0 p Hr Hs H2 H1 Hx)
    as E1.
  exists s0. eexists. split; [exact E0|]. split; [exact E1|].
  split_and!.
  - done.
  - simpl. rewrite lookup_insert_ne by (by intros [? ?]%symbol_inj).
    apply lookup_insert_eq.
  - done.
Qed.

(** ** The settle pass *)

Lemma set_base_id v : set_base (λ _, base v) v = v.
Proof. by destruct v. Qed.

Lemma lift_eq {A} (m : M BaseSLAM A) v b r :
  m (base v) = (b, r) → lift m v = (set_base (λ _, b) v, r).
Proof. unfold lift. by intros ->. Qed.

Lemma lid_factors_getitem_Some lid r v :
  lid_factors_ v !! lid = Some r → lid_factors_getitem lid v = (v, Ok r).
Proof. intros Hr. unfold lid_factors_getitem. run. by rewrite Hr. Qed.

Lemma lid_factors_delitem_Some lid r v :
  lid_factors_ v !! lid = Some r →
  lid_factors_delitem lid v = (set_lid_factors (delete lid) v, Ok tt).
Proof. intros Hr. unfold lid_factors_delitem. run. by rewrite Hr. Qed.

Lemma for_each_ext {S A} (l : list A) (f g : A → M S unit) s :
  (∀ x s', f x s' = g x s') → for_each l f s = for_each l g s.
Proof.
  intros Hfg. revert s. induction l as [|x l IH]; intros s; [done|].
  simpl. unfold mbind, M_bind, bind. rewrite Hfg.
  destruct (g x s) as [s' [[]|e]]; [apply IH|done].
Qed.

(** Adding the factors one by one appends them all. *)
Lemma for_each_graph_add {A} (f : A → Factor) (l : list A) v :
  for_each l (λ x, lift (graph_add (f x))) v
  = (set_base (set_graph (λ g, g ++ (f <$> l))) v, Ok tt).
Proof.
  revert v. induction l as [|x l IH]; intros v; simpl.
  - destruct v as [[] ?]. unfold set_base, set_graph. simpl.
    by rewrite app_nil_r.
  - unfold mbind, M_bind, bind. unfold lift at 1. unfold graph_add at 1.
    unfold modify at 1. simpl. rewrite IH.
    destruct v as [[] ?]. unfold set_base, set_graph. simpl.
    by rewrite <- app_assoc.
Qed.

Lemma zip_keys_measured (f : SmartFactor) :
  zip (keys f) (measured f) = (λ m, (m.2, m.1)) <$> f.
Proof.
  unfold keys, measured. induction f as [|[pt k] f IH]; [done|].
  cbn. f_equal. exact IH.
Qed.

Lemma length_keys_measured (f : SmartFactor) :
  length (measured f) = length (keys f).
Proof. unfold keys, measured. by rewrite !length_fmap. Qed.

Lemma body_skipped current lid acc v r :
  lid_factors_ v !! lid = Some r →
  verdict v current r = Skipped →
  smart_update_body current lid acc v = (v, Ok acc).
Proof.
  intros Hr Hv. unfold smart_update_body.
  unfold mbind, M_bind, bind. rewrite (lid_factors_getitem_Some lid r) by done.
  unfold get at 1. cbv beta iota.
  unfold verdict in Hv.
  destruct (in_graph r || bool_decide (count r < min_landmark_obs_ v));
    [done|].
  destruct (isDegenerate (factor r) || isPointBehindCamera (factor r));
    [done|].
  simpl in Hv.
  by destruct (negb (Qle_bool _ _) || Qle_bool _ 0).
Qed.

Lemma body_rejected current lid acc v r :
  lid_factors_ v !! lid = Some r →
  verdict v current r = Rejected →
  smart_update_body current lid acc v
  = (set_lid_factors (delete lid) v, Ok acc).
Proof.
  intros Hr Hv. unfold smart_update_body.
  unfold mbind, M_bind, bind. rewrite (lid_factors_getitem_Some lid r) by done.
  unfold get at 1. cbv beta iota.
  unfold verdict in Hv.
  destruct (in_graph r || bool_decide (count r < min_landmark_obs_ v));
    [done|].
  destruct (isDegenerate (factor r) || isPointBehindCamera (factor r)).
  { by rewrite (lid_factors_delitem_Some lid r). }
  simpl in Hv.
  destruct (negb (Qle_bool _ _) || Qle_bool _ 0); [|done].
  by rewrite (lid_factors_delitem_Some lid r).
Qed.

Lemma for_each_fmap {S A B} (g : A → B) (l : list A) (body : B → M S unit) s :
  for_each (g <$> l) body s = for_each l (λ x, body (g x)) s.
Proof.
  revert s. induction l as [|x l IH]; intros s; [done|].
  cbn. unfold mbind, M_bind, bind.
  destruct (body (g x) s) as [s' [[]|e]]; [apply IH|done].
Qed.

Lemma verdict_Accepted self current r :
  verdict self current r = Accepted →
  in_graph r || bool_decide (count r < min_landmark_obs_ self) = false
  ∧ isDegenerate (factor r) || isPointBehindCamera (factor r) = false
  ∧ negb (Qle_bool (smart_error (factor r) current)
            (px_error_threshold_ self))
    || Qle_bool (smart_error (factor r) current) 0 = false.
Proof.
  unfold verdict.
  destruct (in_graph r || bool_decide (count r < min_landmark_obs_ self));
    [done|].
  destruct (isDegenerate (factor r) || isPointBehindCamera (factor r));
    [done|].
  simpl. by destruct (negb (Qle_bool _ _) || Qle_bool _ 0).
Qed.

Lemma body_accepted current lid acc v r :
  lid_factors_ v !! lid = Some r →
  verdict v current r = Accepted →
  ls_ (base v) !! lid = None →
  initial_ (base v) !! symbol "l" lid = None →
  smart_update_body current lid acc v
  = (promoted current lid r v,
     Ok (acc.1 ++ [lid], acc.2 ++ [point_compute (factor r) current])).
Proof.
  intros Hr (H1 & H2 & H3)%verdict_Accepted Hls Hinit.
  unfold smart_update_body.
  unfold mbind, M_bind, bind. rewrite (lid_factors_getitem_Some lid r) by done.
  unfold get at 1. cbv beta iota. rewrite H1, H2. cbv zeta. rewrite H3.
  rewrite Hls. simpl assert. unfold ret at 1.
  unfold lift at 1. rewrite initial_insert_fresh by done.
  unfold modify at 1. cbv beta iota.
  rewrite length_keys_measured, bool_decide_eq_true_2 by done.
  simpl assert. unfold ret at 1. cbv beta iota.
  rewrite zip_keys_measured, for_each_fmap.
  erewrite for_each_ext; cycle 1.
  { intros m s'. simpl.
    change (lift (graph_add (GenericProjectionFactorPose3Point3Cal3_S2 m.1
              (image_measurement_noise_ v) m.2 (symbol "l" lid) (K_ v))) s')
      with ((λ m, lift (graph_add
              ((λ m, GenericProjectionFactorPose3Point3Cal3_S2 m.1
                 (image_measurement_noise_ v) m.2 (symbol "l" lid) (K_ v)) m)))
              m s').
    reflexivity. }
  rewrite for_each_graph_add.
  erewrite lid_factors_delitem_Some by (simpl; exact Hr).
  unfold mret, M_ret, ret. f_equal.
Qed.

#[local] Instance keeps_entry_preorder lid : PreOrder (keeps_entry lid).
Proof.
  split; unfold keeps_entry.
  - intros v. done.
  - intros v1 v2 v3 (? & ? & ?) (? & ? & ?). split_and!; congruence.
Qed.

#[local] Instance keeps_landmark_preorder lid : PreOrder (keeps_landmark lid).
Proof.
  split; unfold keeps_landmark.
  - intros v. done.
  - intros v1 v2 v3 (? & ?) (? & ?). split_and!; congruence.
Qed.

(** A round for another identifier leaves the entry and the landmark of
    [lid] alone. *)
Lemma body_keeps_entry current k acc lid v :
  k ≠ lid → after (keeps_entry lid) (smart_update_body current k acc) v.
Proof.
  intros Hk. frame.
  all: unfold keeps_entry; simpl; split_and!; try done.
  all: by rewrite ?lookup_insert_ne, ?lookup_delete_ne by done.
Qed.

Lemma body_keeps_landmark current k acc lid v :
  k ≠ lid →
  after (on_base (keeps_landmark lid)) (smart_update_body current k acc) v.
Proof.
  intros Hk. frame.
  all: unfold keeps_landmark; simpl; split_and!; try done.
  all: rewrite ?lookup_insert_ne; try done.
  all: by intros [_ ?]%symbol_inj.
Qed.

Lemma verdict_ext v v' current r :
  min_landmark_obs_ v' = min_landmark_obs_ v →
  px_error_threshold_ v' = px_error_threshold_ v →
  verdict v' current r = verdict v current r.
Proof. unfold verdict. by intros -> ->. Qed.

Lemma Qle_bool_false x y : Qle_bool x y = false ↔ (y < x)%Q.
Proof.
  rewrite <- not_true_iff_false, Qle_bool_iff.
  split; [apply Qnot_le_lt|apply Qlt_not_le].
Qed.

Lemma verdict_Skipped_iff v current r :
  verdict v current r = Skipped ↔ ¬ examined v r.
Proof.
  unfold verdict, examined.
  destruct (in_graph r); simpl.
  { split; [intros _ [? _]; done|done]. }
  case_bool_decide; simpl.
  { split; [intros _ [_ ?]; lia|done]. }
  split.
  - by repeat destruct (_ || _).
  - intros []. split; [done|lia].
Qed.

Lemma verdict_Rejected_iff v current r :
  verdict v current r = Rejected ↔ examined v r ∧ fails_checks v current r.
Proof.
  unfold verdict, examined, fails_checks.
  destruct (in_graph r); simpl.
  { split; [done|by intros [[? _] _]]. }
  case_bool_decide; simpl.
  { split; [done|intros [[_ ?] _]; lia]. }
  destruct (isDegenerate (factor r)); simpl.
  { split; [intros _; split; [split; [done|lia]|by left]|done]. }
  destruct (isPointBehindCamera (factor r)); simpl.
  { split; [intros _; split; [split; [done|lia]|by right; left]|done]. }
  destruct (Qle_bool (smart_error (factor r) current) (px_error_threshold_ v))
    eqn:E1; simpl.
  2:{ apply Qle_bool_false in E1.
      split; [intros _; split; [split; [done|lia]|by right; right; left]|done]. }
  apply Qle_bool_iff in E1.
  destruct (Qle_bool (smart_error (factor r) current) 0) eqn:E2.
  { apply Qle_bool_iff in E2.
    split; [intros _; split; [split; [done|lia]|by right; right; right]|done]. }
  apply Qle_bool_false in E2.
  split; [done|]. intros [_ [?|[?|[Hlt|Hle]]]]; try done.
  - by apply Qlt_not_le in Hlt.
  - by apply Qlt_not_le in E2.
Qed.

Lemma verdict_Accepted_iff v current r :
  verdict v current r = Accepted ↔ examined v r ∧ passes_checks v current r.
Proof.
  unfold verdict, examined, passes_checks.
  destruct (in_graph r); simpl.
  { split; [done|by intros [[? _] _]]. }
  case_bool_decide; simpl.
  { split; [done|intros [[_ ?] _]; lia]. }
  destruct (isDegenerate (factor r)); simpl.
  { split; [done|by intros [_ [? _]]]. }
  destruct (isPointBehindCamera (factor r)); simpl.
  { split; [done|by intros [_ (_ & ? & _)]]. }
  destruct (Qle_bool (smart_error (factor r) current) (px_error_threshold_ v))
    eqn:E1; simpl.
  2:{ apply Qle_bool_false in E1.
      split; [done|]. intros [_ (_ & _ & _ & Hle)].
      by apply Qlt_not_le in E1. }
  apply Qle_bool_iff in E1.
  destruct (Qle_bool (smart_error (factor r) current) 0) eqn:E2.
  { apply Qle_bool_iff in E2.
    split; [done|]. intros [_ (_ & _ & Hlt & _)].
    by apply Qlt_not_le in Hlt. }
  apply Qle_bool_false in E2.
  split; [|done]. intros _. split; [split; [done|lia]|done].
Qed.

Lemma body_accepted_raises current lid acc v r :
  lid_factors_ v !! lid = Some r →
  verdict v current r = Accepted →
  is_Some (ls_ (base v) !! lid)
  ∨ is_Some (initial_ (base v) !! symbol "l" lid) →
  ∃ e, smart_update_body current lid acc v = (v, Raise e).
Proof.
  intros Hr (H1 & H2 & H3)%verdict_Accepted Hsome.
  unfold smart_update_body.
  unfold mbind, M_bind, bind. rewrite (lid_factors_getitem_Some lid r) by done.
  unfold get at 1. cbv beta iota. rewrite H1, H2. cbv zeta. rewrite H3.
  destruct (ls_ (base v) !! lid) as [l|] eqn:Hls.
  { exists AssertionError. done. }
  destruct Hsome as [[? [=]]|Hinit].
  simpl assert. unfold ret at 1. cbv beta iota.
  unfold lift at 1. rewrite initial_insert_dup by done.
  exists ValuesKeyAlreadyExists. by rewrite set_base_id.
Qed.

(** What a round does to an entry that is there. *)
Lemma body_round current lid acc v r :
  lid_factors_ v !! lid = Some r →
  (verdict v current r = Skipped
   ∧ smart_update_body current lid acc v = (v, Ok acc))
  ∨ (verdict v current r = Rejected
     ∧ smart_update_body current lid acc v
       = (set_lid_factors (delete lid) v, Ok acc))
  ∨ (verdict v current r = Accepted
     ∧ ls_ (base v) !! lid = None
     ∧ initial_ (base v) !! symbol "l" lid = None
     ∧ smart_update_body current lid acc v
       = (promoted current lid r v,
          Ok (acc.1 ++ [lid], acc.2 ++ [point_compute (factor r) current])))
  ∨ (verdict v current r = Accepted
     ∧ ∃ e, smart_update_body current lid acc v = (v, Raise e)).
Proof.
  intros Hr. destruct (verdict v current r) eqn:Hv.
  - left. split; [done|]. by eapply body_skipped.
  - right; left. split; [done|]. by eapply body_rejected.
  - destruct (ls_ (base v) !! lid) as [l|] eqn:Hls.
    { right; right; right. split; [done|].
      eapply body_accepted_raises; [done..|]. left. rewrite Hls. eauto. }
    destruct (initial_ (base v) !! symbol "l" lid) as [w|] eqn:Hinit.
    { right; right; right. split; [done|].
      eapply body_accepted_raises; [done..|]. right. rewrite Hinit. eauto. }
    right; right; left. split_and!; try done. by eapply body_accepted.
Qed.

Lemma rounds_cons current k l acc v :
  rounds current (k :: l) acc v
  = match smart_update_body current k acc v with
    | (v1, Ok acc1) => rounds current l acc1 v1
    | (v1, Raise e) => (v1, Raise e)
    end.
Proof. done. Qed.

(** The priors of the first landmarks touch the graph only, and return. *)
Lemma for_each_priors (l : list (Z * Point3)) v :
  for_each l (λ '(lid, pt3), add_landmark_prior lid pt3 None) v
  = (set_base
       (set_graph
          (λ g, g ++ ((λ m, PriorFactorPoint3 (symbol "l" m.1) m.2
                              (prior_point3d_noise_ v)) <$> l)))
       v,
     Ok tt).
Proof.
  revert v. induction l as [|[lid pt3] l IH]; intros v; simpl.
  - destruct v as [[] ?]. unfold set_base, set_graph. simpl.
    by rewrite app_nil_r.
  - unfold mbind, M_bind, bind. unfold add_landmark_prior at 1.
    unfold mbind, M_bind, bind, get at 1. unfold lift at 1, graph_add at 1.
    unfold modify at 1. cbv beta iota. rewrite IH.
    destruct v as [[] ?]. unfold set_base, set_graph. simpl.
    by rewrite <- app_assoc.
Qed.

(** [smart_update] as the rounds followed by the priors and the return. *)
Lemma smart_update_rounds v :
  smart_update v
  = match rounds (calculateEstimate (slam_ (base v)))
            (map_to_list (lid_factors_ v)).*1 ([], []) v with
    | (v1, Raise e) => (v1, Raise e)
    | (v1, Ok (lids, pts3)) =>
        (if bool_decide (index (base v1) ≤ 2)
         then set_base
                (set_graph
                   (λ g, g ++ ((λ m, PriorFactorPoint3 (symbol "l" m.1) m.2
                                       (prior_point3d_noise_ v1))
                               <$> zip lids pts3)))
                v1
         else v1,
         Ok match pts3 with
            | [] => ([], [])
            | _ => if bool_decide (length lids = length pts3)
                   then (lids, pts3) else ([], [])
            end)
    end.
Proof.
  unfold smart_update, rounds.
  unfold mbind at 1, M_bind at 1, bind at 1, get at 1. cbv beta iota.
  unfold mbind at 1, M_bind at 1, bind at 1.
  destruct (for_acc _ _ _ v) as [v1 [[lids pts3]|e]]; [|done].
  unfold mbind at 1, M_bind at 1, bind at 1, get at 1. cbv beta iota.
  unfold mbind at 1, M_bind at 1, bind at 1.
  case_bool_decide.
  - rewrite for_each_priors.
    destruct pts3; [done|]. unfold np_vstack. by case_bool_decide.
  - unfold mret at 1, M_ret at 1, ret at 1.
    destruct pts3; [done|]. unfold np_vstack. by case_bool_decide.
Qed.

(** Induction over the rounds: [I] holds before each round with the keys
    still to visit, [Q] where a round raises. *)
Lemma rounds_ind current
    (I : list Z → list Z * list Point3 → VisualSLAM → Prop)
    (Q : VisualSLAM → Prop) :
  (∀ k l acc v, I (k :: l) acc v →
     match smart_update_body current k acc v with
     | (v1, Ok acc1) => I l acc1 v1
     | (v1, Raise _) => Q v1
     end) →
  ∀ l acc v, I l acc v →
    match rounds current l acc v with
    | (v', Ok acc') => I [] acc' v'
    | (v', Raise _) => Q v'
    end.
Proof.
  intros Hstep l. induction l as [|k l IH]; intros acc v HI; [done|].
  rewrite rounds_cons. specialize (Hstep k l acc v HI).
  destruct (smart_update_body current k acc v) as [v1 [acc1|e]]; [|done].
  by apply IH.
Qed.

Lemma body_default current k acc v :
  lid_factors_ v !! k = None →
  smart_update_body current k acc v
  = smart_update_body current k acc
      (set_lid_factors <[k := new_lid_factor]> v).
Proof.
  intros Hk. unfold smart_update_body.
  unfold mbind, M_bind, bind.
  rewrite (lid_factors_getitem_Some k new_lid_factor
             (set_lid_factors <[k := new_lid_factor]> v))
    by (simpl; apply lookup_insert_eq).
  assert (lid_factors_getitem k v
          = (set_lid_factors <[k := new_lid_factor]> v, Ok new_lid_factor))
    as ->; [|done].
  unfold lid_factors_getitem. run. by rewrite Hk.
Qed.

(** A round appends at most its own key and one point to the local
    lists. *)
Lemma body_acc_full current k acc v v' acc' :
  smart_update_body current k acc v = (v', Ok acc') →
  acc' = acc ∨ ∃ pt, acc' = (acc.1 ++ [k], acc.2 ++ [pt]).
Proof.
  assert (Hsome : ∀ u r, lid_factors_ u !! k = Some r →
            smart_update_body current k acc u = (v', Ok acc') →
            acc' = acc ∨ ∃ pt, acc' = (acc.1 ++ [k], acc.2 ++ [pt])).
  { intros u r Hr Hb.
    destruct (body_round current k acc u r Hr)
      as [[_ E]|[[_ E]|[(_ & _ & _ & E)|[_ [e E]]]]];
      rewrite E in Hb; simplify_eq; eauto. }
  destruct (lid_factors_ v !! k) as [r|] eqn:Hk; [by eapply Hsome|].
  rewrite body_default by done.
  apply (Hsome _ new_lid_factor). simpl. apply lookup_insert_eq.
Qed.

Lemma body_acc current k acc v v' acc' :
  smart_update_body current k acc v = (v', Ok acc') →
  acc'.1 = acc.1 ∨ acc'.1 = acc.1 ++ [k].
Proof. intros [->|[pt ->]]%body_acc_full; auto. Qed.

(** The two local lists have the same length. *)
Lemma rounds_length current l acc v v' acc' :
  length acc.1 = length acc.2 →
  rounds current l acc v = (v', Ok acc') →
  length acc'.1 = length acc'.2.
Proof.
  intros Hlen Hrounds.
  pose proof (rounds_ind current
    (λ _ acc _, length acc.1 = length acc.2) (λ _, True)) as Hind.
  specialize (Hind) with (l := l) (acc := acc) (v := v).
  rewrite Hrounds in Hind. apply Hind; [|done].
  clear. intros k l acc v Hlen.
  pose proof (body_acc_full current k acc v) as Ha.
  destruct (smart_update_body current k acc v) as [v1 [acc1|e]]; [|done].
  destruct (Ha _ _ eq_refl) as [->|[pt ->]]; [done|].
  simpl. rewrite !length_app. simpl. lia.
Qed.

(** What [smart_update] returns is the local lists of the rounds. *)
Lemma smart_update_result v v' lids pts3 :
  smart_update v = (v', Ok (lids, pts3)) →
  ∃ v1,
    rounds (calculateEstimate (slam_ (base v)))
      (map_to_list (lid_factors_ v)).*1 ([], []) v = (v1, Ok (lids, pts3))
    ∧ lid_factors_ v' = lid_factors_ v1
    ∧ ls_ (base v') = ls_ (base v1)
    ∧ initial_ (base v') = initial_ (base v1)
    ∧ ∀ f, f ∈ graph_ (base v1) → f ∈ graph_ (base v').
Proof.
  rewrite smart_update_rounds.
  destruct (rounds _ _ _ v) as [v1 [[lids1 pts1]|e]] eqn:Hrounds; [|done].
  intros [= <- Hret]. exists v1.
  pose proof (rounds_length _ _ ([], []) _ _ _ eq_refl Hrounds) as Hlen.
  simpl in Hlen.
  assert (Heq : (lids1, pts1) = (lids, pts3)).
  { destruct pts1; [by destruct lids1|].
    by rewrite bool_decide_eq_true_2 in Hret. }
  clear Hret. injection Heq as <- <-.
  split; [done|].
  destruct (bool_decide (index (base v1) ≤ 2)); simpl; split_and!; try done.
  intros f Hf. apply elem_of_app. by left.
Qed.

(** No entry passes: the rounds return with empty local lists. *)
Lemma rounds_none_accepted current l v :
  NoDup l →
  (∀ k, k ∈ l → ∃ r, lid_factors_ v !! k = Some r
                     ∧ verdict v current r ≠ Accepted) →
  ∃ v', rounds current l ([], []) v = (v', Ok ([], [])).
Proof.
  intros Hnd Hall.
  set (I := λ (l : list Z) (acc : list Z * list Point3) u,
              acc = ([], []) ∧ NoDup l
              ∧ ∀ k, k ∈ l → ∃ r, lid_factors_ u !! k = Some r
                                  ∧ verdict u current r ≠ Accepted).
  assert (Hstep : ∀ k l acc u, I (k :: l) acc u →
            match smart_update_body current k acc u with
            | (v1, Ok acc1) => I l acc1 v1
            | (v1, Raise _) => False
            end).
  { intros k l0 acc0 u (-> & Hnd0 & Hall0).
    apply NoDup_cons in Hnd0 as [Hk Hnd0].
    destruct (Hall0 k) as (r & Hr & Hv); [left|].
    assert (Htail : ∀ u', lid_factors_ u' = delete k (lid_factors_ u)
                          ∨ lid_factors_ u' = lid_factors_ u →
              min_landmark_obs_ u' = min_landmark_obs_ u →
              px_error_threshold_ u' = px_error_threshold_ u →
              ∀ k', k' ∈ l0 → ∃ r, lid_factors_ u' !! k' = Some r
                                   ∧ verdict u' current r ≠ Accepted).
    { intros u' Hu Hm Hp k' Hk'.
      destruct (Hall0 k') as (r' & Hr' & Hv'); [by right|].
      exists r'. rewrite (verdict_ext u u') by done. split; [|done].
      destruct Hu as [-> | ->]; [|done].
      rewrite lookup_delete_ne; [done|]. by intros ->. }
    destruct (body_round current k ([], []) u r Hr)
      as [[_ E]|[[_ E]|[(Ha & _)|[Ha _]]]]; try done; rewrite E.
    - split_and!; [done..|]. apply Htail; auto.
    - split_and!; [done..|]. apply Htail; auto. }
  pose proof (rounds_ind current I (λ _, False) Hstep l ([], []) v) as Hind.
  destruct (rounds current l ([], []) v) as [v' [acc'|e]].
  - destruct Hind as (-> & _); [by split_and!|]. eauto.
  - destruct Hind. by split_and!.
Qed.

#[local] Instance same_thresholds_preorder : PreOrder same_thresholds.
Proof.
  split; unfold same_thresholds.
  - intros v. done.
  - intros v1 v2 v3 (? & ?) (? & ?). split; congruence.
Qed.

(** No method changes the thresholds. *)
Lemma call_same_thresholds op v : after same_thresholds (call op) v.
Proof. destruct op; frame; by unfold same_thresholds. Qed.

Lemma elem_of_keys (m : gmap Z LidFactor) k :
  k ∈ (map_to_list m).*1 ↔ is_Some (m !! k).
Proof.
  rewrite list_elem_of_fmap. split.
  - intros ([k' r] & -> & Hin%elem_of_map_to_list). eauto.
  - intros [r Hr]. exists (k, r). by rewrite elem_of_map_to_list.
Qed.

(** C10: when no entry of the pending table passes the tests of the settle
    pass (enough observations and not in the graph, not degenerate, not
    behind a camera, a reprojection error that is positive and within the
    threshold), [smart_update] returns, and what it returns is the pair of
    empty arrays. *)
Theorem smart_update_returns_empty v :
  (∀ lid r, lid_factors_ v !! lid = Some r →
     ¬ (examined v r
        ∧ passes_checks v (calculateEstimate (slam_ (base v))) r)) →
  (smart_update v).2 = Ok ([], []).
Proof.
  intros Hnone. rewrite smart_update_rounds.
  destruct (rounds_none_accepted (calculateEstimate (slam_ (base v)))
              (map_to_list (lid_factors_ v)).*1 v) as [v' ->].
  - apply NoDup_fst_map_to_list.
  - intros k [r Hr]%elem_of_keys. exists r. split; [done|].
    rewrite verdict_Accepted_iff. by apply (Hnone k).
  - done.
Qed.

(** The priors added after the rounds keep every table. *)
Lemma priors_keep (b : bool) (fs : list Factor) v :
  let v' := if b then set_base (set_graph (λ g, g ++ fs)) v else v in
  lid_factors_ v' = lid_factors_ v
  ∧ ls_ (base v') = ls_ (base v)
  ∧ initial_ (base v') = initial_ (base v).
Proof. by destruct b. Qed.

(** An entry that is skipped stays as it is through the rounds, and its
    identifier does not enter the local list. *)
Lemma rounds_skipped current lid r l acc v :
  lid_factors_ v !! lid = Some r →
  verdict v current r = Skipped →
  lid ∉ acc.1 →
  let res := rounds current l acc v in
  lid_factors_ res.1 !! lid = Some r
  ∧ keeps_landmark lid (base v) (base res.1)
  ∧ ∀ acc', res.2 = Ok acc' → lid ∉ acc'.1.
Proof.
  intros Hr Hv Hacc res.
  set (I := λ (_ : list Z) (acc : list Z * list Point3) u,
              lid_factors_ u !! lid = Some r
              ∧ same_thresholds v u
              ∧ keeps_landmark lid (base v) (base u)
              ∧ lid ∉ acc.1).
  set (Q := λ u, lid_factors_ u !! lid = Some r
                 ∧ keeps_landmark lid (base v) (base u)).
  assert (Hstep : ∀ k l acc u, I (k :: l) acc u →
            match smart_update_body current k acc u with
            | (v1, Ok acc1) => I l acc1 v1
            | (v1, Raise _) => Q v1
            end).
  { intros k l0 acc0 u (Hr0 & [Hm Hp] & Hl & Hacc0).
    destruct (decide (k = lid)) as [->|Hne].
    { rewrite (body_skipped current lid acc0 u r);
        [by split_and!|done|by rewrite (verdict_ext v u)]. }
    pose proof (body_keeps_entry current k acc0 lid u Hne) as (He & Hm' & Hp').
    pose proof (body_keeps_landmark current k acc0 lid u Hne) as Hl'.
    pose proof (body_acc current k acc0 u) as Ha.
    unfold after, on_base in *.
    destruct (smart_update_body current k acc0 u) as [u1 [acc1|e]];
      simpl in *.
    - split_and!.
      + congruence.
      + split; congruence.
      + by etransitivity.
      + destruct (Ha _ _ eq_refl) as [-> | ->]; [done|].
        rewrite elem_of_app, list_elem_of_singleton. by intros [?|?].
    - split; [congruence|by etransitivity]. }
  pose proof (rounds_ind current I Q Hstep l acc v) as Hind. subst res.
  destruct (rounds current l acc v) as [v' [acc'|e]]; simpl.
  - destruct Hind as (? & _ & ? & ?); [by split_and!|].
    split_and!; [done..|]. by intros ? [= <-].
  - destruct Hind as [? ?]; [by split_and!|]. by split_and!.
Qed.

(** C4: an entry with fewer than [min_landmark_obs_] observations (or
    already marked as in the graph) goes through [smart_update] untouched,
    whether the pass returns or raises: the entry is still in the pending
    table, no landmark is committed or staged for its identifier, and the
    identifier is not among those returned; the constructor raises unless
    [min_landmark_obs] is at least 2, and no method changes it afterwards. *)
Theorem skipped_below_min_landmark_obs v lid r :
  lid_factors_ v !! lid = Some r →
  in_graph r = true ∨ count r < min_landmark_obs_ v →
  lid_factors_ (smart_update v).1 !! lid = Some r
  ∧ ls_ (base (smart_update v).1) !! lid = ls_ (base v) !! lid
  ∧ initial_ (base (smart_update v).1) !! symbol "l" lid
    = initial_ (base v) !! symbol "l" lid
  ∧ (∀ lids pts3, (smart_update v).2 = Ok (lids, pts3) → lid ∉ lids)
  ∧ (∀ calib m on pn p3 thr px,
       match VisualSLAM_init calib m on pn p3 thr px with
       | Ok e => min_landmark_obs_ e = m ∧ 2 ≤ m
       | Raise err => err = AssertionError ∧ m < 2
       end)
  ∧ (∀ op u, min_landmark_obs_ (call op u).1 = min_landmark_obs_ u).
Proof.
  intros Hr Hskip.
  assert (Hv : verdict v (calculateEstimate (slam_ (base v))) r = Skipped).
  { apply verdict_Skipped_iff. intros [Hg Hc].
    destruct Hskip as [?|?]; [congruence|lia]. }
  pose proof (rounds_skipped (calculateEstimate (slam_ (base v))) lid r
                (map_to_list (lid_factors_ v)).*1 ([], []) v Hr Hv)
    as (Hkeep & [Hls Hinit] & Hacc); [by intros ?%elem_of_nil|].
  rewrite smart_update_rounds.
  destruct (rounds _ _ _ v) as [v1 [[lids pts3]|e]]; simpl in *.
  - pose proof (priors_keep (bool_decide (index (base v1) ≤ 2))
                  ((λ m, PriorFactorPoint3 (symbol "l" m.1) m.2
                           (prior_point3d_noise_ v1)) <$> zip lids pts3) v1)
      as (-> & -> & ->).
    split_and!; try done.
    + intros lids' pts3' [= E]. specialize (Hacc _ eq_refl). simpl in Hacc.
      destruct pts3; [|case_bool_decide]; simplify_eq;
        (done || by intros ?%elem_of_nil).
    + intros. unfold VisualSLAM_init. case_bool_decide; simpl; [done|].
      split; [done|lia].
    + intros op u. by destruct (call_same_thresholds op u).
  - split_and!; try done.
    + intros. unfold VisualSLAM_init. case_bool_decide; simpl; [done|].
      split; [done|lia].
    + intros op u. by destruct (call_same_thresholds op u).
Qed.

(** An entry that is rejected is gone after the rounds, when they return. *)
Lemma rounds_rejected current lid r l acc v v' acc' :
  NoDup l → lid ∈ l →
  lid_factors_ v !! lid = Some r →
  verdict v current r = Rejected →
  lid ∉ acc.1 →
  rounds current l acc v = (v', Ok acc') →
  lid_factors_ v' !! lid = None
  ∧ keeps_landmark lid (base v) (base v')
  ∧ lid ∉ acc'.1.
Proof.
  intros Hnd Hin Hr Hv Hacc Hrounds.
  set (I := λ (l : list Z) (acc : list Z * list Point3) u,
              NoDup l
              ∧ same_thresholds v u
              ∧ keeps_landmark lid (base v) (base u)
              ∧ (lid ∉ acc.1)
              ∧ ((lid ∈ l ∧ lid_factors_ u !! lid = Some r)
                 ∨ ((lid ∉ l) ∧ lid_factors_ u !! lid = None))).
  assert (Hstep : ∀ k l acc u, I (k :: l) acc u →
            match smart_update_body current k acc u with
            | (v1, Ok acc1) => I l acc1 v1
            | (v1, Raise _) => True
            end).
  { intros k l0 acc0 u (Hnd0 & [Hm Hp] & Hl & Hacc0 & Hcase).
    apply NoDup_cons in Hnd0 as [Hk Hnd0].
    destruct (decide (k = lid)) as [->|Hne].
    { destruct Hcase as [[_ Hr0]|[Hnin _]]; [|by destruct Hnin; left].
      rewrite (body_rejected current lid acc0 u r);
        [|done|by rewrite (verdict_ext v u)].
      split_and!; try done. right. split; [done|]. simpl.
      apply lookup_delete_eq. }
    pose proof (body_keeps_entry current k acc0 lid u Hne) as (He & Hm' & Hp').
    pose proof (body_keeps_landmark current k acc0 lid u Hne) as Hl'.
    pose proof (body_acc current k acc0 u) as Ha.
    unfold after, on_base in *.
    destruct (smart_update_body current k acc0 u) as [u1 [acc1|e]];
      simpl in *; [|done].
    split_and!.
    - done.
    - split; congruence.
    - by etransitivity.
    - destruct (Ha _ _ eq_refl) as [-> | ->]; [done|].
      rewrite elem_of_app, list_elem_of_singleton. by intros [?|?].
    - rewrite He. destruct Hcase as [[Hin0 ?]|[Hnin ?]].
      + left. split; [|done]. by apply elem_of_cons in Hin0 as [?|?].
      + right. split; [|done]. intros ?. apply Hnin. by right. }
  pose proof (rounds_ind current I (λ _, True) Hstep l acc v) as Hind.
  rewrite Hrounds in Hind.
  destruct Hind as (_ & _ & ? & ? & [[?%elem_of_nil _]|[_ ?]]); try done.
  split_and!; try done. by left.
Qed.

Lemma for_each_pure {S A} (g : S → A → S) (body : A → M S unit) l s :
  (∀ x s', body x s' = (g s' x, Ok tt)) →
  for_each l body s = (foldl g s l, Ok tt).
Proof.
  intros Hb. revert s. induction l as [|x l IH]; intros s; [done|].
  simpl. unfold mbind, M_bind, bind. by rewrite Hb, IH.
Qed.

Lemma for_each_zip_fmap {S A B C} (f : A → B) (l : list A) (k : list C)
    (body : A * B * C → M S unit) s :
  for_each (zip (zip l (f <$> l)) k) body s
  = for_each (zip l k) (λ m, body (m.1, f m.1, m.2)) s.
Proof.
  revert k s. induction l as [|x l IH]; intros [|y k] s; try done.
  cbn. unfold mbind, M_bind, bind.
  destruct (body (x, f x, y) s) as [s' [[]|e]]; [apply IH|done].
Qed.

(** [add_point_landmarks_smart] is [observe] over the measurements. *)
Lemma add_point_landmarks_smart_observe xid lids pts v :
  length lids = length pts →
  add_point_landmarks_smart xid lids pts v
  = (foldl (observe xid) v (zip lids pts), Ok tt).
Proof.
  intros Hlen. unfold add_point_landmarks_smart.
  rewrite length_fmap, bool_decide_eq_true_2 by done.
  unfold assert, mbind at 1, M_bind at 1, bind at 1, ret at 1.
  rewrite (for_each_zip_fmap (symbol "l")).
  apply for_each_pure. intros [lid pt] u. simpl.
  unfold observe, mbind at 1, M_bind at 1, bind at 1, get at 1. simpl.
  destruct (ls_ (base u) !! lid) as [l|] eqn:Hls; [done|].
  unfold lid_factors_getitem. run.
  destruct (lid_factors_ u !! lid) as [r|] eqn:Hr; simpl.
  - rewrite lookup_insert_eq. simpl. destruct u. simpl in *.
    unfold set_lid_factors; simpl. do 2 f_equal.
    rewrite insert_insert_eq. by rewrite Hr.
  - rewrite lookup_insert_eq. simpl. destruct u. simpl in *.
    unfold set_lid_factors; simpl. do 2 f_equal.
    rewrite !insert_insert_eq. by rewrite Hr.
Qed.

(** C5, as the code has it: an examined entry (not in the graph, at least
    [min_landmark_obs_] observations) whose smart factor is degenerate or
    behind a camera, or whose error is above the threshold or not
    positive, is deleted by its round, which returns and changes nothing
    else; when the pass returns the entry is gone, its identifier is not
    among those returned and no landmark was committed or staged for it.
    The identifier itself is not remembered: the next sighting of it by
    [add_point_landmarks_smart] starts a new entry holding that one
    measurement. *)
Theorem rejected_entry_deleted v lid r :
  let current := calculateEstimate (slam_ (base v)) in
  lid_factors_ v !! lid = Some r →
  examined v r →
  fails_checks v current r →
  (∀ acc, smart_update_body current lid acc v
          = (set_lid_factors (delete lid) v, Ok acc))
  ∧ (∀ v' lids pts3, smart_update v = (v', Ok (lids, pts3)) →
       lid_factors_ v' !! lid = None
       ∧ (lid ∉ lids)
       ∧ ls_ (base v') !! lid = ls_ (base v) !! lid
       ∧ initial_ (base v') !! symbol "l" lid
         = initial_ (base v) !! symbol "l" lid)
  ∧ (∀ u xid pt,
       lid_factors_ u !! lid = None →
       ls_ (base u) !! lid = None →
       add_point_landmarks_smart xid [lid] [pt] u
       = (set_lid_factors
            <[lid := {| in_graph := false; count := 1;
                        factor := [(pt, symbol "x" xid)] |}]> u,
          Ok tt)).
Proof.
  intros current Hr Hex Hfail.
  assert (Hv : verdict v current r = Rejected)
    by (by apply verdict_Rejected_iff).
  split_and!.
  - intros acc. by eapply body_rejected.
  - intros v' lids pts3. rewrite smart_update_rounds. fold current.
    destruct (rounds current _ _ v) as [v1 [[lids1 pts1]|e]] eqn:Hrounds;
      [|done].
    intros [= <- Hret].
    assert (Hnil : lid ∉ ([] : list Z, [] : list Point3).1)
      by (by intros ?%elem_of_nil).
    destruct (rounds_rejected current lid r _ _ v v1 _
                (NoDup_fst_map_to_list _)
                (proj2 (elem_of_keys _ _) (ex_intro _ r Hr)) Hr Hv
                Hnil Hrounds)
      as (Hgone & [Hls Hinit] & Hacc).
    pose proof (priors_keep (bool_decide (index (base v1) ≤ 2))
                  ((λ m, PriorFactorPoint3 (symbol "l" m.1) m.2
                           (prior_point3d_noise_ v1)) <$> zip lids1 pts1) v1)
      as (-> & -> & ->).
    split_and!; try done. simpl in Hacc.
    destruct pts1; [|case_bool_decide]; simplify_eq;
      (done || by intros ?%elem_of_nil).
  - intros u xid pt Hu Hls.
    rewrite add_point_landmarks_smart_observe by done.
    simpl. unfold observe. simpl. rewrite Hls. unfold observed.
    destruct u. unfold set_lid_factors. simpl in *. by rewrite Hu.
Qed.

(** C7: a sighting of identifiers that all have their landmark already is
    dropped by [add_point_landmarks_smart]: the call returns and the object
    is the one it was given, so no projection factor enters the graph and
    no pending entry changes. *)
Theorem promoted_sighting_dropped v xid lids pts :
  length lids = length pts →
  (∀ lid, lid ∈ lids → is_Some (ls_ (base v) !! lid)) →
  add_point_landmarks_smart xid lids pts v = (v, Ok tt).
Proof.
  intros Hlen Hall. rewrite add_point_landmarks_smart_observe by done.
  f_equal. clear Hlen. revert pts.
  induction lids as [|lid lids IH]; intros [|pt pts]; try done.
  simpl. unfold observe at 2. simpl.
  destruct (Hall lid) as [l ->]; [left|].
  apply IH. intros lid' Hin. apply Hall. by right.
Qed.

#[local] Instance same_camera_preorder : PreOrder same_camera.
Proof.
  split; unfold same_camera.
  - intros v. done.
  - intros v1 v2 v3 (? & ?) (? & ?). split; congruence.
Qed.

Lemma body_same_camera current k acc v :
  after same_camera (smart_update_body current k acc) v.
Proof. frame; by unfold same_camera. Qed.

Lemma body_batch_grows current k acc v :
  after (on_base batch_grows) (smart_update_body current k acc) v.
Proof.
  frame.
  all: unfold batch_grows; simpl; split; try done.
  all: try (by apply insert_subseteq).
  all: intros f Hf; apply elem_of_app; by left.
Qed.

(** An entry that passes the tests, whose landmark is neither committed
    nor staged, is promoted by the rounds when they return. *)
Lemma rounds_accepted current lid r l acc v v' acc' :
  let pt3 := point_compute (factor r) current in
  NoDup l → lid ∈ l →
  lid_factors_ v !! lid = Some r →
  verdict v current r = Accepted →
  ls_ (base v) !! lid = None →
  initial_ (base v) !! symbol "l" lid = None →
  lid ∉ acc.1 →
  rounds current l acc v = (v', Ok acc') →
  lid_factors_ v' !! lid = None
  ∧ ls_ (base v') !! lid = Some (LPoint pt3)
  ∧ initial_ (base v') !! symbol "l" lid = Some (VPoint3 pt3)
  ∧ (∀ f, f ∈ projection_factors v lid (factor r) → f ∈ graph_ (base v'))
  ∧ lid ∈ acc'.1.
Proof.
  intros pt3 Hnd Hin Hr Hv Hls Hinit Hacc Hrounds.
  set (done_ := λ u (acc : list Z * list Point3),
         lid_factors_ u !! lid = None
         ∧ ls_ (base u) !! lid = Some (LPoint pt3)
         ∧ initial_ (base u) !! symbol "l" lid = Some (VPoint3 pt3)
         ∧ (∀ f, f ∈ projection_factors v lid (factor r) →
                 f ∈ graph_ (base u))
         ∧ lid ∈ acc.1).
  set (I := λ (l : list Z) (acc : list Z * list Point3) u,
              NoDup l
              ∧ same_thresholds v u
              ∧ same_camera v u
              ∧ ((lid ∈ l ∧ lid_factors_ u !! lid = Some r
                  ∧ keeps_landmark lid (base v) (base u)
                  ∧ (lid ∉ acc.1))
                 ∨ ((lid ∉ l) ∧ done_ u acc))).
  assert (Hstep : ∀ k l acc u, I (k :: l) acc u →
            match smart_update_body current k acc u with
            | (v1, Ok acc1) => I l acc1 v1
            | (v1, Raise _) => True
            end).
  { intros k l0 acc0 u (Hnd0 & [Hm Hp] & [HK Hn] & Hcase).
    apply NoDup_cons in Hnd0 as [Hk Hnd0].
    destruct (decide (k = lid)) as [->|Hne].
    { destruct Hcase as [(_ & Hr0 & [Hl1 Hl2] & Hacc0)|[Hnin _]];
        [|by destruct Hnin; left].
      rewrite (body_accepted current lid acc0 u r);
        [|done|by rewrite (verdict_ext v u)|congruence|congruence].
      split_and!; try done. right. split; [done|].
      unfold done_, promoted. simpl. split_and!.
      - apply lookup_delete_eq.
      - apply lookup_insert_eq.
      - apply lookup_insert_eq.
      - intros f Hf. apply elem_of_app. right.
        unfold projection_factors in *. by rewrite HK, Hn.
      - apply elem_of_app. right. by left. }
    pose proof (body_keeps_entry current k acc0 lid u Hne) as (He & Hm' & Hp').
    pose proof (body_keeps_landmark current k acc0 lid u Hne) as [Hl1' Hl2'].
    pose proof (body_same_camera current k acc0 u) as [HK' Hn'].
    pose proof (body_batch_grows current k acc0 u) as [_ Hg'].
    pose proof (body_acc current k acc0 u) as Ha.
    unfold after, on_base in *.
    destruct (smart_update_body current k acc0 u) as [u1 [acc1|e]];
      simpl in *; [|done].
    split_and!.
    - done.
    - split; congruence.
    - split; congruence.
    - destruct Hcase as [(Hin0 & ? & [? ?] & ?)|[Hnin (? & ? & ? & ? & ?)]].
      + left. split_and!.
        * by apply elem_of_cons in Hin0 as [?|?].
        * congruence.
        * split; congruence.
        * destruct (Ha _ _ eq_refl) as [-> | ->]; [done|].
          rewrite elem_of_app, list_elem_of_singleton. by intros [?|?].
      + right. split; [intros ?; apply Hnin; by right|].
        unfold done_. split_and!; try congruence.
        * auto.
        * destruct (Ha _ _ eq_refl) as [-> | ->]; [done|].
          apply elem_of_app. by left. }
  pose proof (rounds_ind current I (λ _, True) Hstep l acc v) as Hind.
  rewrite Hrounds in Hind.
  destruct Hind as (_ & _ & _ & [[?%elem_of_nil _]|[_ ?]]); try done.
  split_and!; try done. left. by split_and!.
Qed.

(** Through the rounds no identifier comes to have both an entry and a
    landmark, and what the local list holds is committed and not pending. *)
Lemma rounds_pending current l acc v :
  NoDup l →
  (∀ k, k ∈ l → is_Some (lid_factors_ v !! k)) →
  (∀ k, k ∈ acc.1 → is_Some (ls_ (base v) !! k)
                    ∧ lid_factors_ v !! k = None) →
  let res := rounds current l acc v in
  (pending_uncommitted v → pending_uncommitted res.1)
  ∧ ∀ acc', res.2 = Ok acc' →
      ∀ k, k ∈ acc'.1 → is_Some (ls_ (base res.1) !! k)
                        ∧ lid_factors_ res.1 !! k = None.
Proof.
  intros Hnd Hall Hacc res.
  set (I := λ (l : list Z) (acc : list Z * list Point3) u,
              NoDup l
              ∧ (∀ k, k ∈ l → is_Some (lid_factors_ u !! k))
              ∧ (pending_uncommitted v → pending_uncommitted u)
              ∧ (∀ k, k ∈ acc.1 → is_Some (ls_ (base u) !! k)
                                  ∧ lid_factors_ u !! k = None)).
  set (Q := λ u, pending_uncommitted v → pending_uncommitted u).
  assert (Hstep : ∀ k l acc u, I (k :: l) acc u →
            match smart_update_body current k acc u with
            | (v1, Ok acc1) => I l acc1 v1
            | (v1, Raise _) => Q v1
            end).
  { intros k l0 acc0 u (Hnd0 & Hall0 & Hp0 & Hacc0).
    apply NoDup_cons in Hnd0 as [Hk Hnd0].
    destruct (Hall0 k) as [r Hr]; [left|].
    assert (Hdel : ∀ k', k' ∈ l0 →
              is_Some (delete k (lid_factors_ u) !! k')).
    { intros k' Hk'. rewrite lookup_delete_ne by (by intros ->).
      apply Hall0. by right. }
    assert (Hpd : ∀ ls' : gmap Z Landmark,
              (∀ k', k' ≠ k → ls' !! k' = ls_ (base u) !! k') →
              pending_uncommitted v →
              ∀ k', is_Some (delete k (lid_factors_ u) !! k') →
                    ls' !! k' = None).
    { intros ls' Hls' Hp k' Hk'.
      destruct (decide (k' = k)) as [->|Hne];
        [rewrite lookup_delete_eq in Hk'; by destruct Hk'|].
      rewrite lookup_delete_ne in Hk' by done.
      rewrite Hls' by done. by apply Hp0. }
    assert (Hnone : ∀ k', k' ∈ acc0.1 → delete k (lid_factors_ u) !! k' = None).
    { intros k' [_ Hk']%Hacc0.
      destruct (decide (k' = k)) as [->|Hne];
        [apply lookup_delete_eq|by rewrite lookup_delete_ne]. }
    destruct (body_round current k acc0 u r Hr)
      as [[_ E]|[[_ E]|[(_ & Hls & _ & E)|[_ [e E]]]]]; rewrite E.
    - split_and!; try done. intros k' Hk'. apply Hall0. by right.
    - split_and!; try done.
      + intros Hp k' Hk'. simpl in *. by apply (Hpd (ls_ (base u))).
      + intros k' Hk'. simpl. split; [by apply Hacc0|by apply Hnone].
    - unfold promoted. split_and!; try done.
      + intros Hp k' Hk'. simpl in *.
        apply (Hpd (<[k := _]> (ls_ (base u)))); [|done..].
        intros k'' Hne. by rewrite lookup_insert_ne.
      + intros k' Hk'. simpl in *.
        apply elem_of_app in Hk' as [Hk'| ->%list_elem_of_singleton].
        * split; [|by apply Hnone].
          rewrite lookup_insert_is_Some.
          destruct (decide (k = k')); [by left|right].
          split; [done|]. by apply Hacc0.
        * rewrite lookup_insert_eq, lookup_delete_eq. eauto.
    - done. }
  pose proof (rounds_ind current I Q Hstep l acc v) as Hind. subst res.
  destruct (rounds current l acc v) as [v' [acc'|e]]; simpl.
  - destruct Hind as (_ & _ & ? & ?); [by split_and!|].
    split; [done|]. by intros ? [= <-].
  - split; [|done]. apply Hind. by split_and!.
Qed.

Lemma smart_update_pending v :
  (pending_uncommitted v → pending_uncommitted (smart_update v).1)
  ∧ ∀ lids pts3, (smart_update v).2 = Ok (lids, pts3) →
      ∀ k, k ∈ lids → is_Some (ls_ (base (smart_update v).1) !! k)
                      ∧ lid_factors_ (smart_update v).1 !! k = None.
Proof.
  pose proof (rounds_pending (calculateEstimate (slam_ (base v)))
                (map_to_list (lid_factors_ v)).*1 ([], []) v
                (NoDup_fst_map_to_list _)) as [Hp Hacc].
  { intros k. by rewrite elem_of_keys. }
  { by intros k ?%elem_of_nil. }
  rewrite smart_update_rounds.
  destruct (rounds _ _ _ v) as [v1 [[lids pts3]|e]]; simpl in *; [|done].
  pose proof (priors_keep (bool_decide (index (base v1) ≤ 2))
                ((λ m, PriorFactorPoint3 (symbol "l" m.1) m.2
                         (prior_point3d_noise_ v1)) <$> zip lids pts3) v1)
    as (El & Els & _).
  split.
  - intros Hv k. rewrite El, Els. by apply Hp.
  - intros lids' pts3' [= E] k Hk. rewrite El, Els.
    apply (Hacc _ eq_refl). simpl.
    destruct pts3; [|case_bool_decide]; simplify_eq;
      (done || by apply elem_of_nil in Hk).
Qed.

Lemma observe_pending xid v m :
  pending_uncommitted v → pending_uncommitted (observe xid v m).
Proof.
  intros Hp. unfold observe.
  destruct (ls_ (base v) !! m.1) as [l|] eqn:Hls; [done|].
  intros lid. simpl. rewrite lookup_insert_is_Some.
  intros [<-|[_ ?]]; [done|by apply Hp].
Qed.

Lemma add_point_landmarks_smart_pending xid lids pts v :
  pending_uncommitted v →
  pending_uncommitted (add_point_landmarks_smart xid lids pts v).1.
Proof.
  intros Hp.
  destruct (decide (length lids = length pts)) as [Hlen|Hlen].
  - rewrite add_point_landmarks_smart_observe by done. simpl.
    revert v Hp. generalize (zip lids pts).
    induction l as [|m l IH]; intros v Hp; [done|].
    simpl. apply IH. by apply observe_pending.
  - unfold add_point_landmarks_smart.
    rewrite length_fmap, bool_decide_eq_false_2 by done. done.
Qed.

#[local] Instance same_entries_preorder : PreOrder same_entries.
Proof.
  split; unfold same_entries; [by intros v|].
  intros v1 v2 v3. congruence.
Qed.

#[local] Instance same_landmarks_preorder : PreOrder same_landmarks.
Proof.
  split; unfold same_landmarks; [by intros v|].
  intros v1 v2 v3. congruence.
Qed.

Lemma call_same_entries op v :
  match op with
  | Op_add_point_landmarks_smart _ _ _
  | Op_add_point_landmarks_incremental_smart _ _
  | Op_smart_update => True
  | _ => after same_entries (call op) v
  end.
Proof. destruct op; try done; frame; by unfold same_entries. Qed.

Lemma call_same_landmarks op v :
  smart_route op = true →
  match op with
  | Op_smart_update => True
  | _ => after (on_base same_landmarks) (call op) v
  end.
Proof.
  destruct op; intros [=]; try done; frame; by unfold same_landmarks.
Qed.

(** Along the smart route no identifier comes to have both an entry and a
    landmark, whether the call returns or raises. *)
Lemma call_pending op v :
  smart_route op = true →
  pending_uncommitted v → pending_uncommitted (call op v).1.
Proof.
  intros Hop Hv.
  pose proof (call_same_entries op v) as He.
  pose proof (call_same_landmarks op v Hop) as Hl.
  destruct op; try discriminate Hop.
  all: try (intros lid; unfold after, on_base, same_entries, same_landmarks
              in He, Hl; rewrite He, Hl; apply Hv).
  - by apply add_point_landmarks_smart_pending.
  - by apply add_point_landmarks_smart_pending.
  - simpl. unfold mbind, M_bind, bind.
    pose proof (proj1 (smart_update_pending v) Hv) as Hp.
    by destruct (smart_update v) as [v' [a|e]].
Qed.

Lemma calls_pending ops v :
  forallb smart_route ops = true →
  pending_uncommitted v → pending_uncommitted (calls ops v).1.
Proof.
  revert v. induction ops as [|op ops IH]; intros v Hops Hv; [done|].
  simpl in Hops. apply andb_true_iff in Hops as [Hop Hops].
  unfold calls. simpl. unfold mbind, M_bind, bind.
  pose proof (call_pending op v Hop Hv) as Hv1.
  destruct (call op v) as [v1 [[]|e]]; [by apply IH|done].
Qed.

(** X24: an examined entry that passes the tests, whose landmark is
    neither committed nor staged yet, is promoted by its round: the round
    returns having committed the landmark at the triangulated point,
    staged that point as its initial value, appended to the graph the
    projection factors of the measurements of the entry, one per
    measurement and in their order, and deleted the entry; when the whole
    pass returns this is how the landmark stands, and its identifier is
    among those returned.  Every identifier the pass returns has its
    landmark and no entry, and no sequence of calls that leaves the direct
    landmark methods and [_update_estimates] aside makes an identifier have
    both an entry and a landmark. *)
Theorem promotion_commits v lid r :
  let current := calculateEstimate (slam_ (base v)) in
  let pt3 := point_compute (factor r) current in
  lid_factors_ v !! lid = Some r →
  examined v r →
  passes_checks v current r →
  ls_ (base v) !! lid = None →
  initial_ (base v) !! symbol "l" lid = None →
  (∀ acc, ∃ v1,
     smart_update_body current lid acc v
     = (v1, Ok (acc.1 ++ [lid], acc.2 ++ [pt3]))
     ∧ ls_ (base v1) = <[lid := LPoint pt3]> (ls_ (base v))
     ∧ initial_ (base v1)
       = <[symbol "l" lid := VPoint3 pt3]> (initial_ (base v))
     ∧ graph_ (base v1)
       = graph_ (base v)
         ++ ((λ m, GenericProjectionFactorPose3Point3Cal3_S2 m.1
                     (image_measurement_noise_ v) m.2 (symbol "l" lid)
                     (K_ v)) <$> factor r)
     ∧ lid_factors_ v1 = delete lid (lid_factors_ v))
  ∧ (∀ v' lids pts3, smart_update v = (v', Ok (lids, pts3)) →
       lid ∈ lids
       ∧ ls_ (base v') !! lid = Some (LPoint pt3)
       ∧ initial_ (base v') !! symbol "l" lid = Some (VPoint3 pt3)
       ∧ (∀ m, m ∈ factor r →
            GenericProjectionFactorPose3Point3Cal3_S2 m.1
              (image_measurement_noise_ v) m.2 (symbol "l" lid) (K_ v)
            ∈ graph_ (base v'))
       ∧ lid_factors_ v' !! lid = None)
  ∧ (∀ u v' lids pts3, smart_update u = (v', Ok (lids, pts3)) →
       ∀ k, k ∈ lids → is_Some (ls_ (base v') !! k)
                       ∧ lid_factors_ v' !! k = None)
  ∧ (∀ ops u, forallb smart_route ops = true →
       pending_uncommitted u → pending_uncommitted (calls ops u).1).
Proof.
  intros current pt3 Hr Hex Hpass Hls Hinit.
  assert (Hv : verdict v current r = Accepted)
    by (by apply verdict_Accepted_iff).
  split_and!.
  - intros acc. eexists. split; [by apply body_accepted|]. by split_and!.
  - intros v' lids pts3 (v1 & Hrounds & -> & -> & -> & Hgraph)
      %smart_update_result.
    fold current in Hrounds.
    assert (Hnil : lid ∉ ([] : list Z, [] : list Point3).1)
      by (by intros ?%elem_of_nil).
    destruct (rounds_accepted current lid r _ _ v v1 _
                (NoDup_fst_map_to_list _)
                (proj2 (elem_of_keys _ _) (ex_intro _ r Hr)) Hr Hv
                Hls Hinit Hnil Hrounds)
      as (Hgone & Hl & Hi & Hg & Hacc).
    split_and!; try done.
    intros m Hm. apply Hgraph, Hg. unfold projection_factors.
    apply list_elem_of_fmap. by exists m.
  - intros u v' lids pts3 Hu k Hk.
    destruct (smart_update_pending u) as [_ Hacc].
    rewrite Hu in Hacc. by eapply Hacc.
  - apply calls_pending.
Qed.

(** ** The update *)

#[local] Instance same_batch_init_preorder : PreOrder same_batch_init.
Proof.
  split; unfold same_batch_init; [by intros v|].
  intros v1 v2 v3. congruence.
Qed.

Lemma call_same_batch_init op v :
  is_update op = false → after same_batch_init (call op) v.
Proof. destruct op; intros [=]; frame; by unfold same_batch_init. Qed.

Lemma VisualSLAM_update_eq v :
  VisualSLAM_update v
  = if batch_init_ v then
      match isam_update (slam_ (base v)) (graph_ (base v))
              (initial_ (base v)) ≫= isam_update_ with
      | Some slam => (updated slam v, Ok tt)
      | None => (v, Raise RuntimeError)
      end
    else
      match LevenbergMarquardtOptimizer_optimize (graph_ (base v))
              (initial_ (base v))
            ≫= isam_update (slam_ (base v)) (graph_ (base v)) with
      | Some slam => (updated slam (set_batch_init (λ _, true) v), Ok tt)
      | None => (set_batch_init (λ _, true) v, Raise RuntimeError)
      end.
Proof.
  unfold VisualSLAM_update. run.
  destruct (batch_init_ v); simpl; by destruct (option_bind _ _ _ _).
Qed.

(** C8: a new engine has [batch_init_] off, the update turns it on (also
    when it raises) and no other method touches it.  An update with the
    flag off, so the first one, runs the Levenberg-Marquardt optimizer on
    the pending factors and initial values and hands the pending factors
    with the optimized values to ISAM2; an update with the flag on, so
    every later one, gives ISAM2 the pending factors and initial values
    and runs its second [update()], and the batch optimizer is not
    involved.  An update that returns leaves the pending graph and initial
    values empty and [current_] equal to the estimate of the solver; one
    that raises leaves them as they were. *)
Theorem first_update_is_batch :
  (∀ calib m on pn p3 thr px,
     match VisualSLAM_init calib m on pn p3 thr px with
     | Ok e => batch_init_ e = false
     | Raise _ => True
     end)
  ∧ (∀ op v, batch_init_ (call op v).1 = batch_init_ v || is_update op)
  ∧ (∀ v,
       VisualSLAM_update v
       = if batch_init_ v then
           match isam_update (slam_ (base v)) (graph_ (base v))
                   (initial_ (base v)) ≫= isam_update_ with
           | Some slam => (updated slam v, Ok tt)
           | None => (v, Raise RuntimeError)
           end
         else
           match LevenbergMarquardtOptimizer_optimize (graph_ (base v))
                   (initial_ (base v))
                 ≫= isam_update (slam_ (base v)) (graph_ (base v)) with
           | Some slam =>
               (updated slam (set_batch_init (λ _, true) v), Ok tt)
           | None => (set_batch_init (λ _, true) v, Raise RuntimeError)
           end)
  ∧ (∀ slam v,
       slam_ (base (updated slam v)) = slam
       ∧ graph_ (base (updated slam v)) = []
       ∧ initial_ (base (updated slam v)) = ∅
       ∧ current_ (base (updated slam v)) = Some (calculateEstimate slam)
       ∧ xs_ (base (updated slam v)) = xs_ (base v)
       ∧ ls_ (base (updated slam v)) = ls_ (base v)
       ∧ switch_ (base (updated slam v)) = switch_ (base v)
       ∧ lid_factors_ (updated slam v) = lid_factors_ v
       ∧ batch_init_ (updated slam v) = batch_init_ v).
Proof.
  split_and!.
  - intros. unfold VisualSLAM_init. by case_bool_decide.
  - intros op v. destruct (is_update op) eqn:Hop.
    + destruct op; try discriminate Hop. simpl.
      rewrite VisualSLAM_update_eq, orb_true_r.
      destruct (batch_init_ v) eqn:Hb.
      * by destruct (isam_update (slam_ (base v)) _ _ ≫= isam_update_).
      * by destruct (LevenbergMarquardtOptimizer_optimize _ _
                     ≫= isam_update (slam_ (base v)) _).
    + rewrite orb_false_r. apply (call_same_batch_init op v Hop).
  - apply VisualSLAM_update_eq.
  - intros slam v. by split_and!.
Qed.

(** ** Initialization *)

(** With the key of the pose still staged, [initialize] raises after it has
    added the prior. *)
Lemma initialize_staged p index noise s :
  is_Some (initial_ s !! symbol "x" index) →
  initialize p index noise s
  = (set_graph
       (λ g, g ++ [PriorFactorPose3 (symbol "x" index) p
                     (noise_or noise (prior_pose_noise_ s))]) s,
     Raise ValuesKeyAlreadyExists).
Proof.
  intros Hk. unfold initialize. run. by rewrite initial_insert_dup.
Qed.

(** C9, as the code has it: [initialize] does not look at
    [is_initialized].  Whenever the key of the pose is not among the
    pending initial values (after an update, or for another index) it
    returns, on an initialized engine as on a new one: it adds one more
    prior, stages the pose, overwrites [xs_[index]] and moves [latest] to
    [index]. *)
Theorem initialize_unguarded p index noise s :
  initial_ s !! symbol "x" index = None →
  ∃ s', initialize p index noise s = (s', Ok tt)
        ∧ graph_ s' = graph_ s ++ [PriorFactorPose3 (symbol "x" index) p
                                     (noise_or noise (prior_pose_noise_ s))]
        ∧ initial_ s' = <[symbol "x" index := VPose3 p]> (initial_ s)
        ∧ xs_ s' = <[index := p]> (xs_ s)
        ∧ latest s' = index.
Proof.
  intros Hfree. rewrite initialize_fresh by done.
  eexists. split; [reflexivity|]. by split_and!.
Qed.

(** ** What is staged is known *)

#[local] Instance keeps_preorder {S} (I : S → Prop) : PreOrder (keeps I).
Proof.
  split; unfold keeps; [by intros s|intros s1 s2 s3; tauto].
Qed.

#[local] Instance same_preorder {S A} (f : S → A) : PreOrder (same f).
Proof.
  split; unfold same; [done|intros s1 s2 s3 H1 H2; congruence].
Qed.

(** A key is staged and its value committed in two statements; the
    invariant holds again after the second. *)
Lemma stage_then_commit (I : BaseSLAM → Prop) k v f s :
  (I s → initial_ s !! k = None → I (f (set_initial <[k := v]> s))) →
  after (keeps I) (initial_insert k v;; modify f) s.
Proof.
  intros H. unfold after, keeps, mbind, M_bind, bind.
  destruct (initial_ s !! k) eqn:E.
  - by rewrite initial_insert_dup by eauto.
  - rewrite initial_insert_fresh by done. simpl. eauto.
Qed.

Lemma stage_then_commit_bind {B} (I : BaseSLAM → Prop) k v f
    (kont : unit → M BaseSLAM B) s :
  (I s → initial_ s !! k = None → I (f (set_initial <[k := v]> s))) →
  (∀ s', after (keeps I) (kont tt) s') →
  after (keeps I) (initial_insert k v;; (modify f ≫= kont)) s.
Proof.
  intros H Hk. unfold after, keeps, mbind, M_bind, bind.
  destruct (initial_ s !! k) eqn:E.
  - by rewrite initial_insert_dup by eauto.
  - rewrite initial_insert_fresh by done. simpl. intros HI. apply Hk. eauto.
Qed.

Lemma switch_then_stage {B} (I : BaseSLAM → Prop) g k v
    (kont : unit → M BaseSLAM B) s :
  (I s → I (set_switch g s)) →
  (I s → initial_ s !! k = None →
   I (set_initial <[k := v]> (set_switch g s))) →
  (∀ s', after (keeps I) (kont tt) s') →
  after (keeps I) (modify (set_switch g);; (initial_insert k v ≫= kont)) s.
Proof.
  intros Hdup H Hk. unfold after, keeps, mbind, M_bind, bind, modify.
  destruct (initial_ s !! k) eqn:E.
  - rewrite initial_insert_dup by (simpl; eauto). simpl. done.
  - rewrite initial_insert_fresh by done. intros HI. apply Hk. eauto.
Qed.

Ltac keeps_step :=
  match goal with
  | |- after (keeps _)
         (mbind (λ _, mbind _ (modify _)) (initial_insert _ _)) _ =>
      apply stage_then_commit_bind
  | |- after (keeps _) (mbind (λ _, modify _) (initial_insert _ _)) _ =>
      apply stage_then_commit
  | |- after (keeps _)
         (mbind (λ _, mbind _ (initial_insert _ _)) (modify (set_switch _))) _
    => apply switch_then_stage
  end.

Ltac keeps_unfold :=
  unfold call, initialize, add_pose_prior, add_incremental_pose_constraint,
    add_relative_pose_constraint, add_pose_landmarks,
    add_pose_landmarks_incremental, BaseSLAM_update, _batch_solve,
    _update_estimates, add_landmark_prior, add_point_landmarks,
    add_point_landmarks_incremental, add_point_landmarks_smart,
    add_point_landmarks_incremental_smart, smart_update, smart_update_body,
    VisualSLAM_update, graph_add, xs_getitem,
    lid_factors_getitem, lid_factors_delitem.

Ltac keeps_frame :=
  repeat first [keeps_step | frame_step | progress keeps_unfold].

Lemma zip_symbol_eq {B} ch (lids : list Z) (l_id : Symbol) lid (y : B) ys :
  (l_id, lid, y) ∈ zip (zip (symbol ch <$> lids) lids) ys →
  l_id = symbol ch lid.
Proof.
  intros Hin%elem_of_zip_l. revert Hin.
  induction lids as [|z lids IH]; simpl; [by intros ?%elem_of_nil|].
  intros [[= -> ->]|Hin]%elem_of_cons; [done|by apply IH].
Qed.

Ltac staged_field :=
  let k := fresh "k" in
  let H := fresh "H" in
  intros k;
  rewrite ?lookup_insert_is_Some', ?lookup_empty, ?length_app; simpl;
  intros H;
  repeat match goal with
  | H : _ ∨ _ |- _ => destruct H as [H|H]
  | H : symbol _ _ = symbol _ _ |- _ =>
      apply symbol_inj in H as [? ?]; simplify_eq
  | H : is_Some None |- _ => by destruct H
  | Hs : ∀ k, is_Some (initial_ ?s !! symbol "s" k) → _,
    H : is_Some (initial_ ?s !! symbol "s" _) |- _ => apply Hs in H
  end;
  eauto; try lia.

Ltac staged_solve :=
  unfold keeps; intros;
  repeat match goal with
  | Hin : (_, _, _) ∈ zip (zip (symbol _ <$> _) _) _ |- _ =>
      apply zip_symbol_eq in Hin; subst
  | E : list_setitem _ _ _ = Ok _ |- _ => apply list_setitem_length in E
  | H : staged_known _ |- _ => destruct H as [? ? ?]
  end;
  split; unfold switch_keys_bounded in *; simpl in *; try done;
  staged_field.

Lemma call_staged_known op v :
  after (on_base (keeps staged_known)) (call op) v.
Proof.
  destruct op; keeps_frame; try staged_solve.
Qed.

Lemma calls_staged_known ops v :
  staged_known (base v) → staged_known (base (calls ops v).1).
Proof.
  apply (after_for_each (on_base (keeps staged_known))).
  intros op _ v'. apply call_staged_known.
Qed.

Lemma staged_known_init on pn mn rb :
  staged_known (BaseSLAM_init on pn mn rb).
Proof.
  split; unfold switch_keys_bounded; simpl; intros k;
    rewrite lookup_empty; by intros [? [=]].
Qed.

(** X1: from a new engine, after any sequence of calls (the last of which
    may have raised), every pose key and every landmark key among the
    pending initial values has its value in [xs_], respectively [ls_], and
    every pending switch key indexes an element of [switch_]. *)
Theorem staged_values_known on pn mn rb v0 ops :
  base v0 = BaseSLAM_init on pn mn rb →
  let s := base (calls ops v0).1 in
  (∀ k, is_Some (initial_ s !! symbol "x" k) → is_Some (xs_ s !! k))
  ∧ (∀ k, is_Some (initial_ s !! symbol "l" k) → is_Some (ls_ s !! k))
  ∧ (∀ k, is_Some (initial_ s !! symbol "s" k) →
          0 ≤ k < Z.of_nat (length (switch_ s))).
Proof.
  intros Hnew s.
  destruct (calls_staged_known ops v0) as [Hx Hl Hs]; [|done].
  rewrite Hnew. apply staged_known_init.
Qed.

(** The method in closed form, on an object whose pending switch keys are
    in range. *)
Lemma add_relative_eq xid1 xid2 delta noise s :
  switch_keys_bounded s →
  add_relative_pose_constraint xid1 xid2 delta noise s
  = let s1 := constrained xid1 xid2 delta noise s in
    match xs_ s !! xid2 with
    | Some _ => (set_xxs (λ l, l ++ [(xid1, xid2)]) s1, Ok tt)
    | None =>
        match xs_ s !! xid1 with
        | None => (s1, Raise KeyError)
        | Some p1 =>
            match initial_ s !! symbol "x" xid2 with
            | Some _ => (s1, Raise ValuesKeyAlreadyExists)
            | None =>
                (set_xxs (λ l, l ++ [(xid1, xid2)])
                   (set_xs <[xid2 := oplus p1 delta]>
                      (set_initial
                         <[symbol "x" xid2 := VPose3 (oplus p1 delta)]> s1)),
                 Ok tt)
            end
        end
    end.
Proof.
  intros Hs.
  assert (Hfree : initial_ s !! symbol "s" (Z.of_nat (length (switch_ s)))
                  = None).
  { apply eq_None_not_Some. intros Hc%Hs. lia. }
  unfold add_relative_pose_constraint, constrained. run.
  destruct (robust_ s) eqn:Hr.
  - rewrite initial_insert_fresh by done. simpl.
    destruct (xs_ s !! xid2) eqn:H2; [done|].
    destruct (xs_ s !! xid1) as [p1|] eqn:H1.
    + rewrite xs_getitem_Some with (p := p1) by done.
      destruct (initial_ s !! symbol "x" xid2) eqn:Hx.
      * rewrite initial_insert_dup; [done|]. simpl.
        rewrite lookup_insert_ne by (by intros [? ?]%symbol_inj). eauto.
      * rewrite initial_insert_fresh; [done|]. simpl.
        rewrite lookup_insert_ne by (by intros [? ?]%symbol_inj). done.
    + by rewrite xs_getitem_None by done.
  - simpl. destruct (xs_ s !! xid2) eqn:H2; [done|].
    destruct (xs_ s !! xid1) as [p1|] eqn:H1.
    + rewrite xs_getitem_Some with (p := p1) by done.
      destruct (initial_ s !! symbol "x" xid2) eqn:Hx.
      * rewrite initial_insert_dup; [done|]. simpl. eauto.
      * by rewrite initial_insert_fresh.
    + by rewrite xs_getitem_None by done.
Qed.

(** X2: [add_relative_pose_constraint] on an object in which what is
    staged is known returns exactly when one of its two poses is known:
    [xid2], or else [xid1]; otherwise it raises KeyError, and it raises
    nothing else. *)
Theorem add_relative_returns_iff xid1 xid2 delta noise s :
  staged_known s →
  let r := (add_relative_pose_constraint xid1 xid2 delta noise s).2 in
  (r = Ok tt ↔ is_Some (xs_ s !! xid2) ∨ is_Some (xs_ s !! xid1))
  ∧ (r = Ok tt ∨ r = Raise KeyError).
Proof.
  intros [Hx _ Hs] r. subst r. rewrite add_relative_eq by done. simpl.
  destruct (xs_ s !! xid2) eqn:H2; simpl.
  { split; [|by left]. split; [eauto|done]. }
  destruct (xs_ s !! xid1) as [p1|] eqn:H1; simpl.
  - destruct (initial_ s !! symbol "x" xid2) eqn:Hi; simpl.
    + assert (Hc : is_Some (xs_ s !! xid2)) by (apply Hx; eauto).
      rewrite H2 in Hc. by destruct Hc.
    + split; [|by left]. split; [eauto|done].
  - split; [|by right]. split; [done|].
    intros [[? [=]]|[? [=]]].
Qed.

(** X3: a constraint between two unknown poses raises KeyError after the
    method has added its factors: the factor between the two pose keys is
    left in the pending graph and, in robust mode, a switch is allocated
    and staged for it, while no pose and no edge is recorded. *)
Theorem add_relative_unknown_poses xid1 xid2 delta noise s :
  switch_keys_bounded s →
  xs_ s !! xid1 = None →
  xs_ s !! xid2 = None →
  let s' := (add_relative_pose_constraint xid1 xid2 delta noise s).1 in
  let ks := symbol "s" (Z.of_nat (length (switch_ s))) in
  (add_relative_pose_constraint xid1 xid2 delta noise s).2 = Raise KeyError
  ∧ xs_ s' = xs_ s
  ∧ xxs_ s' = xxs_ s
  ∧ (if robust_ s then
       graph_ s'
       = graph_ s
         ++ [PriorFactorSwitchVariableSigmoid ks 1%Q (Diagonal_Sigmas [2%Q]);
             BetweenFactorSwitchableSigmoidPose3 (symbol "x" xid1)
               (symbol "x" xid2) ks delta (noise_or noise (odo_noise_ s))]
       ∧ switch_ s' = switch_ s ++ [1%Q]
       ∧ initial_ s' = <[ks := VSwitch 1%Q]> (initial_ s)
     else
       graph_ s'
       = graph_ s ++ [BetweenFactorPose3 (symbol "x" xid1) (symbol "x" xid2)
                        delta (noise_or noise (odo_noise_ s))]
       ∧ switch_ s' = switch_ s
       ∧ initial_ s' = initial_ s).
Proof.
  intros Hs H1 H2 s' ks. subst s'.
  rewrite add_relative_eq by done. simpl. rewrite H1, H2. simpl.
  unfold constrained. destruct (robust_ s); simpl; [|done].
  by rewrite <- app_assoc.
Qed.

(** X4: a constraint to a pose that is already known (a loop closure)
    returns without reading [xid1]: the estimate of every pose is kept, no
    pose is staged, and the edge is appended last; this holds also when
    [xid1] is not a pose of the object. *)
Theorem loop_closure_keeps_poses xid1 xid2 delta noise s :
  switch_keys_bounded s →
  is_Some (xs_ s !! xid2) →
  let s' := (add_relative_pose_constraint xid1 xid2 delta noise s).1 in
  (add_relative_pose_constraint xid1 xid2 delta noise s).2 = Ok tt
  ∧ xs_ s' = xs_ s
  ∧ idx_ s' = idx_ s
  ∧ (∀ k, initial_ s' !! symbol "x" k = initial_ s !! symbol "x" k)
  ∧ xxs_ s' = xxs_ s ++ [(xid1, xid2)].
Proof.
  intros Hs [p2 H2] s'. subst s'.
  rewrite add_relative_eq by done. simpl. rewrite H2. simpl.
  unfold constrained. destruct (robust_ s); simpl; split_and!; try done.
  intros k. apply lookup_insert_ne. by intros [? ?]%symbol_inj.
Qed.

(** ** Landmarks seen from a pose *)

Lemma sighted_fields lid val lm s :
  let s' := sighted lid val lm s in
  xs_ s' = xs_ s ∧ graph_ s' = graph_ s ∧ xls_ s' = xls_ s
  ∧ xxs_ s' = xxs_ s ∧ idx_ s' = idx_ s ∧ switch_ s' = switch_ s
  ∧ current_ s' = current_ s ∧ slam_ s' = slam_ s.
Proof. unfold sighted. by destruct (ls_ s !! lid). Qed.

Lemma sightings_fields l s :
  let s' := sightings l s in
  xs_ s' = xs_ s ∧ graph_ s' = graph_ s ∧ xls_ s' = xls_ s
  ∧ xxs_ s' = xxs_ s ∧ idx_ s' = idx_ s ∧ switch_ s' = switch_ s
  ∧ current_ s' = current_ s ∧ slam_ s' = slam_ s.
Proof.
  revert s. induction l as [|[lid [val lm]] l IH]; intros s; [done|].
  simpl. destruct (IH (sighted lid val lm s)) as (-> & -> & -> & -> & -> & -> & -> & ->).
  apply sighted_fields.
Qed.

Lemma first_sight_cons {A} lid k (a : A) l :
  first_sight lid ((k, a) :: l)
  = if bool_decide (k = lid) then Some a else first_sight lid l.
Proof. unfold first_sight. simpl. by case_bool_decide. Qed.

(** A landmark keeps the value it has, or gets the one of its first
    sighting. *)
Lemma sightings_ls l s lid :
  ls_ (sightings l s) !! lid
  = match ls_ s !! lid with
    | Some x => Some x
    | None => snd <$> first_sight lid l
    end.
Proof.
  revert s. induction l as [|[k [val lm]] l IH]; intros s.
  { simpl. by destruct (ls_ s !! lid). }
  change (sightings ((k, (val, lm)) :: l) s)
    with (sightings l (sighted k val lm s)).
  rewrite IH, first_sight_cons. unfold sighted.
  destruct (ls_ s !! k) eqn:Hk; simpl.
  - case_bool_decide; [subst; by rewrite Hk|done].
  - case_bool_decide.
    + subst. by rewrite lookup_insert_eq, Hk.
    + by rewrite lookup_insert_ne.
Qed.

Lemma sightings_initial l s lid :
  initial_ (sightings l s) !! symbol "l" lid
  = match ls_ s !! lid with
    | Some _ => initial_ s !! symbol "l" lid
    | None =>
        match first_sight lid l with
        | Some m => Some m.1
        | None => initial_ s !! symbol "l" lid
        end
    end.
Proof.
  revert s. induction l as [|[k [val lm]] l IH]; intros s.
  { simpl. by destruct (ls_ s !! lid). }
  change (sightings ((k, (val, lm)) :: l) s)
    with (sightings l (sighted k val lm s)).
  rewrite IH, first_sight_cons. unfold sighted.
  destruct (ls_ s !! k) eqn:Hk; simpl.
  - case_bool_decide; [subst; by rewrite Hk|done].
  - case_bool_decide.
    + subst. by rewrite !lookup_insert_eq, Hk.
    + rewrite !lookup_insert_ne; [done| |done].
      intros [_ ?]%symbol_inj. done.
Qed.

Lemma sightings_initial_other l s k :
  Symbol_chr k ≠ "l"%char →
  initial_ (sightings l s) !! k = initial_ s !! k.
Proof.
  intros Hk. revert s. induction l as [|[lid [val lm]] l IH]; intros s;
    [done|].
  change (sightings ((lid, (val, lm)) :: l) s)
    with (sightings l (sighted lid val lm s)).
  rewrite IH. unfold sighted. destruct (ls_ s !! lid); [done|]. simpl.
  apply lookup_insert_ne. intros <-. by apply Hk.
Qed.

Lemma sighted_staged_l lid val lm s :
  (∀ k, is_Some (initial_ s !! symbol "l" k) → is_Some (ls_ s !! k)) →
  ∀ k, is_Some (initial_ (sighted lid val lm s) !! symbol "l" k) →
       is_Some (ls_ (sighted lid val lm s) !! k).
Proof.
  intros Hl k. unfold sighted. destruct (ls_ s !! lid); [apply Hl|].
  simpl. rewrite !lookup_insert_is_Some'.
  intros [[_ ?]%symbol_inj|?]; [by left|right; by apply Hl].
Qed.

Lemma for_each_graph {A} (f : A → Factor) (l : list A) s :
  for_each l (λ x, graph_add (f x)) s
  = (set_graph (λ g, g ++ (f <$> l)) s, Ok tt).
Proof.
  revert s. induction l as [|x l IH]; intros s; simpl.
  - destruct s. unfold set_graph. simpl. by rewrite app_nil_r.
  - unfold mbind, M_bind, bind. unfold graph_add at 1.
    unfold modify at 1. rewrite IH.
    destruct s. unfold set_graph. simpl. by rewrite <- app_assoc.
Qed.

(** The loop of [add_pose_landmarks] when the pose is known. *)
Lemma pose_landmarks_loop xid p lids deltas s :
  xs_ s !! xid = Some p →
  (∀ k, is_Some (initial_ s !! symbol "l" k) → is_Some (ls_ s !! k)) →
  for_each (zip (zip (symbol "l" <$> lids) lids) deltas)
    (λ '(l_id, lid, delta),
       self ← get;
       match ls_ self !! lid with
       | None =>
           try_except_raise
             (p ← xs_getitem xid;
              let pred_pose := oplus p delta in
              initial_insert l_id (VPose3 pred_pose);;
              modify (set_ls <[lid := LPose pred_pose]>))
             KeyError
       | Some _ => mret tt
       end) s
  = (sightings ((λ m, (m.1, (VPose3 (oplus p m.2), LPose (oplus p m.2))))
                <$> zip lids deltas) s,
     Ok tt).
Proof.
  revert deltas s. induction lids as [|lid lids IH]; intros deltas s Hp Hl;
    [done|].
  destruct deltas as [|delta deltas]; [done|].
  simpl zip. simpl fmap.
  change (sightings ((lid, (VPose3 (oplus p delta), LPose (oplus p delta)))
                     :: ?l) s)
    with (sightings l (sighted lid (VPose3 (oplus p delta))
                         (LPose (oplus p delta)) s)).
  destruct (sighted_fields lid (VPose3 (oplus p delta))
              (LPose (oplus p delta)) s) as (Hxs & _).
  rewrite <- IH.
  - simpl for_each. unfold mbind at 1, M_bind at 1, bind at 1.
    unfold mbind at 1, M_bind at 1, bind at 1, get at 1. unfold sighted.
    destruct (ls_ s !! lid) eqn:Hlid; [done|].
    unfold try_except_raise. run.
    rewrite xs_getitem_Some with (p := p) by done.
    rewrite initial_insert_fresh; [done|].
    apply eq_None_not_Some. intros Hc%Hl. rewrite Hlid in Hc.
    by destruct Hc.
  - by rewrite Hxs.
  - by apply sighted_staged_l.
Qed.

(** The same loop when the pose is not known: it stops at the first
    landmark that is not in [ls_]. *)
Lemma pose_landmarks_loop_unknown xid lids deltas s :
  xs_ s !! xid = None →
  length lids = length deltas →
  for_each (zip (zip (symbol "l" <$> lids) lids) deltas)
    (λ '(l_id, lid, delta),
       self ← get;
       match ls_ self !! lid with
       | None =>
           try_except_raise
             (p ← xs_getitem xid;
              let pred_pose := oplus p delta in
              initial_insert l_id (VPose3 pred_pose);;
              modify (set_ls <[lid := LPose pred_pose]>))
             KeyError
       | Some _ => mret tt
       end) s
  = (s, if bool_decide (Forall (λ lid, is_Some (ls_ s !! lid)) lids)
        then Ok tt else Raise KeyError).
Proof.
  intros Hp. revert deltas.
  induction lids as [|lid lids IH]; intros deltas Hlen.
  { by rewrite bool_decide_eq_true_2 by constructor. }
  destruct deltas as [|delta deltas]; [done|].
  simpl zip. simpl for_each.
  unfold mbind at 1, M_bind at 1, bind at 1.
  unfold mbind at 1, M_bind at 1, bind at 1, get at 1.
  destruct (ls_ s !! lid) eqn:Hlid.
  - simpl. rewrite IH by (simpl in Hlen; lia).
    f_equal. apply (f_equal (λ b : bool, if b then Ok tt else Raise KeyError)).
    apply bool_decide_ext. rewrite Forall_cons, Hlid.
    split; [by intros ?|by intros [_ ?]].
  - unfold try_except_raise. run.
    rewrite xs_getitem_None by done.
    rewrite bool_decide_eq_false_2; [done|].
    intros [Hc _]%Forall_cons. rewrite Hlid in Hc. by destruct Hc.
Qed.

Lemma zip_fmap_symbol {A B} (f : Symbol → A → B) ch (lids : list Z)
    (l : list A) :
  (λ m, f m.1 m.2) <$> zip (symbol ch <$> lids) l
  = (λ m, f (symbol ch m.1) m.2) <$> zip lids l.
Proof.
  revert l. induction lids as [|lid lids IH]; intros [|d l]; simpl; [done..|].
  by rewrite IH.
Qed.

Lemma add_pose_landmarks_eq xid p lids deltas noise s :
  xs_ s !! xid = Some p →
  (∀ k, is_Some (initial_ s !! symbol "l" k) → is_Some (ls_ s !! k)) →
  length lids = length deltas →
  add_pose_landmarks xid lids deltas noise s
  = (sightings ((λ m, (m.1, (VPose3 (oplus p m.2), LPose (oplus p m.2))))
                <$> zip lids deltas)
       (set_xls (λ l, l ++ ((λ lid, (xid, lid)) <$> lids))
          (set_graph
             (λ g, g ++ ((λ m, BetweenFactorPose3 (symbol "x" xid) m.1 m.2
                                 (noise_or noise (measurement_noise_ s)))
                         <$> zip (symbol "l" <$> lids) deltas))
             s)),
     Ok tt).
Proof.
  intros Hp Hl Hlen. unfold add_pose_landmarks.
  unfold mbind at 1, M_bind at 1, bind at 1, get at 1. cbv zeta.
  rewrite length_fmap, bool_decide_eq_true_2 by done.
  unfold assert, mbind at 1, M_bind at 1, bind at 1, ret at 1.
  unfold mbind at 1, M_bind at 1, bind at 1.
  rewrite (for_each_ext _ _
             (λ m, graph_add
                     (BetweenFactorPose3 (symbol "x" xid) m.1 m.2
                        (noise_or noise (measurement_noise_ s)))))
    by (by intros []).
  rewrite for_each_graph.
  unfold mbind at 1, M_bind at 1, bind at 1, modify at 1.
  by apply pose_landmarks_loop.
Qed.

(** X5: [add_pose_landmarks] from a known pose, with as many increments
    as identifiers, returns; it appends one factor per pair to the graph
    and one edge per identifier to [xls_]; a landmark that is in [ls_]
    keeps its value and is not staged again; one that is not gets the pose
    composed with the increment of its first occurrence in [lids], both in
    [ls_] and among the pending initial values. *)
Theorem add_pose_landmarks_returns xid p lids deltas noise s :
  xs_ s !! xid = Some p →
  (∀ k, is_Some (initial_ s !! symbol "l" k) → is_Some (ls_ s !! k)) →
  length lids = length deltas →
  ∃ s',
    add_pose_landmarks xid lids deltas noise s = (s', Ok tt)
    ∧ graph_ s'
      = graph_ s
        ++ ((λ m, BetweenFactorPose3 (symbol "x" xid) (symbol "l" m.1) m.2
                    (noise_or noise (measurement_noise_ s)))
            <$> zip lids deltas)
    ∧ landmark_edges s' = landmark_edges s ++ ((λ lid, (xid, lid)) <$> lids)
    ∧ xs_ s' = xs_ s
    ∧ (∀ lid,
         ls_ s' !! lid
         = match ls_ s !! lid with
           | Some x => Some x
           | None => (λ delta, LPose (oplus p delta))
                     <$> first_sight lid (zip lids deltas)
           end)
    ∧ (∀ lid,
         initial_ s' !! symbol "l" lid
         = match ls_ s !! lid, first_sight lid (zip lids deltas) with
           | None, Some delta => Some (VPose3 (oplus p delta))
           | _, _ => initial_ s !! symbol "l" lid
           end)
    ∧ (∀ k, Symbol_chr k ≠ "l"%char → initial_ s' !! k = initial_ s !! k).
Proof.
  intros Hp Hl Hlen. eexists. split; [by apply add_pose_landmarks_eq|].
  set (l := (λ m, (m.1, (VPose3 (oplus p m.2), LPose (oplus p m.2))))
            <$> zip lids deltas).
  assert (Hfirst : ∀ lid,
            first_sight lid l
            = (λ delta, (VPose3 (oplus p delta), LPose (oplus p delta)))
              <$> first_sight lid (zip lids deltas)).
  { intros lid. subst l. induction (zip lids deltas) as [|[k d] z IH];
      [done|].
    rewrite fmap_cons, !first_sight_cons. simpl. by case_bool_decide. }
  destruct (sightings_fields l
              (set_xls (λ l, l ++ ((λ lid, (xid, lid)) <$> lids))
                 (set_graph
                    (λ g, g ++ ((λ m, BetweenFactorPose3 (symbol "x" xid)
                                        m.1 m.2
                                        (noise_or noise
                                           (measurement_noise_ s)))
                                <$> zip (symbol "l" <$> lids) deltas))
                    s)))
    as (Hxs & Hg & Hxls & _).
  unfold landmark_edges. rewrite Hxs, Hg, Hxls. simpl. split_and!.
  - f_equal.
    apply (zip_fmap_symbol
             (λ k d, BetweenFactorPose3 (symbol "x" xid) k d
                       (noise_or noise (measurement_noise_ s)))).
  - done.
  - done.
  - intros lid. rewrite sightings_ls, Hfirst. simpl.
    destruct (ls_ s !! lid); [done|].
    by destruct (first_sight lid (zip lids deltas)).
  - intros lid. rewrite sightings_initial, Hfirst. simpl.
    destruct (ls_ s !! lid); [done|].
    by destruct (first_sight lid (zip lids deltas)).
  - intros k Hk. by rewrite sightings_initial_other.
Qed.

Lemma add_pose_landmarks_unknown_eq xid lids deltas noise s :
  length lids = length deltas →
  xs_ s !! xid = None →
  add_pose_landmarks xid lids deltas noise s
  = (set_xls (λ l, l ++ ((λ lid, (xid, lid)) <$> lids))
       (set_graph
          (λ g, g ++ ((λ m, BetweenFactorPose3 (symbol "x" xid) m.1 m.2
                              (noise_or noise (measurement_noise_ s)))
                      <$> zip (symbol "l" <$> lids) deltas))
          s),
     if bool_decide (Forall (λ lid, is_Some (ls_ s !! lid)) lids)
     then Ok tt else Raise KeyError).
Proof.
  intros Hlen Hp. unfold add_pose_landmarks.
  unfold mbind at 1, M_bind at 1, bind at 1, get at 1. cbv zeta.
  rewrite length_fmap, bool_decide_eq_true_2 by done.
  unfold assert, mbind at 1, M_bind at 1, bind at 1, ret at 1.
  unfold mbind at 1, M_bind at 1, bind at 1.
  rewrite (for_each_ext _ _
             (λ m, graph_add
                     (BetweenFactorPose3 (symbol "x" xid) m.1 m.2
                        (noise_or noise (measurement_noise_ s)))))
    by (by intros []).
  rewrite for_each_graph.
  unfold mbind at 1, M_bind at 1, bind at 1, modify at 1.
  by rewrite pose_landmarks_loop_unknown by done.
Qed.

(** X6: the two ways [add_pose_landmarks] fails.  With a number of
    increments other than that of the identifiers it raises AssertionError
    and leaves the object as it was.  From a pose that is not in [xs_] it
    still appends every factor and every edge; it then returns if every
    landmark is already in [ls_], and raises KeyError otherwise; no
    landmark is created or staged. *)
Theorem add_pose_landmarks_fails xid lids deltas noise s :
  (length lids ≠ length deltas →
   add_pose_landmarks xid lids deltas noise s = (s, Raise AssertionError))
  ∧ (length lids = length deltas →
     xs_ s !! xid = None →
     let r := add_pose_landmarks xid lids deltas noise s in
     graph_ r.1
     = graph_ s
       ++ ((λ m, BetweenFactorPose3 (symbol "x" xid) (symbol "l" m.1) m.2
                   (noise_or noise (measurement_noise_ s)))
           <$> zip lids deltas)
     ∧ landmark_edges r.1
       = landmark_edges s ++ ((λ lid, (xid, lid)) <$> lids)
     ∧ ls_ r.1 = ls_ s
     ∧ initial_ r.1 = initial_ s
     ∧ (r.2 = Ok tt ↔ ∀ lid, lid ∈ lids → is_Some (ls_ s !! lid))
     ∧ (r.2 = Ok tt ∨ r.2 = Raise KeyError)).
Proof.
  split.
  - intros Hlen. unfold add_pose_landmarks.
    unfold mbind at 1, M_bind at 1, bind at 1, get at 1. cbv zeta.
    by rewrite length_fmap, bool_decide_eq_false_2 by done.
  - intros Hlen Hp r. subst r.
    rewrite add_pose_landmarks_unknown_eq by done. simpl. split_and!.
    + f_equal.
      apply (zip_fmap_symbol
               (λ k d, BetweenFactorPose3 (symbol "x" xid) k d
                         (noise_or noise (measurement_noise_ s)))).
    + done.
    + done.
    + done.
    + rewrite <- Forall_forall. case_bool_decide; [done|].
      split; [intros [=]|done].
    + case_bool_decide; eauto.
Qed.

(** The loop of [add_point_landmarks] when the pose is known. *)
Lemma point_landmarks_loop xid p lids pts3d v :
  xs_ (base v) !! xid = Some p →
  (∀ k, is_Some (initial_ (base v) !! symbol "l" k) →
        is_Some (ls_ (base v) !! k)) →
  for_each (zip (zip (symbol "l" <$> lids) lids) pts3d)
    (λ '(l_id, lid, pt3),
       self ← get;
       match ls_ (base self) !! lid with
       | None =>
           try_except_raise
             (lift (p ← xs_getitem xid;
                    let pred_pt3 := transform_from p pt3 in
                    initial_insert l_id (VPoint3 pred_pt3);;
                    modify (set_ls <[lid := LPoint pred_pt3]>)))
             RuntimeError
       | Some _ => mret tt
       end) v
  = (set_base
       (sightings ((λ m, (m.1, (VPoint3 (transform_from p m.2),
                                LPoint (transform_from p m.2))))
                   <$> zip lids pts3d)) v,
     Ok tt).
Proof.
  revert pts3d v. induction lids as [|lid lids IH]; intros pts3d v Hp Hl.
  { simpl. by rewrite <- (set_base_id v) at 1. }
  destruct pts3d as [|pt3 pts3d].
  { simpl. by rewrite <- (set_base_id v) at 1. }
  simpl zip. simpl fmap.
  set (val := VPoint3 (transform_from p pt3)).
  set (lm := LPoint (transform_from p pt3)).
  destruct (sighted_fields lid val lm (base v)) as (Hxs & _).
  specialize (IH pts3d (set_base (sighted lid val lm) v)).
  simpl in IH. rewrite Hxs in IH.
  specialize (IH Hp (sighted_staged_l lid val lm (base v) Hl)).
  transitivity (set_base
                  (sightings ((λ m, (m.1, (VPoint3 (transform_from p m.2),
                                           LPoint (transform_from p m.2))))
                              <$> zip lids pts3d))
                  (set_base (sighted lid val lm) v), Ok tt); [|done].
  rewrite <- IH. clear IH.
  simpl for_each. unfold mbind at 1, M_bind at 1, bind at 1.
  unfold mbind at 1, M_bind at 1, bind at 1, get at 1.
  destruct (ls_ (base v) !! lid) eqn:Hlid.
  - assert (set_base (sighted lid val lm) v = v) as ->; [|done].
    rewrite <- (set_base_id v) at 2. unfold set_base, sighted.
    by rewrite Hlid.
  - unfold try_except_raise, lift. run.
    rewrite xs_getitem_Some with (p := p) by done.
    rewrite initial_insert_fresh.
    2: { apply eq_None_not_Some. intros Hc%Hl. rewrite Hlid in Hc.
         by destruct Hc. }
    unfold set_base, sighted. rewrite Hlid. done.
Qed.

(** The same loop when the pose is not known. *)
Lemma point_landmarks_loop_unknown xid lids pts3d v :
  xs_ (base v) !! xid = None →
  length lids = length pts3d →
  for_each (zip (zip (symbol "l" <$> lids) lids) pts3d)
    (λ '(l_id, lid, pt3),
       self ← get;
       match ls_ (base self) !! lid with
       | None =>
           try_except_raise
             (lift (p ← xs_getitem xid;
                    let pred_pt3 := transform_from p pt3 in
                    initial_insert l_id (VPoint3 pred_pt3);;
                    modify (set_ls <[lid := LPoint pred_pt3]>)))
             RuntimeError
       | Some _ => mret tt
       end) v
  = (v, if bool_decide (Forall (λ lid, is_Some (ls_ (base v) !! lid)) lids)
        then Ok tt else Raise RuntimeError).
Proof.
  intros Hp. revert pts3d.
  induction lids as [|lid lids IH]; intros pts3d Hlen.
  { by rewrite bool_decide_eq_true_2 by constructor. }
  destruct pts3d as [|pt3 pts3d]; [done|].
  simpl zip. simpl for_each.
  unfold mbind at 1, M_bind at 1, bind at 1.
  unfold mbind at 1, M_bind at 1, bind at 1, get at 1.
  destruct (ls_ (base v) !! lid) eqn:Hlid.
  - simpl. rewrite IH by (simpl in Hlen; lia).
    f_equal.
    apply (f_equal (λ b : bool, if b then Ok tt else Raise RuntimeError)).
    apply bool_decide_ext. rewrite Forall_cons, Hlid.
    split; [by intros ?|by intros [_ ?]].
  - unfold try_except_raise, lift. run.
    rewrite xs_getitem_None by done. rewrite set_base_id.
    rewrite bool_decide_eq_false_2; [done|].
    intros [Hc _]%Forall_cons. rewrite Hlid in Hc. by destruct Hc.
Qed.

Lemma add_point_landmarks_start xid lids pts pts3d noise v :
  length lids = length pts →
  length pts = length pts3d →
  add_point_landmarks xid lids pts pts3d noise v
  = for_each (zip (zip (symbol "l" <$> lids) lids) pts3d)
      (λ '(l_id, lid, pt3),
         self ← get;
         match ls_ (base self) !! lid with
         | None =>
             try_except_raise
               (lift (p ← xs_getitem xid;
                      let pred_pt3 := transform_from p pt3 in
                      initial_insert l_id (VPoint3 pred_pt3);;
                      modify (set_ls <[lid := LPoint pred_pt3]>)))
               RuntimeError
         | Some _ => mret tt
         end)
      (set_base
         (set_graph
            (λ g, g ++ ((λ m, GenericProjectionFactorPose3Point3Cal3_S2 m.2
                                (noise_or noise (image_measurement_noise_ v))
                                (symbol "x" xid) m.1 (K_ v))
                        <$> zip (symbol "l" <$> lids) pts)))
         (set_lid_count (λ c, Counter_add c lids) v)).
Proof.
  intros Hlen Hlen3. unfold add_point_landmarks.
  unfold mbind at 1, M_bind at 1, bind at 1, modify at 1. cbv zeta.
  unfold mbind at 1, M_bind at 1, bind at 1, get at 1.
  rewrite length_fmap, !bool_decide_eq_true_2 by done.
  unfold assert, mbind at 1, M_bind at 1, bind at 1, ret at 1.
  change (true && true) with true. cbv beta iota.
  unfold mbind at 1, M_bind at 1, bind at 1.
  rewrite (for_each_ext _ _
             (λ m, lift (graph_add
                           (GenericProjectionFactorPose3Point3Cal3_S2 m.2
                              (noise_or noise (image_measurement_noise_ v))
                              (symbol "x" xid) m.1 (K_ v)))))
    by (by intros []).
  by rewrite for_each_graph_add.
Qed.

(** X7: [add_point_landmarks] from a known pose, with as many pixels and
    points as identifiers, returns; it appends one projection factor per
    pair to the graph and no edge to [xls_]; a landmark that is in [ls_]
    keeps its value and is not staged again, one that is not gets the
    point of its first occurrence in [lids] moved by the pose; every
    occurrence is added to [lid_count_]. *)
Theorem add_point_landmarks_returns xid p lids pts pts3d noise v :
  xs_ (base v) !! xid = Some p →
  (∀ k, is_Some (initial_ (base v) !! symbol "l" k) →
        is_Some (ls_ (base v) !! k)) →
  length lids = length pts →
  length pts = length pts3d →
  ∃ v',
    add_point_landmarks xid lids pts pts3d noise v = (v', Ok tt)
    ∧ graph_ (base v')
      = graph_ (base v)
        ++ ((λ m, GenericProjectionFactorPose3Point3Cal3_S2 m.2
                    (noise_or noise (image_measurement_noise_ v))
                    (symbol "x" xid) (symbol "l" m.1) (K_ v))
            <$> zip lids pts)
    ∧ landmark_edges (base v') = landmark_edges (base v)
    ∧ xs_ (base v') = xs_ (base v)
    ∧ (∀ lid,
         ls_ (base v') !! lid
         = match ls_ (base v) !! lid with
           | Some x => Some x
           | None => (λ pt3, LPoint (transform_from p pt3))
                     <$> first_sight lid (zip lids pts3d)
           end)
    ∧ (∀ lid,
         initial_ (base v') !! symbol "l" lid
         = match ls_ (base v) !! lid, first_sight lid (zip lids pts3d) with
           | None, Some pt3 => Some (VPoint3 (transform_from p pt3))
           | _, _ => initial_ (base v) !! symbol "l" lid
           end)
    ∧ lid_count_ v' = Counter_add (lid_count_ v) lids
    ∧ lid_factors_ v' = lid_factors_ v.
Proof.
  intros Hp Hl Hlen Hlen3. rewrite add_point_landmarks_start by done.
  rewrite (point_landmarks_loop xid p) by done.
  eexists. split; [reflexivity|].
  set (l := (λ m, (m.1, (VPoint3 (transform_from p m.2),
                         LPoint (transform_from p m.2))))
            <$> zip lids pts3d).
  assert (Hfirst : ∀ lid,
            first_sight lid l
            = (λ pt3, (VPoint3 (transform_from p pt3),
                       LPoint (transform_from p pt3)))
              <$> first_sight lid (zip lids pts3d)).
  { intros lid. subst l. induction (zip lids pts3d) as [|[k d] z IH];
      [done|].
    rewrite fmap_cons, !first_sight_cons. simpl. by case_bool_decide. }
  unfold landmark_edges. simpl.
  match goal with
  | |- context [sightings l ?b] =>
      destruct (sightings_fields l b) as (Hxs & Hg & Hxls & _);
      rewrite Hxs, Hg, Hxls;
      pose proof (sightings_ls l b) as Hls;
      pose proof (sightings_initial l b) as Hin
  end.
  simpl in *. split_and!.
  - f_equal.
    apply (zip_fmap_symbol
             (λ k d, GenericProjectionFactorPose3Point3Cal3_S2 d
                       (noise_or noise (image_measurement_noise_ v))
                       (symbol "x" xid) k (K_ v))).
  - done.
  - done.
  - intros lid. rewrite Hls, Hfirst.
    destruct (ls_ (base v) !! lid); [done|].
    by destruct (first_sight lid (zip lids pts3d)).
  - intros lid. rewrite Hin, Hfirst.
    destruct (ls_ (base v) !! lid); [done|].
    by destruct (first_sight lid (zip lids pts3d)).
  - done.
  - done.
Qed.

(** X8: the two ways [add_point_landmarks] fails; in both the
    occurrences have already been added to [lid_count_].  With lengths
    that differ it raises AssertionError and changes nothing else.  From a
    pose that is not in [xs_] it still appends every projection factor;
    it then returns if every landmark is already in [ls_] and raises
    RuntimeError otherwise; no landmark is created or staged. *)
Theorem add_point_landmarks_fails xid lids pts pts3d noise v :
  (length lids ≠ length pts ∨ length pts ≠ length pts3d →
   add_point_landmarks xid lids pts pts3d noise v
   = (set_lid_count (λ c, Counter_add c lids) v, Raise AssertionError))
  ∧ (length lids = length pts →
     length pts = length pts3d →
     xs_ (base v) !! xid = None →
     let r := add_point_landmarks xid lids pts pts3d noise v in
     graph_ (base r.1)
     = graph_ (base v)
       ++ ((λ m, GenericProjectionFactorPose3Point3Cal3_S2 m.2
                   (noise_or noise (image_measurement_noise_ v))
                   (symbol "x" xid) (symbol "l" m.1) (K_ v))
           <$> zip lids pts)
     ∧ ls_ (base r.1) = ls_ (base v)
     ∧ initial_ (base r.1) = initial_ (base v)
     ∧ lid_count_ r.1 = Counter_add (lid_count_ v) lids
     ∧ (r.2 = Ok tt ↔ ∀ lid, lid ∈ lids → is_Some (ls_ (base v) !! lid))
     ∧ (r.2 = Ok tt ∨ r.2 = Raise RuntimeError)).
Proof.
  split.
  - intros Hlen. unfold add_point_landmarks.
    unfold mbind at 1, M_bind at 1, bind at 1, modify at 1. cbv zeta.
    unfold mbind at 1, M_bind at 1, bind at 1, get at 1.
    rewrite length_fmap.
    destruct Hlen as [Hlen|Hlen].
    + by rewrite (bool_decide_eq_false_2 (length lids = _)) by done.
    + rewrite (bool_decide_eq_false_2 (length pts = _)) by done.
      by rewrite andb_false_r.
  - intros Hlen Hlen3 Hp r. subst r.
    rewrite add_point_landmarks_start by done.
    rewrite point_landmarks_loop_unknown by (done || congruence).
    simpl. split_and!.
    + f_equal.
      apply (zip_fmap_symbol
               (λ k d, GenericProjectionFactorPose3Point3Cal3_S2 d
                         (noise_or noise (image_measurement_noise_ v))
                         (symbol "x" xid) k (K_ v))).
    + done.
    + done.
    + done.
    + rewrite <- Forall_forall. case_bool_decide; [done|].
      split; [intros [=]|done].
    + case_bool_decide; eauto.
Qed.

(** ** A pending landmark seen through the direct method *)

Lemma first_sight_is_Some {A} lid (l : list (Z * A)) :
  lid ∈ l.*1 → is_Some (first_sight lid l).
Proof.
  induction l as [|[k a] l IH]; [by intros ?%elem_of_nil|].
  rewrite fmap_cons, first_sight_cons. simpl.
  case_bool_decide; [by eauto|].
  intros [?|?]%elem_of_cons; [done|by apply IH].
Qed.

(** The round of an entry that passes the tests and whose landmark is
    already committed stops at the assertion. *)
Lemma body_committed_raises current lid acc v r :
  lid_factors_ v !! lid = Some r →
  verdict v current r = Accepted →
  is_Some (ls_ (base v) !! lid) →
  smart_update_body current lid acc v = (v, Raise AssertionError).
Proof.
  intros Hr (H1 & H2 & H3)%verdict_Accepted [x Hls].
  unfold smart_update_body.
  unfold mbind, M_bind, bind. rewrite (lid_factors_getitem_Some lid r) by done.
  unfold get at 1. cbv beta iota. rewrite H1, H2. cbv zeta. rewrite H3.
  by rewrite Hls.
Qed.

(** With such an entry among the keys to visit, the rounds raise. *)
Lemma rounds_committed current lid r l acc v :
  lid ∈ l →
  lid_factors_ v !! lid = Some r →
  verdict v current r = Accepted →
  is_Some (ls_ (base v) !! lid) →
  ∃ v' e, rounds current l acc v = (v', Raise e).
Proof.
  revert acc v. induction l as [|k l IH]; intros acc v Hin Hr Hv Hls;
    [by apply elem_of_nil in Hin|].
  rewrite rounds_cons.
  destruct (decide (k = lid)) as [->|Hk].
  { rewrite (body_committed_raises current lid acc v r) by done. eauto. }
  apply elem_of_cons in Hin as [->|Hin]; [done|].
  pose proof (body_keeps_entry current k acc lid v Hk) as He.
  pose proof (body_keeps_landmark current k acc lid v Hk) as Hl.
  unfold after, on_base, keeps_entry, keeps_landmark in He, Hl.
  destruct (smart_update_body current k acc v) as [v1 [acc1|e]];
    [|by eauto].
  simpl in He, Hl. destruct He as (He & Hm & Hpx). destruct Hl as [Hl _].
  apply (IH acc1 v1 Hin).
  - by rewrite He.
  - by rewrite (verdict_ext v).
  - by rewrite Hl.
Qed.

(** C6: [add_point_landmarks] commits a landmark without looking at
    [lid_factors_].  On an object in which no identifier has both a
    pending entry and a landmark, a returning call from a known pose whose
    [lids] contain an identifier with a pending entry leaves that entry as
    it was and commits the landmark: the two coexist.  If the entry then
    has enough observations and passes the tests, its round of the settle
    pass stops at the assertion [lid not in self.ls_] with AssertionError,
    and the settle pass raises. *)
Theorem pending_entry_committed xid p lids pts pts3d noise v lid r :
  pending_uncommitted v →
  (∀ k, is_Some (initial_ (base v) !! symbol "l" k) →
        is_Some (ls_ (base v) !! k)) →
  xs_ (base v) !! xid = Some p →
  length lids = length pts →
  length pts = length pts3d →
  lid ∈ lids →
  lid_factors_ v !! lid = Some r →
  ∃ v',
    add_point_landmarks xid lids pts pts3d noise v = (v', Ok tt)
    ∧ lid_factors_ v' !! lid = Some r
    ∧ is_Some (ls_ (base v') !! lid)
    ∧ ¬ pending_uncommitted v'
    ∧ (let current := calculateEstimate (slam_ (base v')) in
       examined v' r →
       passes_checks v' current r →
       (∀ acc, smart_update_body current lid acc v'
               = (v', Raise AssertionError))
       ∧ ∃ u e, smart_update v' = (u, Raise e)).
Proof.
  intros Hpu Hst Hp Hlen Hlen3 Hin Hr.
  rewrite add_point_landmarks_start by done.
  rewrite (point_landmarks_loop xid p) by done.
  eexists. split; [reflexivity|].
  set (l := (λ m, (m.1, (VPoint3 (transform_from p m.2),
                         LPoint (transform_from p m.2))))
            <$> zip lids pts3d).
  match goal with
  | |- lid_factors_ (set_base (sightings l) ?u) !! lid = _ ∧ _ =>
      set (v0 := u) in *
  end.
  set (v' := set_base (sightings l) v0).
  assert (Hnone : ls_ (base v0) !! lid = None) by (apply Hpu; eauto).
  assert (Hfirst : is_Some (first_sight lid l)).
  { apply first_sight_is_Some. subst l.
    rewrite <- list_fmap_compose.
    change (lid ∈ (zip lids pts3d).*1).
    rewrite fst_zip by lia. done. }
  assert (Hr' : lid_factors_ v' !! lid = Some r) by done.
  assert (Hl' : is_Some (ls_ (base v') !! lid)).
  { change (is_Some (ls_ (sightings l (base v0)) !! lid)).
    rewrite sightings_ls, Hnone. destruct Hfirst as [x ->]. simpl. eauto. }
  split_and!; [done|done| |].
  - intros Hpu'. destruct Hl' as [x Hx].
    specialize (Hpu' lid (ex_intro _ r Hr')). congruence.
  - intros current Hex Hpass.
    assert (Hv : verdict v' current r = Accepted)
      by (by apply verdict_Accepted_iff).
    split; [intros acc; by apply (body_committed_raises current lid acc v' r)|].
    rewrite smart_update_rounds. fold current.
    destruct (rounds_committed current lid r
                (map_to_list (lid_factors_ v')).*1 ([], []) v')
      as (u & e & ->); [|done..|by eauto].
    apply elem_of_keys. eauto.
Qed.


(** ** The counter of sightings *)

Lemma occurrences_cons lid x lids :
  occurrences lid (x :: lids)
  = (if bool_decide (x = lid) then 1 else 0) + occurrences lid lids.
Proof.
  unfold occurrences. rewrite filter_cons.
  case_bool_decide; case_decide; try done; simpl length; lia.
Qed.

Lemma occurrences_nonneg lid lids : 0 ≤ occurrences lid lids.
Proof. unfold occurrences. lia. Qed.

Lemma Counter_add_lookup c lids lid n :
  0 ≤ n →
  c !! lid = (if bool_decide (0 < n) then Some n else None) →
  Counter_add c lids !! lid
  = (if bool_decide (0 < n + occurrences lid lids)
     then Some (n + occurrences lid lids) else None).
Proof.
  unfold Counter_add. revert c n.
  induction lids as [|x lids IH]; intros c n Hn Hc; simpl.
  { unfold occurrences. simpl. by rewrite Z.add_0_r. }
  rewrite occurrences_cons. pose proof (occurrences_nonneg lid lids).
  destruct (decide (x = lid)) as [->|Hne].
  - rewrite (bool_decide_eq_true_2 (lid = lid)) by done.
    rewrite (IH _ (n + 1)); [by rewrite Z.add_assoc|lia|].
    rewrite lookup_insert_eq, Hc, (bool_decide_eq_true_2 (0 < n + 1)) by lia.
    case_bool_decide; simpl; f_equal; lia.
  - rewrite (bool_decide_eq_false_2 (x = lid)) by done.
    rewrite (IH _ n); [done|done|]. by rewrite lookup_insert_ne.
Qed.

Lemma after_lift_lid_count {A} (m : M BaseSLAM A) v :
  after (same lid_count_) (lift m) v.
Proof. unfold after, same, lift. by destruct (m (base v)). Qed.

Ltac frame_count :=
  repeat first
    [ match goal with
      | |- after (same lid_count_) (lift _) _ => apply after_lift_lid_count
      end
    | frame_step
    | progress frame_unfold ].

Lemma call_lid_count op v :
  lid_count_ (call op v).1
  = match op with
    | Op_add_point_landmarks _ lids _ _ _
    | Op_add_point_landmarks_incremental lids _ _ _ =>
        Counter_add (lid_count_ v) lids
    | _ => lid_count_ v
    end.
Proof.
  assert (Hrest : ∀ xid lids pts pts3d noise u,
            lid_count_ (add_point_landmarks xid lids pts pts3d noise u).1
            = Counter_add (lid_count_ u) lids).
  { intros. unfold add_point_landmarks.
    unfold mbind at 1, M_bind at 1, bind at 1, modify at 1.
    match goal with
    | |- lid_count_ (?m ?u).1 = _ =>
        assert (H : after (same lid_count_) m u) by frame_count;
        by rewrite H
    end. }
  destruct op; try apply Hrest;
    try (match goal with
         | |- lid_count_ (call ?op v).1 = lid_count_ v =>
             change (after (same lid_count_) (call op) v)
         end; by frame_count).
Qed.

Lemma calls_lid_count ops v0 v lid n :
  0 ≤ n →
  lid_count_ v0 !! lid = (if bool_decide (0 < n) then Some n else None) →
  calls ops v0 = (v, Ok tt) →
  lid_count_ v !! lid
  = (if bool_decide (0 < n + point_sightings lid ops)
     then Some (n + point_sightings lid ops) else None).
Proof.
  revert v0 n. induction ops as [|op ops IH]; intros v0 n Hn H0 Hrun.
  { injection Hrun as <-. simpl. by rewrite Z.add_0_r. }
  apply bind_Ok_inv in Hrun as ([] & v1 & H1 & Hrun).
  pose proof (call_lid_count op v0) as Hc. rewrite H1 in Hc. simpl in Hc.
  assert (Hstep : ∀ lids,
            Counter_add (lid_count_ v0) lids !! lid
            = (if bool_decide (0 < n + occurrences lid lids)
               then Some (n + occurrences lid lids) else None))
    by (intros; by apply Counter_add_lookup).
  destruct op; simpl;
    try (apply (IH v1 n); [done|by rewrite Hc|done]).
  all: pose proof (occurrences_nonneg lid lids);
    rewrite Z.add_assoc; apply (IH v1); [lia|by rewrite Hc|done].
Qed.

(** X9: [lid_count_] counts the sightings made through
    [add_point_landmarks] (directly or from the latest pose) and no
    others: on an engine whose counter is empty, after any sequence of
    calls that return, the count of a landmark is the number of its
    occurrences in the [lids] of those calls, and a landmark that was
    never passed to them has no count; sightings through
    [add_point_landmarks_smart] are not counted. *)
Theorem lid_count_counts ops v0 v lid :
  lid_count_ v0 = ∅ →
  calls ops v0 = (v, Ok tt) →
  lid_count_ v !! lid
  = (if bool_decide (0 < point_sightings lid ops)
     then Some (point_sightings lid ops) else None)
  ∧ (∀ xid lids pts u,
       lid_count_ (add_point_landmarks_smart xid lids pts u).1
       = lid_count_ u).
Proof.
  intros H0 Hrun. split.
  - apply (calls_lid_count ops v0 v lid 0); [done| |done].
    by rewrite H0, lookup_empty.
  - intros xid lids pts u.
    apply (call_lid_count (Op_add_point_landmarks_smart xid lids pts) u).
Qed.

(** ** What a settle pass leaves *)

(** The loop of the pass over the keys [l] of [v]. *)
Lemma rounds_settle v l :
  let current := calculateEstimate (slam_ (base v)) in
  NoDup l →
  (∀ k, k ∈ l ↔ is_Some (lid_factors_ v !! k)) →
  match rounds current l ([], []) v with
  | (v', Ok acc) =>
      same_settings v v'
      ∧ (∀ k, lid_factors_ v' !! k = skipped_entry v k)
      ∧ graph_ (base v') = graph_ (base v) ++ promoted_factors v acc.1
      ∧ acc.2 = promoted_points v acc.1
      ∧ (∀ k, k ∈ acc.1 ↔
              ∃ r, lid_factors_ v !! k = Some r
                   ∧ verdict v current r = Accepted)
  | (v', Raise _) => lid_factors_ v' ⊆ lid_factors_ v
  end.
Proof.
  intros current Hnd Hin.
  set (I := λ (l : list Z) (acc : list Z * list Point3) (u : VisualSLAM),
         NoDup l
         ∧ (∀ k, k ∈ l → is_Some (lid_factors_ v !! k))
         ∧ same_settings v u
         ∧ (∀ k, lid_factors_ u !! k
                 = if bool_decide (k ∈ l) then lid_factors_ v !! k
                   else skipped_entry v k)
         ∧ graph_ (base u) = graph_ (base v) ++ promoted_factors v acc.1
         ∧ acc.2 = promoted_points v acc.1
         ∧ (∀ k, k ∈ acc.1 ↔
                 (k ∉ l) ∧ ∃ r, lid_factors_ v !! k = Some r
                                ∧ verdict v current r = Accepted)).
  set (Q := λ u : VisualSLAM, lid_factors_ u ⊆ lid_factors_ v).
  assert (Hsub : ∀ l acc u, I l acc u → Q u).
  { intros l' acc u (_ & _ & _ & Hlook & _). unfold Q.
    apply map_subseteq_spec. intros k r. rewrite Hlook.
    case_bool_decide; [done|]. unfold skipped_entry.
    destruct (lid_factors_ v !! k) as [r'|]; simpl; [|done].
    destruct (verdict v _ r'); intros Hr; by simplify_eq. }
  assert (Hstep : ∀ k l acc u, I (k :: l) acc u →
            match smart_update_body current k acc u with
            | (v1, Ok acc1) => I l acc1 v1
            | (v1, Raise _) => Q v1
            end).
  { intros k l' acc u HI.
    pose proof (Hsub _ _ _ HI) as HQ.
    destruct HI as (Hnd' & Hin' & Hset & Hlook & Hg & Hp & Hacc).
    apply NoDup_cons in Hnd' as [Hk Hnd'].
    destruct (Hin' k) as [r Hr]; [by left|].
    assert (Hu : lid_factors_ u !! k = Some r).
    { rewrite Hlook, bool_decide_eq_true_2 by by left. done. }
    assert (Hv : verdict u current r = verdict v current r).
    { destruct Hset as (? & ? & _). by apply verdict_ext. }
    assert (Hother : ∀ j, j ≠ k →
              bool_decide (j ∈ k :: l') = bool_decide (j ∈ l')).
    { intros j Hj. apply bool_decide_ext. rewrite elem_of_cons.
      split; [by intros [?|?]|by right]. }
    assert (Hskip : skipped_entry v k
                    = match verdict v current r with
                      | Skipped => Some r
                      | _ => None
                      end).
    { unfold skipped_entry. by rewrite Hr. }
    assert (Hent : entry v k = r) by (unfold entry; by rewrite Hr).
    assert (Hin'' : ∀ j, j ∈ l' → is_Some (lid_factors_ v !! j)).
    { intros j Hj. apply Hin'. by right. }
    assert (Hsame : verdict v current r ≠ Accepted →
              ∀ j, j ∈ acc.1 ↔
                   (j ∉ l') ∧ ∃ r, lid_factors_ v !! j = Some r
                                   ∧ verdict v current r = Accepted).
    { intros Hc j. rewrite Hacc, not_elem_of_cons.
      split; [by intros [[_ ?] ?]|]. intros [Hj (r' & Hr' & Ha)].
      split; [split; [|done]|by exists r']. intros ->. congruence. }
    destruct (body_round current k acc u r Hu)
      as [[Hc E]|[[Hc E]|[(Hc & _ & _ & E)|(Hc & e & E)]]];
      rewrite E; [..|done]; rewrite Hv in Hc.
    - split_and!; try done; [|apply Hsame; congruence]. intros j.
      destruct (decide (j = k)) as [->|Hj].
      + by rewrite Hu, Hskip, Hc, bool_decide_eq_false_2.
      + by rewrite Hlook, Hother.
    - split_and!; try done; [|apply Hsame; congruence]. intros j. simpl.
      destruct (decide (j = k)) as [->|Hj].
      + by rewrite lookup_delete_eq, Hskip, Hc, bool_decide_eq_false_2.
      + by rewrite lookup_delete_ne, Hlook, Hother.
    - destruct Hset as (? & ? & HK & Hn & ? & ?).
      split_and!; try done; simpl.
      + intros j. destruct (decide (j = k)) as [->|Hj].
        * by rewrite lookup_delete_eq, Hskip, Hc, bool_decide_eq_false_2.
        * by rewrite lookup_delete_ne, Hlook, Hother.
      + rewrite Hg, <- app_assoc. f_equal. unfold promoted_factors.
        rewrite fmap_app, join_app. simpl. rewrite app_nil_r, Hent.
        f_equal. unfold projection_factors. by rewrite HK, Hn.
      + rewrite Hp. unfold promoted_points. rewrite fmap_app. simpl.
        by rewrite Hent.
      + intros j. rewrite elem_of_app, list_elem_of_singleton, Hacc,
          not_elem_of_cons.
        split.
        * intros [[[_ ?] ?]| ->]; [done|]. split; [done|by exists r].
        * intros [Hj (r' & Hr' & Ha)].
          destruct (decide (j = k)) as [->|Hne]; [by right|left].
          split; [done|by exists r']. }
  assert (HI0 : I l ([], []) v).
  { unfold I. split_and!; try done.
    - intros k. by rewrite Hin.
    - intros k. case_bool_decide as Hk; [done|].
      rewrite Hin in Hk. apply eq_None_not_Some in Hk.
      unfold skipped_entry. by rewrite Hk.
    - unfold promoted_factors. simpl. by rewrite app_nil_r.
    - intros k. simpl. split; [by intros ?%elem_of_nil|].
      intros [Hk (r & Hr & _)]. destruct Hk. apply Hin. eauto. }
  pose proof (rounds_ind current I Q Hstep l ([], []) v HI0) as Hrun.
  destruct (rounds current l ([], []) v) as [v' [acc|e]]; [|done].
  destruct Hrun as (_ & _ & Hset & Hlook & Hg & Hp & Hacc).
  split_and!; try done.
  intros k. rewrite Hacc. split; [by intros [_ ?]|].
  intros ?. split; [by intros ?%elem_of_nil|done].
Qed.

Lemma smart_update_settle v :
  match smart_update v with
  | (v', Ok (lids, pts3)) =>
      (∀ k, lid_factors_ v' !! k = skipped_entry v k)
      ∧ graph_ (base v')
        = graph_ (base v) ++ promoted_factors v lids ++ settle_priors v lids
      ∧ pts3 = promoted_points v lids
      ∧ (∀ k, k ∈ lids ↔
              ∃ r, lid_factors_ v !! k = Some r
                   ∧ verdict v (calculateEstimate (slam_ (base v))) r
                     = Accepted)
  | (v', Raise _) => lid_factors_ v' ⊆ lid_factors_ v
  end.
Proof.
  pose proof (rounds_settle v (map_to_list (lid_factors_ v)).*1
                (NoDup_fst_map_to_list _) (elem_of_keys _)) as Hrun.
  rewrite smart_update_rounds. simpl in Hrun.
  destruct (rounds _ _ _ v) as [v1 [[lids pts3]|e]]; [|done].
  destruct Hrun as ((_ & _ & _ & _ & Hn & Hidx) & Hlook & Hg & Hp & Hacc).
  simpl in Hg, Hp, Hacc. subst pts3.
  assert (Hlen : length lids = length (promoted_points v lids))
    by (unfold promoted_points; by rewrite length_fmap).
  assert (Hres : match promoted_points v lids with
                 | [] => ([], [])
                 | _ => if bool_decide
                             (length lids = length (promoted_points v lids))
                        then (lids, promoted_points v lids) else ([], [])
                 end = (lids, promoted_points v lids)).
  { rewrite bool_decide_eq_true_2 by done.
    destruct lids; [done|]. done. }
  rewrite Hres. unfold settle_priors, index in *. rewrite Hidx, Hn.
  destruct (bool_decide (idx_ (base v) ≤ 2)); simpl; split_and!; try done.
  - by rewrite Hg, app_assoc.
  - by rewrite Hg, app_nil_r.
Qed.

Lemma smart_update_subset v :
  lid_factors_ (smart_update v).1 ⊆ lid_factors_ v.
Proof.
  pose proof (smart_update_settle v) as H.
  destruct (smart_update v) as [v' [[lids pts3]|e]]; simpl; [|done].
  destruct H as (Hlook & _).
  apply map_subseteq_spec. intros k r. rewrite Hlook.
  unfold skipped_entry.
  destruct (lid_factors_ v !! k) as [r'|]; simpl; [|done].
  destruct (verdict v _ r'); intros Hr; by simplify_eq.
Qed.

(** X10: a settle pass never adds or alters an entry of [lid_factors_]:
    what it leaves is part of what it found, whether it returns or
    raises; and when it returns, the entries left are exactly those that
    it skipped (marked [in_graph], or with fewer than [min_landmark_obs_]
    observations), each as it was. *)
Theorem settle_pass_entries v :
  lid_factors_ (smart_update v).1 ⊆ lid_factors_ v
  ∧ (∀ lids pts3, (smart_update v).2 = Ok (lids, pts3) →
       ∀ k, lid_factors_ (smart_update v).1 !! k = skipped_entry v k).
Proof.
  split; [apply smart_update_subset|].
  pose proof (smart_update_settle v) as H.
  destruct (smart_update v) as [v' [[lids pts3]|e]]; simpl; [|done].
  by destruct H as (Hlook & _).
Qed.

(** X11: what a returning settle pass adds to the pending graph, in
    order: for each landmark it returns, the projection factors of the
    measurements of its entry, in the order of the entry; then, only while
    the latest pose index is at most 2, one point prior per landmark
    returned.  The landmarks returned are those of the entries that pass
    every test, and the points returned are their triangulations. *)
Theorem settle_pass_graph v v' lids pts3 :
  smart_update v = (v', Ok (lids, pts3)) →
  graph_ (base v')
  = graph_ (base v) ++ promoted_factors v lids ++ settle_priors v lids
  ∧ pts3 = promoted_points v lids
  ∧ (∀ k, k ∈ lids ↔
          ∃ r, lid_factors_ v !! k = Some r
               ∧ examined v r
               ∧ passes_checks v (calculateEstimate (slam_ (base v))) r).
Proof.
  intros Hrun. pose proof (smart_update_settle v) as H.
  rewrite Hrun in H. destruct H as (_ & Hg & Hp & Hacc).
  split_and!; try done. intros k. rewrite Hacc.
  by setoid_rewrite verdict_Accepted_iff.
Qed.

(** ** The entries count their measurements *)

Lemma observe_counted xid v m :
  entries_counted v → entries_counted (observe xid v m).
Proof.
  intros Hv. unfold observe. destruct (ls_ (base v) !! m.1); [done|].
  intros lid r. simpl. rewrite lookup_insert_Some.
  intros [[<- <-]|[_ Hr]]; [|by eapply Hv].
  unfold observed, entry_counted, add_single, keys. simpl.
  rewrite length_app, fmap_app. simpl.
  destruct (lid_factors_ v !! m.1) as [r0|] eqn:E; simpl.
  - destruct (Hv _ _ E) as (Hg & Hc & H1 & Hk).
    split_and!; [done|lia|lia|].
    intros k [?| ->%list_elem_of_singleton]%elem_of_app; [by apply Hk|done].
  - split_and!; [done..|].
    by intros k ->%list_elem_of_singleton.
Qed.

Lemma add_point_landmarks_smart_counted xid lids pts v :
  entries_counted v →
  entries_counted (add_point_landmarks_smart xid lids pts v).1.
Proof.
  intros Hv. destruct (decide (length lids = length pts)) as [Hlen|Hlen].
  - rewrite add_point_landmarks_smart_observe by done. simpl.
    revert v Hv. induction (zip lids pts) as [|m l IH]; intros v Hv; [done|].
    simpl. apply IH. by apply observe_counted.
  - unfold add_point_landmarks_smart.
    by rewrite length_fmap, bool_decide_eq_false_2 by done.
Qed.

Lemma call_counted op v :
  entries_counted v → entries_counted (call op v).1.
Proof.
  intros Hv. pose proof (call_same_entries op v) as Hsame.
  destruct op; unfold after, same_entries in Hsame;
    try (intros lid r; rewrite Hsame; apply Hv).
  - by apply add_point_landmarks_smart_counted.
  - by apply add_point_landmarks_smart_counted.
  - intros lid r Hr. simpl in Hr. apply (Hv lid).
    pose proof (smart_update_subset v) as Hsub.
    rewrite map_subseteq_spec in Hsub. apply Hsub.
    unfold mbind, M_bind, bind in Hr.
    by destruct (smart_update v) as [v' [[]|]].
Qed.

(** X12: on an engine whose table of smart landmarks is empty, after any
    sequence of calls every entry of [lid_factors_] is unmarked
    ([in_graph] is False: nothing ever sets it), its [count] is the number
    of measurements of its smart factor, which is at least 1, and every
    measurement is keyed by a pose. *)
Theorem entries_count_measurements v0 ops lid r :
  lid_factors_ v0 = ∅ →
  lid_factors_ (calls ops v0).1 !! lid = Some r →
  in_graph r = false
  ∧ count r = Z.of_nat (length (factor r))
  ∧ 1 ≤ count r
  ∧ ∀ k, k ∈ keys (factor r) → Symbol_chr k = "x"%char.
Proof.
  intros H0.
  assert (Hall : entries_counted (calls ops v0).1); [|apply Hall].
  apply (after_for_each (keeps entries_counted) ops call v0).
  - intros op _ v Hv. by apply call_counted.
  - intros k r'. by rewrite H0, lookup_empty.
Qed.

(** ** Updates, one after the other *)

(** X13: an update that returns leaves nothing pending, so that the next
    one, if nothing was added in between, is the incremental step on an
    empty graph and no values: each factor and each initial value is
    handed to the solver by one update only. *)
Theorem update_hands_over_once v v1 :
  VisualSLAM_update v = (v1, Ok tt) →
  batch_init_ v1 = true
  ∧ graph_ (base v1) = []
  ∧ initial_ (base v1) = ∅
  ∧ VisualSLAM_update v1
    = match isam_update (slam_ (base v1)) [] ∅ ≫= isam_update_ with
      | Some slam => (updated slam v1, Ok tt)
      | None => (v1, Raise RuntimeError)
      end.
Proof.
  intros Hrun. rewrite VisualSLAM_update_eq in Hrun.
  assert (H1 : batch_init_ v1 = true ∧ graph_ (base v1) = []
               ∧ initial_ (base v1) = ∅).
  { destruct (batch_init_ v) eqn:Hb.
    - destruct (_ ≫= isam_update_); [|done].
      injection Hrun as <-. by simpl.
    - destruct (_ ≫= isam_update _ _); [|done].
      injection Hrun as <-. by simpl. }
  destruct H1 as (Hb & Hg & Hi). split_and!; [done..|].
  by rewrite VisualSLAM_update_eq, Hb, Hg, Hi.
Qed.

(** X14: once the first update has been made, the [_update] of
    [VisualSLAM] is the [_update] of [BaseSLAM] that it overrides: with
    [batch_init_] set, the two do the same to the object and give the
    same result, whether the solver returns or raises. *)
Theorem update_override_agrees v :
  batch_init_ v = true →
  VisualSLAM_update v = lift BaseSLAM_update v.
Proof.
  intros Hb. rewrite VisualSLAM_update_eq, Hb.
  unfold lift, BaseSLAM_update. run.
  destruct (option_bind _ _ _ _); simpl; [done|].
  by rewrite set_base_id.
Qed.

(** X15: two calls of [initialize] at the same index with no update in
    between: the first returns, the second appends its prior factor and
    then raises the container's duplicate-key error; the pose and the
    pending value are those of the first call, and both priors are in the
    pending graph. *)
Theorem initialize_twice_raises p p' index noise noise' s :
  initial_ s !! symbol "x" index = None →
  ∃ s1 s2,
    initialize p index noise s = (s1, Ok tt)
    ∧ initialize p' index noise' s1 = (s2, Raise ValuesKeyAlreadyExists)
    ∧ xs_ s2 !! index = Some p
    ∧ initial_ s2 !! symbol "x" index = Some (VPose3 p)
    ∧ latest s2 = index
    ∧ graph_ s2
      = graph_ s
        ++ [PriorFactorPose3 (symbol "x" index) p
              (noise_or noise (prior_pose_noise_ s));
            PriorFactorPose3 (symbol "x" index) p'
              (noise_or noise' (prior_pose_noise_ s))].
Proof.
  intros Hfree. rewrite initialize_fresh by done.
  eexists. eexists. split; [done|].
  rewrite initialize_staged by (simpl; rewrite lookup_insert_eq; eauto).
  split; [done|]. simpl. rewrite !lookup_insert_eq, <- app_assoc. done.
Qed.

(** ** Reading the estimate back *)

Lemma for_each_pure_inv {S A} (J : S → Prop) (g : S → A → S)
    (body : A → M S unit) l s :
  (∀ x s', x ∈ l → J s' → body x s' = (g s' x, Ok tt) ∧ J (g s' x)) →
  J s →
  for_each l body s = (foldl g s l, Ok tt) ∧ J (foldl g s l).
Proof.
  revert s. induction l as [|x l IH]; intros s Hb HJ; [done|].
  destruct (Hb x s) as [E HJ']; [by left|done|].
  simpl. unfold mbind, M_bind, bind. rewrite E. apply IH; [|done].
  intros y s' Hy. apply Hb. by right.
Qed.

(** A returning loop has run every round. *)
Lemma for_each_Ok_inv {S A} (J : S → Prop) (P : A → Prop)
    (body : A → M S unit) l s s' :
  (∀ x s1 s2, J s1 → body x s1 = (s2, Ok tt) → P x ∧ J s2) →
  J s →
  for_each l body s = (s', Ok tt) →
  Forall P l ∧ J s'.
Proof.
  intros Hb. revert s. induction l as [|x l IH]; intros s HJ Hrun.
  { injection Hrun as <-. by split. }
  apply bind_Ok_inv in Hrun as ([] & s1 & E1 & Hrun).
  destruct (Hb x s s1 HJ E1) as [HP HJ1].
  destruct (IH s1 HJ1 Hrun) as [HPs HJ']. split; [by constructor|done].
Qed.

(** The value at [i] after the items have been written, each at the
    index of its key. *)
Lemma foldl_refresh {A} (target : Symbol * Value → option (Z * A))
    (key_of : Z → Symbol) items (m : gmap Z A) i :
  Inj (=) (=) key_of →
  (∀ k v j a, (k, v) ∈ items → target (k, v) = Some (j, a) → k = key_of j) →
  NoDup items.*1 →
  foldl (refresh target) m items !! i
  = match (list_to_map items : gmap Symbol Value) !! key_of i
          ≫= (λ v, target (key_of i, v)) with
    | Some ja => Some ja.2
    | None => m !! i
    end.
Proof.
  intros Hinj. revert m.
  induction items as [|[k v] items IH]; intros m Hkey Hnd.
  { simpl. by rewrite lookup_empty. }
  apply NoDup_cons in Hnd as [Hk Hnd].
  simpl foldl. rewrite IH; [|intros; eapply Hkey; [by right|done]|done].
  rewrite list_to_map_cons. unfold refresh at 1.
  destruct (decide (key_of i = k)) as [<-|Hne].
  - rewrite lookup_insert_eq, not_elem_of_list_to_map_1 by done. simpl.
    destruct (target (key_of i, v)) as [[j a]|] eqn:E; [|done].
    apply Hkey in E; [|by left]. apply Hinj in E as <-. simpl.
    by rewrite lookup_insert_eq.
  - rewrite lookup_insert_ne by done.
    destruct (_ ≫= _) as [ja|]; [done|].
    destruct (target (k, v)) as [[j a]|] eqn:E; [|done].
    apply Hkey in E; [|by left]. subst k.
    apply lookup_insert_ne. by intros ->.
Qed.

Lemma foldl_refresh_list_length items (l : list Q) :
  length (foldl refresh_list l items) = length l.
Proof.
  revert l. induction items as [|[k v] items IH]; intros l; [done|].
  simpl. rewrite IH. unfold refresh_list.
  destruct (switch_of (k, v)) as [[j q]|]; [|done].
  destruct (list_setitem j q l) eqn:E; [|done].
  by apply list_setitem_length in E.
Qed.

(** The same for the list of switches, every key of which is an index of
    it. *)
Lemma foldl_refresh_list items (l : list Q) :
  (∀ k v j q, (k, v) ∈ items → switch_of (k, v) = Some (j, q) →
              k = symbol "s" j ∧ 0 ≤ j < Z.of_nat (length l)) →
  NoDup items.*1 →
  length (foldl refresh_list l items) = length l
  ∧ ∀ i, 0 ≤ i →
      foldl refresh_list l items !! Z.to_nat i
      = match (list_to_map items : gmap Symbol Value) !! symbol "s" i
              ≫= (λ v, switch_of (symbol "s" i, v)) with
        | Some jq => Some jq.2
        | None => l !! Z.to_nat i
        end.
Proof.
  revert l. induction items as [|[k v] items IH]; intros l Hkey Hnd.
  { split; [done|]. intros i _. simpl. by rewrite lookup_empty. }
  apply NoDup_cons in Hnd as [Hk Hnd]. simpl foldl.
  assert (Hlen : length (refresh_list l (k, v)) = length l).
  { unfold refresh_list.
    destruct (switch_of (k, v)) as [[j q]|]; [|done].
    destruct (list_setitem j q l) eqn:E; [|done].
    by apply list_setitem_length in E. }
  destruct (IH (refresh_list l (k, v))) as [IHlen IHlook]; [|done|].
  { intros k' v' j q Hin E. rewrite Hlen. eapply Hkey; [by right|done]. }
  split; [by rewrite IHlen|]. intros i Hi. rewrite IHlook by done.
  rewrite list_to_map_cons.
  destruct (decide (symbol "s" i = k)) as [<-|Hne].
  - rewrite lookup_insert_eq, not_elem_of_list_to_map_1 by done. simpl.
    unfold refresh_list.
    destruct (switch_of (symbol "s" i, v)) as [[j q]|] eqn:E; [|done].
    destruct (Hkey _ _ _ _ (list_elem_of_here _ _) E) as [[_ <-]%symbol_inj Hj].
    unfold list_setitem. rewrite bool_decide_eq_true_2 by done. simpl.
    apply list_lookup_insert_eq. lia.
  - rewrite lookup_insert_ne by done.
    destruct (_ ≫= _) as [jq|]; [done|].
    unfold refresh_list.
    destruct (switch_of (k, v)) as [[j q]|] eqn:E; [|done].
    destruct (Hkey _ _ _ _ (list_elem_of_here _ _) E) as [-> Hj].
    unfold list_setitem. rewrite bool_decide_eq_true_2 by done. simpl.
    apply list_lookup_insert_ne. intros Hc. apply Hne. f_equal. lia.
Qed.

Lemma refresh_pose_fields items s :
  let s' := foldl refresh_pose s items in
  xs_ s' = foldl (refresh pose_of) (xs_ s) items
  ∧ ls_ s' = foldl (refresh pose_landmark_of) (ls_ s) items
  ∧ switch_ s' = switch_ s ∧ graph_ s' = graph_ s
  ∧ initial_ s' = initial_ s ∧ idx_ s' = idx_ s ∧ xxs_ s' = xxs_ s
  ∧ xls_ s' = xls_ s ∧ current_ s' = current_ s ∧ slam_ s' = slam_ s.
Proof.
  revert s. induction items as [|[k v] items IH]; intros s; [done|].
  simpl. destruct (IH (refresh_pose s (k, v)))
    as (-> & -> & -> & -> & -> & -> & -> & -> & -> & ->).
  unfold refresh_pose, refresh, pose_of, pose_landmark_of. simpl.
  destruct v; [case_bool_decide|..]; done.
Qed.

Lemma refresh_point_fields items s :
  let s' := foldl refresh_point s items in
  xs_ s' = xs_ s
  ∧ ls_ s' = foldl (refresh point_landmark_of) (ls_ s) items
  ∧ switch_ s' = switch_ s ∧ graph_ s' = graph_ s
  ∧ initial_ s' = initial_ s ∧ idx_ s' = idx_ s ∧ xxs_ s' = xxs_ s
  ∧ xls_ s' = xls_ s ∧ current_ s' = current_ s ∧ slam_ s' = slam_ s.
Proof.
  revert s. induction items as [|[k v] items IH]; intros s; [done|].
  simpl. destruct (IH (refresh_point s (k, v)))
    as (-> & -> & -> & -> & -> & -> & -> & -> & -> & ->).
  unfold refresh_point, refresh, point_landmark_of. simpl.
  by destruct v.
Qed.

Lemma refresh_switch_fields items s :
  let s' := foldl refresh_switch s items in
  xs_ s' = xs_ s ∧ ls_ s' = ls_ s
  ∧ switch_ s' = foldl refresh_list (switch_ s) items
  ∧ graph_ s' = graph_ s
  ∧ initial_ s' = initial_ s ∧ idx_ s' = idx_ s ∧ xxs_ s' = xxs_ s
  ∧ xls_ s' = xls_ s ∧ current_ s' = current_ s ∧ slam_ s' = slam_ s.
Proof.
  revert s. induction items as [|[k v] items IH]; intros s; [done|].
  simpl. destruct (IH (refresh_switch s (k, v)))
    as (-> & -> & -> & -> & -> & -> & -> & -> & -> & ->).
  unfold refresh_switch, refresh_list, switch_of. simpl.
  destruct v; try done. by destruct (list_setitem _ _ _).
Qed.

(** The method in closed form, on an estimate whose values are keyed as it
    expects. *)
Lemma update_estimates_eq s c :
  current_ s = Some c →
  map_Forall (estimate_keyed (Z.of_nat (length (switch_ s)))) c →
  _update_estimates s
  = (foldl refresh_switch
       (foldl refresh_point (foldl refresh_pose s (map_to_list c))
          (map_to_list c))
       (map_to_list c),
     Ok tt).
Proof.
  intros Hc Hkeyed.
  assert (Hitems : ∀ k v, (k, v) ∈ map_to_list c →
            estimate_keyed (Z.of_nat (length (switch_ s))) k v).
  { intros k v Hin. apply elem_of_map_to_list in Hin. by eapply Hkeyed. }
  set (J := λ s' : BaseSLAM, length (switch_ s') = length (switch_ s)).
  unfold _update_estimates.
  unfold mbind at 1, M_bind at 1, bind at 1, get at 1. rewrite Hc.
  unfold mbind at 1, M_bind at 1, bind at 1.
  match goal with
  | |- context [for_each ?l ?body s] =>
      destruct (for_each_pure_inv J refresh_pose body l s) as [-> HJ1]
  end.
  { intros [k v] s' Hin HJ. specialize (Hitems k v Hin).
    unfold refresh_pose, J in *. simpl.
    destruct v; simpl in *; [|done..].
    repeat case_bool_decide; try done. by destruct Hitems. }
  { done. }
  unfold mbind at 1, M_bind at 1, bind at 1.
  match goal with
  | |- context [for_each ?l ?body ?s1] =>
      destruct (for_each_pure_inv J refresh_point body l s1) as [-> HJ2];
        [|done|]
  end.
  { intros [k v] s' Hin HJ. specialize (Hitems k v Hin).
    unfold refresh_point, J in *. simpl.
    destruct v; simpl in *; try done.
    by rewrite bool_decide_eq_true_2 by done. }
  match goal with
  | |- for_each ?l ?body ?s2 = _ =>
      destruct (for_each_pure_inv J refresh_switch body l s2) as [-> HJ3];
        [|done|done]
  end.
  intros [k v] s' Hin HJ. specialize (Hitems k v Hin).
  unfold refresh_switch, J in *. simpl.
  destruct v; simpl in *; try done.
  unfold mbind, M_bind, bind, get.
  destruct (list_setitem (Symbol_index k) v (switch_ s')) as [l'|e] eqn:E.
  - split; [done|]. simpl. apply list_setitem_length in E. congruence.
  - exfalso. revert E. unfold list_setitem. rewrite HJ.
    repeat case_bool_decide; (done || lia).
Qed.

Lemma update_estimates_returns_keyed s :
  (_update_estimates s).2 = Ok tt
  ↔ ∃ c, current_ s = Some c
         ∧ map_Forall (estimate_keyed (Z.of_nat (length (switch_ s)))) c.
Proof.
  split.
  - unfold _update_estimates.
    unfold mbind at 1, M_bind at 1, bind at 1, get at 1.
    destruct (current_ s) as [c|]; [|done]. intros Hrun.
    exists c. split; [done|].
    set (n := Z.of_nat (length (switch_ s))).
    set (J := λ s' : BaseSLAM, length (switch_ s') = length (switch_ s)).
    apply returns in Hrun.
    apply bind_Ok_inv in Hrun as ([] & s1 & E1 & Hrun).
    apply bind_Ok_inv in Hrun as ([] & s2 & E2 & E3).
    apply (for_each_Ok_inv J
             (λ m, match m.2 with
                   | VPose3 _ => estimate_keyed n m.1 m.2
                   | _ => True
                   end)) in E1 as [H1 HJ1]; [| |done].
    2: { intros [k v] u1 u2 HJ. unfold J in *. simpl.
         destruct v; [|by intros [= <-]..].
         repeat case_bool_decide; intros [= <-]; simpl; auto. }
    apply (for_each_Ok_inv J
             (λ m, match m.2 with
                   | VPoint3 _ => estimate_keyed n m.1 m.2
                   | _ => True
                   end)) in E2 as [H2 HJ2]; [| |done].
    2: { intros [k v] u1 u2 HJ. unfold J in *. simpl.
         destruct v; [by intros [= <-]| |by intros [= <-]].
         case_bool_decide; intros [= <-]; simpl; auto. }
    apply (for_each_Ok_inv J
             (λ m, match m.2 with
                   | VSwitch _ => estimate_keyed n m.1 m.2
                   | _ => True
                   end)) in E3 as [H3 HJ3]; [| |done].
    2: { intros [k v] u1 u2 HJ. unfold J in *. simpl.
         destruct v; [by intros [= <-]..|].
         unfold mbind, M_bind, bind, get.
         destruct (list_setitem (Symbol_index k) v (switch_ u1))
           as [l'|e] eqn:E; [|done].
         intros [= <-]. simpl. split.
         - revert E. unfold list_setitem, n. rewrite <- HJ.
           repeat case_bool_decide; (done || lia).
         - apply list_setitem_length in E. congruence. }
    apply map_Forall_to_list. rewrite Forall_forall in *.
    intros [k v] Hin. specialize (H1 _ Hin). specialize (H2 _ Hin).
    specialize (H3 _ Hin). simpl in *. by destruct v.
  - intros (c & Hc & Hkeyed). by rewrite (update_estimates_eq s c).
Qed.

(** X16: [_update_estimates] returns exactly when an estimate is
    available in which every pose is keyed by ['l'] or ['x'], every point
    by ['l'], and every switch by an index of [switch_] (negative indices
    counting from the end); otherwise it raises. *)
Theorem update_estimates_returns_iff s :
  (_update_estimates s).2 = Ok tt
  ↔ ∃ c, current_ s = Some c
         ∧ map_Forall (estimate_keyed (Z.of_nat (length (switch_ s)))) c.
Proof. apply update_estimates_returns_keyed. Qed.

Lemma update_estimates_result s c s' :
  current_ s = Some c →
  _update_estimates s = (s', Ok tt) →
  (∀ i, xs_ s' !! i
        = match c !! symbol "x" i with
          | Some (VPose3 p) => Some p
          | _ => xs_ s !! i
          end)
  ∧ (∀ i, ls_ s' !! i
          = match c !! symbol "l" i with
            | Some (VPose3 p) => Some (LPose p)
            | Some (VPoint3 p) => Some (LPoint p)
            | _ => ls_ s !! i
            end)
  ∧ length (switch_ s') = length (switch_ s)
  ∧ ((∀ k q, c !! k = Some (VSwitch q) →
             Symbol_chr k = "s"%char ∧ 0 ≤ Symbol_index k) →
     ∀ i, 0 ≤ i →
       switch_ s' !! Z.to_nat i
       = match c !! symbol "s" i with
         | Some (VSwitch q) => Some q
         | _ => switch_ s !! Z.to_nat i
         end)
  ∧ graph_ s' = graph_ s ∧ initial_ s' = initial_ s
  ∧ robot_edges s' = robot_edges s ∧ landmark_edges s' = landmark_edges s
  ∧ latest s' = latest s ∧ current_ s' = current_ s ∧ slam_ s' = slam_ s.
Proof.
  intros Hc Hrun. unfold robot_edges, landmark_edges, latest.
  assert (Hkeyed : map_Forall
                     (estimate_keyed (Z.of_nat (length (switch_ s)))) c).
  { destruct (proj1 (update_estimates_returns_keyed s)) as (c' & Hc' & Hk).
    - by rewrite Hrun.
    - rewrite Hc in Hc'. by injection Hc' as <-. }
  rewrite (update_estimates_eq s c) in Hrun by done.
  injection Hrun as <-.
  set (items := map_to_list c).
  assert (Hnd : NoDup items.*1) by apply NoDup_fst_map_to_list.
  assert (Hin : ∀ k v, (k, v) ∈ items →
            estimate_keyed (Z.of_nat (length (switch_ s))) k v).
  { intros k v Hkv. apply elem_of_map_to_list in Hkv. by eapply Hkeyed. }
  assert (Hmap : (list_to_map items : gmap Symbol Value) = c)
    by apply list_to_map_to_list.
  destruct (refresh_switch_fields items
              (foldl refresh_point (foldl refresh_pose s items) items))
    as (-> & -> & -> & -> & -> & -> & -> & -> & -> & ->).
  destruct (refresh_point_fields items (foldl refresh_pose s items))
    as (-> & -> & -> & -> & -> & -> & -> & -> & -> & ->).
  destruct (refresh_pose_fields items s)
    as (-> & -> & -> & -> & -> & -> & -> & -> & -> & ->).
  split_and!; try done.
  - intros i. rewrite (foldl_refresh pose_of (symbol "x")), Hmap.
    + destruct (c !! symbol "x" i) as [[]|]; done.
    + by intros ?? [=].
    + intros [ch j] v j' a Hkv. specialize (Hin _ _ Hkv).
      unfold pose_of. simpl. destruct v; [|done..].
      case_bool_decide; [done|]. intros [= <- <-].
      simpl in Hin. unfold symbol. by destruct Hin as [?| ->].
    + done.
  - intros i.
    rewrite (foldl_refresh point_landmark_of (symbol "l")), Hmap.
    + rewrite (foldl_refresh pose_landmark_of (symbol "l")), Hmap.
      * destruct (c !! symbol "l" i) as [[]|]; done.
      * by intros ?? [=].
      * intros [ch j] v j' a Hkv. unfold pose_landmark_of. simpl.
        destruct v; [|done..]. case_bool_decide as Hch; [|done].
        intros [= <- <-]. simpl in Hch. by rewrite Hch.
      * done.
    + by intros ?? [=].
    + intros [ch j] v j' a Hkv. specialize (Hin _ _ Hkv).
      unfold point_landmark_of. simpl. destruct v; [done| |done].
      intros [= <- <-]. simpl in Hin. by rewrite Hin.
    + done.
  - apply foldl_refresh_list_length.
  - intros Hsw i Hi.
    destruct (foldl_refresh_list items (switch_ s)) as [_ Hlook];
      [|done|].
    + intros [ch j] v j' q Hkv. specialize (Hin _ _ Hkv).
      unfold switch_of. simpl. destruct v; [done..|].
      intros [= <- <-]. apply elem_of_map_to_list in Hkv.
      destruct (Hsw _ _ Hkv) as [Hch Hj]. simpl in *. subst ch.
      split; [done|lia].
    + rewrite Hlook, Hmap by done.
      destruct (c !! symbol "s" i) as [[]|]; done.
Qed.

(** X17: what a returning [_update_estimates] leaves.  Pose [i] is the
    estimate's pose under ['x', i] if there is one, and as before
    otherwise; landmark [i] is the estimate's pose or point under
    ['l', i] if there is one, and as before otherwise; the list of
    switches keeps its length, and when the switches of the estimate are
    keyed by ['s'] and a non-negative index, switch [i] is the estimate's
    value under ['s', i] if there is one, and as before otherwise.  The
    pending graph and values, the edges and the latest index are not
    touched. *)
Theorem update_estimates_refreshes s c s' :
  current_ s = Some c →
  _update_estimates s = (s', Ok tt) →
  (∀ i, xs_ s' !! i
        = match c !! symbol "x" i with
          | Some (VPose3 p) => Some p
          | _ => xs_ s !! i
          end)
  ∧ (∀ i, ls_ s' !! i
          = match c !! symbol "l" i with
            | Some (VPose3 p) => Some (LPose p)
            | Some (VPoint3 p) => Some (LPoint p)
            | _ => ls_ s !! i
            end)
  ∧ length (switch_ s') = length (switch_ s)
  ∧ ((∀ k q, c !! k = Some (VSwitch q) →
             Symbol_chr k = "s"%char ∧ 0 ≤ Symbol_index k) →
     ∀ i, 0 ≤ i →
       switch_ s' !! Z.to_nat i
       = match c !! symbol "s" i with
         | Some (VSwitch q) => Some q
         | _ => switch_ s !! Z.to_nat i
         end)
  ∧ graph_ s' = graph_ s ∧ initial_ s' = initial_ s
  ∧ robot_edges s' = robot_edges s ∧ landmark_edges s' = landmark_edges s
  ∧ latest s' = latest s ∧ current_ s' = current_ s ∧ slam_ s' = slam_ s.
Proof. apply update_estimates_result. Qed.

(** X18: [_batch_solve] followed by [_update_estimates]: when the batch
    optimizer returns an estimate keyed as [_update_estimates] expects,
    both return and the poses are those of the optimized values; the
    pending graph and initial values are still pending and the
    incremental solver has not been touched, so the next [_update] hands
    the same batch to it. *)
Theorem batch_solve_then_estimates s c :
  LevenbergMarquardtOptimizer_optimize (graph_ s) (initial_ s) = Some c →
  map_Forall (estimate_keyed (Z.of_nat (length (switch_ s)))) c →
  ∃ s',
    (_batch_solve;; _update_estimates) s = (s', Ok tt)
    ∧ (∀ i, xs_ s' !! i
            = match c !! symbol "x" i with
              | Some (VPose3 p) => Some p
              | _ => xs_ s !! i
              end)
    ∧ current_ s' = Some c
    ∧ graph_ s' = graph_ s
    ∧ initial_ s' = initial_ s
    ∧ slam_ s' = slam_ s.
Proof.
  intros Hopt Hkeyed.
  set (s1 := set_current (λ _, Some c) s).
  assert (E1 : _batch_solve s = (s1, Ok tt)).
  { unfold _batch_solve. run. by rewrite Hopt. }
  assert (E2 : ∃ s', _update_estimates s1 = (s', Ok tt)).
  { eexists. by apply (update_estimates_eq s1 c). }
  destruct E2 as [s' E2]. exists s'.
  destruct (update_estimates_result s1 c s' eq_refl E2)
    as (Hxs & _ & _ & _ & Hg & Hi & _ & _ & _ & Hcur & Hslam).
  split_and!; try done.
  unfold mbind, M_bind, bind. by rewrite E1.
Qed.

(** ** Marginals *)

Context {marginals : Marginals} {dogleg : BatchOptimizer}.

(** A loop that fills a table from a function that may raise. *)
Lemma table_loop {S C D} (prj : S → gmap Z C) (other : S → D)
    (upd : (gmap Z C → gmap Z C) → S → S) (f : Z → Res C) keys s :
  (∀ g s, prj (upd g s) = g (prj s)) →
  (∀ g s, other (upd g s) = other s) →
  let r := for_each keys
             (λ k, match f k with
                   | Ok c => modify (upd <[k := c]>)
                   | Raise e => raise e
                   end) s in
  (r.2 = Ok tt ↔ Forall (λ k, is_Ok (f k) = true) keys)
  ∧ other r.1 = other s
  ∧ (r.2 = Ok tt →
     ∀ k, prj r.1 !! k
          = if bool_decide (k ∈ keys)
            then match f k with Ok c => Some c | Raise _ => None end
            else prj s !! k).
Proof.
  intros Hprj Hother. revert s.
  induction keys as [|a keys IH]; intros s; simpl.
  { split_and!; [by split; [constructor|]|done..]. }
  unfold mbind, M_bind, bind. destruct (f a) as [c|e] eqn:E; simpl.
  - destruct (IH (upd <[a := c]> s)) as (Hiff & Hoth & Hlook).
    rewrite Forall_cons, E. simpl. split_and!.
    + rewrite Hiff. split; [by split|by intros [_ ?]].
    + by rewrite Hoth, Hother.
    + intros Hok k. rewrite (Hlook Hok), Hprj.
      destruct (decide (k = a)) as [->|Hne].
      * rewrite lookup_insert_eq, E,
          (bool_decide_eq_true_2 (a ∈ a :: keys)) by by left.
        by case_bool_decide.
      * rewrite lookup_insert_ne by done.
        apply (f_equal (λ b : bool, if b then _ else _)).
        apply bool_decide_ext. rewrite elem_of_cons.
        split; [by right|by intros [?|?]].
  - split_and!; [|done|done]. rewrite Forall_cons, E.
    split; [done|by intros [? _]].
Qed.

(** X19: [_update_marginals] returns exactly when an estimate is available
    and the solver gives a covariance for the key of every pose of [xs_]
    and of every landmark of [ls_]; without an estimate it raises
    RuntimeError and leaves the tables as they are.  When it returns,
    [xcovs_] holds the solver's covariance for every pose and [lcovs_] for
    every landmark, and the other entries of the tables are as before. *)
Theorem update_marginals_covers self t :
  let r := _update_marginals self t in
  (r.2 = Ok tt
   ↔ estimate_available self = true
     ∧ (∀ k, is_Some (xs_ self !! k) →
             is_Some (covariance_of (slam_ self) (symbol "x" k)))
     ∧ (∀ k, is_Some (ls_ self !! k) →
             is_Some (covariance_of (slam_ self) (symbol "l" k))))
  ∧ (r.2 = Ok tt →
     (∀ k, xcovs_ r.1 !! k
           = match xs_ self !! k with
             | Some _ => covariance_of (slam_ self) (symbol "x" k)
             | None => xcovs_ t !! k
             end)
     ∧ (∀ k, lcovs_ r.1 !! k
             = match ls_ self !! k with
               | Some _ => covariance_of (slam_ self) (symbol "l" k)
               | None => lcovs_ t !! k
               end))
  ∧ (estimate_available self = false → r = (t, Raise RuntimeError)).
Proof.
  intros r. subst r. unfold _update_marginals.
  destruct (estimate_available self); simpl.
  2: { split_and!; [|done..]. split; [done|by intros [? _]]. }
  assert (Hkeys : ∀ {A} (m : gmap Z A) (P : Z → Prop),
            Forall P (map_to_list m).*1 ↔ ∀ k, is_Some (m !! k) → P k).
  { intros A m P. rewrite Forall_forall. split.
    - intros H k [a Hk]. apply H, list_elem_of_fmap. exists (k, a).
      split; [done|]. by apply elem_of_map_to_list.
    - intros H k ([k' a] & -> & Hin)%list_elem_of_fmap.
      apply elem_of_map_to_list in Hin. apply H. simpl. eauto. }
  assert (Hin : ∀ {A} (m : gmap Z A) k,
            bool_decide (k ∈ (map_to_list m).*1)
            = bool_decide (is_Some (m !! k))).
  { intros A m k. apply bool_decide_ext. rewrite list_elem_of_fmap. split.
    - intros ([k' a] & -> & Hin). apply elem_of_map_to_list in Hin.
      simpl. eauto.
    - intros [a Hk]. exists (k, a). split; [done|].
      by apply elem_of_map_to_list. }
  assert (Hcov : ∀ k, is_Ok (marginalCovariance (slam_ self) k) = true
                      ↔ is_Some (covariance_of (slam_ self) k)).
  { intros k. unfold covariance_of.
    destruct (marginalCovariance (slam_ self) k); simpl;
      [split; eauto|split; [done|by intros [? ?]]]. }
  unfold mbind, M_bind, bind.
  destruct (table_loop xcovs_ lcovs_ set_xcovs
              (λ k, marginalCovariance (slam_ self) (symbol "x" k))
              (map_to_list (xs_ self)).*1 t) as (Hiff1 & Hoth1 & Hlook1);
    [done..|].
  simpl in Hiff1, Hoth1, Hlook1. rewrite Hkeys in Hiff1.
  destruct (for_each (map_to_list (xs_ self)).*1 _ t) as [t1 [[]|e]];
    simpl in *.
  - destruct (table_loop lcovs_ xcovs_ set_lcovs
                (λ k, marginalCovariance (slam_ self) (symbol "l" k))
                (map_to_list (ls_ self)).*1 t1) as (Hiff2 & Hoth2 & Hlook2);
      [done..|].
    simpl in Hiff2, Hoth2, Hlook2. rewrite Hkeys in Hiff2.
    destruct (for_each (map_to_list (ls_ self)).*1 _ t1) as [t2 r2];
      simpl in *.
    split_and!; [|intros Hok; split; intros k|done].
    + rewrite Hiff2. split.
      * intros H2. split_and!; [done| |].
        -- intros k Hk. apply Hcov. by apply Hiff1.
        -- intros k Hk. apply Hcov. by apply H2.
      * intros (_ & _ & H2) k Hk. apply Hcov. by apply H2.
    + rewrite Hoth2, (Hlook1 eq_refl), Hin. unfold covariance_of.
      case_bool_decide as Hk.
      * by destruct Hk as [? ->].
      * apply eq_None_not_Some in Hk. by rewrite Hk.
    + rewrite (Hlook2 Hok), Hin, Hoth1. unfold covariance_of.
      case_bool_decide as Hk.
      * by destruct Hk as [? ->].
      * apply eq_None_not_Some in Hk. by rewrite Hk.
  - split_and!; [|done..]. split; [done|].
    intros (_ & H1 & _).
    assert (Hc : Raise e = Ok tt); [|done].
    apply Hiff1. intros k Hk. apply Hcov. by apply H1.
Qed.

(** ** Two-view bundle adjustment *)

Lemma for_each_app {S A} (l1 l2 : list A) (body : A → M S unit) s :
  for_each (l1 ++ l2) body s
  = match for_each l1 body s with
    | (s', Ok _) => for_each l2 body s'
    | (s', Raise e) => (s', Raise e)
    end.
Proof.
  revert s. induction l1 as [|x l1 IH]; intros s; simpl; [done|].
  unfold mbind, M_bind, bind.
  destruct (body x s) as [s1 [[]|e]]; [apply IH|done].
Qed.

Lemma enumerate_snoc {A} (l : list A) x :
  enumerate (l ++ [x]) = enumerate l ++ [(Z.of_nat (length l), x)].
Proof. unfold enumerate. rewrite imap_app. simpl. by rewrite Nat.add_0_r. Qed.

(** The loop over [range(len(X))] that reads [X[j]] is the loop over
    [enumerate(X)]. *)
Lemma range_loop {S A} (X : list A) (body : Z → A → M S unit) s :
  for_each (range (Z.of_nat (length X)))
    (λ j, match X !! Z.to_nat j with
          | Some pt => body j pt
          | None => raise IndexError
          end) s
  = for_each (enumerate X) (λ m, body m.1 m.2) s.
Proof.
  unfold range.
  assert (H : ∀ Y Z s, X = Y ++ Z →
            for_each (seqZ 0 (Z.of_nat (length Y)))
              (λ j, match X !! Z.to_nat j with
                    | Some pt => body j pt
                    | None => raise IndexError
                    end) s
            = for_each (enumerate Y) (λ m, body m.1 m.2) s).
  { intros Y. induction Y as [|y Y IH] using rev_ind; intros Z s' HX;
      [done|].
    rewrite length_app. simpl length. rewrite Nat.add_1_r, seqZ_S.
    rewrite enumerate_snoc, !for_each_app.
    rewrite (IH (y :: Z)) by (by rewrite HX, <- app_assoc).
    destruct (for_each (enumerate Y) _ s') as [s1 [[]|e]]; [|done].
    simpl. rewrite Z.add_0_l, Nat2Z.id, HX, <- app_assoc.
    change ([y] ++ Z) with (y :: Z). by rewrite list_lookup_middle. }
  apply (H X []). by rewrite app_nil_r.
Qed.

(** With fewer rows than the range, the loop raises IndexError after the
    last row. *)
Lemma range_loop_short {S A} (X : list A) (n : nat)
    (body : Z → A → M S unit) s :
  (length X < n)%nat →
  for_each (range (Z.of_nat n))
    (λ j, match X !! Z.to_nat j with
          | Some pt => body j pt
          | None => raise IndexError
          end) s
  = match for_each (enumerate X) (λ m, body m.1 m.2) s with
    | (s', Ok _) => (s', Raise IndexError)
    | (s', Raise e) => (s', Raise e)
    end.
Proof.
  intros Hn. unfold range.
  replace (Z.of_nat n)
    with (Z.of_nat (length X) + Z.of_nat (n - length X)) by lia.
  rewrite seqZ_app, for_each_app by lia.
  pose proof (range_loop X body s) as Hfull. unfold range in Hfull.
  rewrite Hfull.
  destruct (for_each (enumerate X) _ s) as [s1 [[]|e]]; [|done].
  rewrite seqZ_cons by lia. simpl.
  rewrite Z.add_0_l, Nat2Z.id, lookup_ge_None_2 by done. done.
Qed.

Lemma BA_add_loop {A} (F : A → Factor) l b :
  for_each l (λ m, BA_add (F m)) b
  = ({| graph := graph b ++ (F <$> l);
        initialEstimate := initialEstimate b |}, Ok tt).
Proof.
  revert b. induction l as [|x l IH]; intros b; simpl.
  - destruct b. simpl. by rewrite app_nil_r.
  - unfold mbind, M_bind, bind, BA_add at 1, modify at 1. rewrite IH.
    simpl. by rewrite <- app_assoc.
Qed.

Lemma BA_add2_loop {A} (F1 F2 : A → Factor) l b :
  for_each l (λ m, BA_add (F1 m);; BA_add (F2 m)) b
  = ({| graph := graph b ++ mjoin ((λ m, [F1 m; F2 m]) <$> l);
        initialEstimate := initialEstimate b |}, Ok tt).
Proof.
  revert b. induction l as [|x l IH]; intros b; simpl.
  - destruct b. simpl. by rewrite app_nil_r.
  - unfold mbind at 1, M_bind at 1, bind at 1.
    unfold mbind at 1, M_bind at 1, bind at 1, BA_add at 1 2, modify at 1 2.
    rewrite IH. simpl. by rewrite <- !app_assoc.
Qed.

(** The loop that stages the points: none is staged twice. *)
Lemma BA_insert_loop (X : list Point3) b :
  (∀ j, initialEstimate b !! symbol "l" j = None) →
  ∃ b',
    for_each (enumerate X)
      (λ '(lid, pt), BA_insert (symbol "l" lid) (VPoint3 pt)) b
    = (b', Ok tt)
    ∧ graph b' = graph b
    ∧ (∀ j, 0 ≤ j →
         initialEstimate b' !! symbol "l" j = VPoint3 <$> X !! Z.to_nat j)
    ∧ (∀ j, j < 0 → initialEstimate b' !! symbol "l" j = None)
    ∧ (∀ k, Symbol_chr k ≠ "l"%char →
         initialEstimate b' !! k = initialEstimate b !! k).
Proof.
  intros Hfree. induction X as [|x X IH] using rev_ind.
  { exists b. split_and!; try done. }
  destruct IH as (b1 & E1 & Hg & Hl & Hneg & Hother).
  rewrite enumerate_snoc, for_each_app, E1. simpl.
  unfold BA_insert. run.
  rewrite Hl by lia. rewrite Nat2Z.id, lookup_ge_None_2 by done. simpl.
  eexists. split; [reflexivity|]. simpl. split_and!; [done| | |].
  - intros j Hj. destruct (decide (j = Z.of_nat (length X))) as [->|Hne].
    + rewrite lookup_insert_eq, Nat2Z.id. by rewrite list_lookup_middle.
    + rewrite lookup_insert_ne by (intros [_ ?]%symbol_inj; done).
      rewrite Hl by done.
      destruct (decide (Z.to_nat j < length X)%nat).
      * by rewrite lookup_app_l by done.
      * rewrite !lookup_ge_None_2; [done| |lia].
        rewrite length_app. simpl. lia.
  - intros j Hj. rewrite lookup_insert_ne by (intros [_ ?]%symbol_inj; lia).
    by apply Hneg.
  - intros k Hk. rewrite lookup_insert_ne by (by intros <-).
    by apply Hother.
Qed.

Lemma np_mask_length {A} (mask : list bool) (a a' : list A) :
  np_mask mask a = Ok a' →
  length a' = length (filter (λ b, b = true) mask).
Proof.
  unfold np_mask. case_bool_decide as Hlen; [|done]. intros [= <-].
  rewrite length_fmap. revert a Hlen.
  induction mask as [|b mask IH]; intros [|x a] Hlen; try done.
  simpl zip. rewrite !filter_cons. simpl.
  destruct b; repeat case_decide; try done; simpl; rewrite IH; auto.
Qed.

(** X20: with fewer than five points in front of the first camera
    ([z >= 0]), [two_view_BA] raises IndexError: the loop of the point
    priors runs over [range(max(5, len(X)))] and reads the row [len(X)],
    which is not there; the optimizer is not reached. *)
Theorem two_view_BA_few_points K pts1 pts2 X p_21 scale_prior pts1' pts2' X' :
  let infront := (λ x : Point3, Qle_bool 0 x.2) <$> X in
  np_mask infront pts1 = Ok pts1' →
  np_mask infront pts2 = Ok pts2' →
  np_mask infront X = Ok X' →
  (length X' < 5)%nat →
  (two_view_BA K pts1 pts2 X p_21 scale_prior BA_new).2 = Raise IndexError.
Proof.
  intros infront H1 H2 H3 Hn. unfold two_view_BA. fold infront.
  rewrite H1, H2, H3. cbv zeta.
  unfold mbind at 1, M_bind at 1, bind at 1, BA_add at 1, modify at 1.
  unfold mbind at 1, M_bind at 1, bind at 1, BA_add at 1, modify at 1.
  rewrite Z.max_l by lia. change 5 with (Z.of_nat 5).
  unfold mbind at 1, M_bind at 1, bind at 1.
  rewrite (range_loop_short X' 5
             (λ j point, BA_add (PriorFactorPoint3 (symbol "l" j) point
                                   (Diagonal_Sigmas (repeat (1 # 20)%Q 3)))))
    by done.
  by rewrite BA_add_loop.
Qed.

Lemma two_view_BA_eq K pts1 pts2 X p_21 scale_prior pts1' pts2' X' :
  let infront := (λ x : Point3, Qle_bool 0 x.2) <$> X in
  np_mask infront pts1 = Ok pts1' →
  np_mask infront pts2 = Ok pts2' →
  np_mask infront X = Ok X' →
  (5 ≤ length X')%nat →
  let K' := {| fx := fx K; fy := fy K; skew := 0%Q; cx := cx K; cy := cy K |} in
  ∃ b,
    two_view_BA K pts1 pts2 X p_21 scale_prior BA_new
    = (b, match DoglegOptimizer_optimize (graph b) (initialEstimate b) with
          | Some _ => Ok tt
          | None => Raise RuntimeError
          end)
    ∧ graph b
      = [PriorFactorPose3 (symbol "x" 0) identity
           (Diagonal_Sigmas
              [1 # 10; 1 # 10; 1 # 10; 1 # 20; 1 # 20; 1 # 20]%Q);
         BetweenFactorPose3 (symbol "x" 0) (symbol "x" 1) p_21
           (Diagonal_Sigmas (repeat (1 # 10)%Q 6))]
        ++ BA_point_priors X' ++ BA_projections K' (zip pts1' pts2')
    ∧ initialEstimate b !! symbol "x" 0 = Some (VPose3 identity)
    ∧ initialEstimate b !! symbol "x" 1 = Some (VPose3 p_21)
    ∧ (∀ j, 0 ≤ j →
         initialEstimate b !! symbol "l" j = VPoint3 <$> X' !! Z.to_nat j).
Proof.
  intros infront H1 H2 H3 Hn K'.
  unfold two_view_BA. fold infront. rewrite H1, H2, H3. cbv zeta.
  fold K'.
  unfold mbind at 1, M_bind at 1, bind at 1, BA_add at 1, modify at 1.
  unfold mbind at 1, M_bind at 1, bind at 1, BA_add at 1, modify at 1.
  cbn [graph initialEstimate BA_new app].
  rewrite Z.max_r by lia.
  unfold mbind at 1, M_bind at 1, bind at 1.
  rewrite (range_loop X'
             (λ j point, BA_add (PriorFactorPoint3 (symbol "l" j) point
                                   (Diagonal_Sigmas (repeat (1 # 20)%Q 3))))).
  rewrite BA_add_loop. cbn [graph initialEstimate].
  unfold mbind at 1, M_bind at 1, bind at 1.
  rewrite (for_each_ext _ _
             (λ m, BA_add (GenericProjectionFactorPose3Point3Cal3_S2 m.2.1
                             (Diagonal_Sigmas [1%Q; 1%Q]) (symbol "x" 0)
                             (symbol "l" m.1) K');;
                   BA_add (GenericProjectionFactorPose3Point3Cal3_S2 m.2.2
                             (Diagonal_Sigmas [1%Q; 1%Q]) (symbol "x" 1)
                             (symbol "l" m.1) K')))
    by (by intros [? []]).
  rewrite BA_add2_loop. cbn [graph initialEstimate].
  unfold mbind at 1, M_bind at 1, bind at 1, BA_insert at 1.
  unfold mbind at 1, M_bind at 1, bind at 1, get at 1.
  cbn [graph initialEstimate].
  rewrite lookup_empty. unfold modify at 1. cbn [graph initialEstimate].
  unfold mbind at 1, M_bind at 1, bind at 1, BA_insert at 1.
  unfold mbind at 1, M_bind at 1, bind at 1, get at 1.
  cbn [graph initialEstimate].
  rewrite lookup_insert_ne, lookup_empty by (by intros [_ ?]%symbol_inj).
  unfold modify at 1. cbn [graph initialEstimate].
  unfold mbind at 1, M_bind at 1, bind at 1.
  match goal with
  | |- context [for_each (enumerate X') _ ?b] =>
      destruct (BA_insert_loop X' b) as (b' & -> & Hg & Hl & _ & Hother)
  end.
  { intros j. cbn [initialEstimate].
    rewrite !lookup_insert_ne, lookup_empty; [done|..];
      by intros [? _]%symbol_inj. }
  cbn [graph initialEstimate] in Hg, Hother.
  exists b'. split_and!.
  - unfold mbind, M_bind, bind, get.
    by destruct (DoglegOptimizer_optimize _ _).
  - by rewrite Hg.
  - rewrite Hother by done. rewrite lookup_insert_ne
      by (by intros [_ ?]%symbol_inj). apply lookup_insert_eq.
  - rewrite Hother by done. apply lookup_insert_eq.
  - done.
Qed.

(** X21: with at least five points in front, the problem that
    [two_view_BA] hands to the optimizer: a prior on pose 0 at the
    identity and the constraint [p_21] between the poses 0 and 1; then a
    prior on every point in front, numbered from 0 in the order of [X];
    then, for each pair of pixels in front, its projection on pose 0 and
    its projection on pose 1; the initial values are the identity, [p_21]
    and the points.  The points behind the camera appear nowhere.  It
    returns if the optimizer does, and raises RuntimeError if not. *)
Theorem two_view_BA_problem K pts1 pts2 X p_21 scale_prior pts1' pts2' X' :
  let infront := (λ x : Point3, Qle_bool 0 x.2) <$> X in
  np_mask infront pts1 = Ok pts1' →
  np_mask infront pts2 = Ok pts2' →
  np_mask infront X = Ok X' →
  (5 ≤ length X')%nat →
  let r := two_view_BA K pts1 pts2 X p_21 scale_prior BA_new in
  let K' := {| fx := fx K; fy := fy K; skew := 0%Q; cx := cx K; cy := cy K |} in
  graph r.1
  = [PriorFactorPose3 (symbol "x" 0) identity
       (Diagonal_Sigmas [1 # 10; 1 # 10; 1 # 10; 1 # 20; 1 # 20; 1 # 20]%Q);
     BetweenFactorPose3 (symbol "x" 0) (symbol "x" 1) p_21
       (Diagonal_Sigmas (repeat (1 # 10)%Q 6))]
    ++ BA_point_priors X' ++ BA_projections K' (zip pts1' pts2')
  ∧ length pts1' = length X'
  ∧ length pts2' = length X'
  ∧ initialEstimate r.1 !! symbol "x" 0 = Some (VPose3 identity)
  ∧ initialEstimate r.1 !! symbol "x" 1 = Some (VPose3 p_21)
  ∧ (∀ j, 0 ≤ j →
       initialEstimate r.1 !! symbol "l" j = VPoint3 <$> X' !! Z.to_nat j)
  ∧ r.2 = match DoglegOptimizer_optimize (graph r.1) (initialEstimate r.1) with
          | Some _ => Ok tt
          | None => Raise RuntimeError
          end.
Proof.
  intros infront H1 H2 H3 Hn r K'. subst r.
  pose proof (np_mask_length _ _ _ H1) as L1.
  pose proof (np_mask_length _ _ _ H2) as L2.
  pose proof (np_mask_length _ _ _ H3) as L3.
  destruct (two_view_BA_eq K pts1 pts2 X p_21 scale_prior pts1' pts2' X'
              H1 H2 H3 Hn) as (b & -> & Hg & H0 & Hx1 & Hl).
  simpl. split_and!; try done; congruence.
Qed.

(** ** Edges *)

Lemma call_same_xxs op v :
  is_relative op = false → after (on_base (same xxs_)) (call op) v.
Proof. destruct op; intros [=]; frame; by unfold same. Qed.

Lemma add_relative_counts xid1 xid2 delta noise s :
  switch_keys_bounded s →
  let r := add_relative_pose_constraint xid1 xid2 delta noise s in
  robust_ r.1 = robust_ s
  ∧ idx_ r.1 = idx_ s
  ∧ switch_ r.1 = (if robust_ s then switch_ s ++ [1%Q] else switch_ s)
  ∧ xxs_ r.1 = (if is_Ok r.2 then xxs_ s ++ [(xid1, xid2)] else xxs_ s).
Proof.
  intros Hs. simpl. rewrite add_relative_eq by done. simpl.
  unfold constrained.
  destruct (xs_ s !! xid2), (xs_ s !! xid1),
    (initial_ s !! symbol "x" xid2), (robust_ s) eqn:Hr;
    simpl; rewrite ?Hr; done.
Qed.

Lemma add_relative_edges xid1 xid2 delta noise s :
  robust_ s = true → switch_keys_bounded s →
  let r := add_relative_pose_constraint xid1 xid2 delta noise s in
  (length (xxs_ r.1) + length (switch_ s)
   ≤ length (switch_ r.1) + length (xxs_ s))%nat
  ∧ (r.2 = Ok tt →
     length (xxs_ r.1) = (length (xxs_ s) + 1)%nat
     ∧ length (switch_ r.1) = (length (switch_ s) + 1)%nat).
Proof.
  intros Hrs Hs.
  destruct (add_relative_counts xid1 xid2 delta noise s Hs)
    as (_ & _ & Hsw & Hxx).
  simpl. rewrite Hsw, Hxx, Hrs.
  destruct (add_relative_pose_constraint xid1 xid2 delta noise s).2;
    simpl; rewrite !length_app; simpl; split; (lia || intros [=]).
Qed.

Lemma add_incremental_edges delta noise s :
  robust_ s = true → staged_known s →
  let r := add_incremental_pose_constraint delta noise s in
  (length (xxs_ r.1) + length (switch_ s)
   ≤ length (switch_ r.1) + length (xxs_ s))%nat
  ∧ (r.2 = Ok tt →
     length (xxs_ r.1) = (length (xxs_ s) + 1)%nat
     ∧ length (switch_ r.1) = (length (switch_ s) + 1)%nat).
Proof.
  intros Hr Hk.
  assert (H0 : ∀ m0 : M BaseSLAM unit,
            after (same xxs_) m0 s → after switch_same m0 s →
            after (keeps staged_known) m0 s →
            let r := (m0;;
                      self ← get;
                      add_relative_pose_constraint (latest self)
                        (latest self + 1) delta noise;;
                      modify (set_idx (λ i, i + 1))) s in
            (length (xxs_ r.1) + length (switch_ s)
             ≤ length (switch_ r.1) + length (xxs_ s))%nat
            ∧ (r.2 = Ok tt →
               length (xxs_ r.1) = (length (xxs_ s) + 1)%nat
               ∧ length (switch_ r.1) = (length (switch_ s) + 1)%nat)).
  { intros m0 Hx0 (Hr0 & Hl0 & _) Hk0. unfold after, same, keeps in *.
    run. destruct (m0 s) as [s1 [[]|e]]; simpl in *;
      [|rewrite Hx0, Hl0; split; [lia|intros [=]]].
    rewrite <- Hx0, <- Hl0.
    destruct (add_relative_edges (latest s1) (latest s1 + 1) delta noise s1)
      as [Hle Hok]; [congruence|by apply Hk0|].
    destruct (add_relative_pose_constraint _ _ _ _ s1) as [s2 [[]|e]];
      simpl in *; [|split; [done|intros [=]]].
    split; [done|]. intros _. by apply Hok. }
  apply (H0 (if negb (is_initialized s) then initialize identity 0 None
             else mret tt)).
  all: destruct (negb _); try apply (after_ret _ tt).
  - frame; by unfold same.
  - frame; unfold switch_same; simpl; split_and!; try done.
    intros k. rewrite lookup_insert_is_Some.
    by intros [[? _]%symbol_inj|[_ ?]].
  - keeps_frame; staged_solve.
Qed.

(** The edges and the switches over one call, in robust mode: a call that
    returns adds one of each if it goes through
    [add_relative_pose_constraint] and none otherwise; one that raises
    adds no edge. *)
Lemma call_edges op v :
  robust_ (base v) = true →
  staged_known (base v) →
  let r := call op v in
  (length (xxs_ (base r.1)) + length (switch_ (base v))
   ≤ length (switch_ (base r.1)) + length (xxs_ (base v)))%nat
  ∧ (r.2 = Ok tt →
     let d := if is_relative op then 1%nat else 0%nat in
     length (xxs_ (base r.1)) = (length (xxs_ (base v)) + d)%nat
     ∧ length (switch_ (base r.1)) = (length (switch_ (base v)) + d)%nat).
Proof.
  intros Hr Hk.
  destruct (is_relative op) eqn:Hrel; simpl.
  - destruct op; try discriminate Hrel; simpl; unfold lift.
    + destruct (add_incremental_edges delta noise (base v)) as [Hle Hok];
        [done..|].
      by destruct (add_incremental_pose_constraint _ _ (base v)).
    + destruct (add_relative_edges xid1 xid2 delta noise (base v))
        as [Hle Hok]; [done|by destruct Hk|].
      by destruct (add_relative_pose_constraint _ _ _ _ (base v)).
  - pose proof (call_same_xxs op v Hrel) as Hx.
    pose proof (call_switch_same op v Hrel) as (_ & Hl & _).
    unfold after, on_base, same in *. rewrite Hx, Hl. split; [lia|].
    intros _. lia.
Qed.

Lemma call_robust op v : after (on_base (same robust_)) (call op) v.
Proof. destruct op; frame; by unfold same. Qed.

Lemma calls_edges ops v :
  robust_ (base v) = true →
  staged_known (base v) →
  let r := calls ops v in
  robust_ (base r.1) = true
  ∧ (length (xxs_ (base r.1)) + length (switch_ (base v))
     ≤ length (switch_ (base r.1)) + length (xxs_ (base v)))%nat
  ∧ (r.2 = Ok tt →
     length (xxs_ (base r.1))
     = (length (xxs_ (base v)) + relative_calls ops)%nat
     ∧ length (switch_ (base r.1))
       = (length (switch_ (base v)) + relative_calls ops)%nat).
Proof.
  revert v. induction ops as [|op ops IH]; intros v Hr Hk; simpl.
  { split_and!; [done|lia|intros _; unfold relative_calls; simpl; lia]. }
  destruct (call_edges op v Hr Hk) as [Hle Hok].
  pose proof (call_robust op v) as Hr1.
  pose proof (call_staged_known op v) as Hk1.
  unfold after, on_base, same, keeps in *. simpl in *.
  unfold calls. simpl. run. fold (calls ops).
  destruct (call op v) as [v1 [[]|e]]; simpl in *.
  - destruct (IH v1) as (Hr2 & Hle2 & Hok2); [congruence|by apply Hk1|].
    split_and!; [done|lia|]. intros Hret.
    destruct (Hok eq_refl) as [E1 E2], (Hok2 Hret) as [E3 E4].
    rewrite E3, E4, E1, E2. unfold relative_calls. simpl.
    destruct (is_relative op); simpl; lia.
  - split_and!; [congruence|done|intros [=]].
Qed.

(** ** Odometry from any first pose *)

Lemma add_incremental_eq delta noise s pn :
  0 ≤ idx_ s →
  switch_keys_bounded s →
  xs_ s !! (idx_ s + 1) = None →
  xs_ s !! idx_ s = Some pn →
  initial_ s !! symbol "x" (idx_ s + 1) = None →
  add_incremental_pose_constraint delta noise s
  = (set_idx (λ i, i + 1)
       (set_xxs (λ l, l ++ [(idx_ s, idx_ s + 1)])
          (set_xs <[idx_ s + 1 := oplus pn delta]>
             (set_initial
                <[symbol "x" (idx_ s + 1) := VPose3 (oplus pn delta)]>
                (constrained (idx_ s) (idx_ s + 1) delta noise s)))),
     Ok tt).
Proof.
  intros Hi Hs Hnext Hcur Hfree.
  unfold add_incremental_pose_constraint, is_initialized, latest. run.
  destruct (Z.leb_spec 0 (idx_ s)) as [_|]; [simpl|lia].
  rewrite add_relative_eq by done. simpl.
  by rewrite Hnext, Hcur, Hfree.
Qed.

Lemma add_incremental_staged_known delta noise s :
  after (keeps staged_known) (add_incremental_pose_constraint delta noise) s.
Proof. keeps_frame; staged_solve. Qed.

Lemma add_incremental_run i len s delta noise :
  run_from i len s →
  ∃ s' pn, add_incremental_pose_constraint delta noise s = (s', Ok tt)
        ∧ run_from i (S len) s'
        ∧ xs_ s !! (i + Z.of_nat len) = Some pn
        ∧ xs_ s' = <[i + Z.of_nat len + 1 := oplus pn delta]> (xs_ s).
Proof.
  intros [Hidx Hi Hxs Hcount Hedges Hconf Hk].
  assert (Hnext : xs_ s !! (idx_ s + 1) = None).
  { apply eq_None_not_Some. rewrite Hxs. lia. }
  assert (Hcur : is_Some (xs_ s !! idx_ s)) by (apply Hxs; lia).
  destruct Hcur as [pn Hpn].
  assert (Hfree : initial_ s !! symbol "x" (idx_ s + 1) = None).
  { apply eq_None_not_Some. intros Hc. apply Hk in Hc.
    rewrite Hnext in Hc. by destruct Hc. }
  pose proof (add_incremental_staged_known delta noise s) as Hk'.
  unfold after, keeps in Hk'.
  assert (Heq := add_incremental_eq delta noise s pn).
  rewrite Heq in Hk' |- * by first [lia|by destruct Hk|done].
  eexists. exists pn. split; [reflexivity|].
  rewrite <- Hidx. split; [|split; [done|]].
  - split; [..|by apply Hk'];
      unfold poses_count, robot_edges, robot_edges_confident, constrained
        in *;
      destruct (robust_ s) eqn:Hr; simpl; rewrite ?Hr; simpl.
    all: try lia.
    all: try (intros k; rewrite lookup_insert_is_Some, Hxs; lia).
    all: try (rewrite map_size_insert_None by done; lia).
    all: try (rewrite Hedges, Hidx; unfold consecutive;
              by rewrite seqZ_S, fmap_app).
    + rewrite Hconf. by rewrite <- repeat_cons.
    + by rewrite length_app, Hedges; unfold consecutive;
        rewrite length_fmap, length_seqZ, Nat2Z.id, Nat.add_1_r.
  - unfold constrained. by destruct (robust_ s).
Qed.

Lemma odometry_run deltas i len s pn :
  run_from i len s →
  xs_ s !! (i + Z.of_nat len) = Some pn →
  ∃ s', odometry deltas s = (s', Ok tt)
        ∧ run_from i (len + length deltas) s'
        ∧ (∀ k, k ≤ i + Z.of_nat len → xs_ s' !! k = xs_ s !! k)
        ∧ (∀ j, (j ≤ length deltas)%nat →
             xs_ s' !! (i + Z.of_nat (len + j))
             = Some (foldl oplus pn (take j deltas.*1))).
Proof.
  revert len s pn.
  induction deltas as [|[delta noise] deltas IH]; intros len s pn Hc Hpn.
  - exists s. split; [done|]. rewrite Nat.add_0_r. split; [done|].
    split; [done|]. intros j Hj. simpl in Hj. replace j with 0%nat by lia.
    by rewrite Nat.add_0_r.
  - destruct (add_incremental_run i len s delta noise Hc)
      as (s1 & pn' & E1 & Hc1 & Hpn' & Hxs1).
    assert (pn' = pn) as -> by congruence.
    assert (Hnext : xs_ s1 !! (i + Z.of_nat (S len)) = Some (oplus pn delta)).
    { rewrite Hxs1. replace (i + Z.of_nat (S len))
        with (i + Z.of_nat len + 1) by lia. apply lookup_insert_eq. }
    destruct (IH _ _ _ Hc1 Hnext) as (s2 & E2 & Hc2 & Hold & Hnew).
    assert (Holder : ∀ k, k ≤ i + Z.of_nat len → xs_ s2 !! k = xs_ s !! k).
    { intros k Hk. rewrite Hold by lia. rewrite Hxs1.
      apply lookup_insert_ne. lia. }
    exists s2. split; [|split; [|split]].
    + unfold odometry in *. simpl. run. by rewrite E1.
    + simpl length. by replace (len + S (length deltas))%nat
        with (S len + length deltas)%nat by lia.
    + done.
    + intros [|j] Hj; simpl in *.
      * rewrite Nat.add_0_r, Holder by lia. done.
      * replace (len + S j)%nat with (S len + j)%nat by lia.
        apply Hnew. lia.
Qed.

Lemma initialize_run on pn mn rb p i noise :
  0 ≤ i →
  ∃ s, initialize p i noise (BaseSLAM_init on pn mn rb) = (s, Ok tt)
       ∧ run_from i 0 s ∧ xs_ s !! i = Some p.
Proof.
  intros Hi. rewrite initialize_fresh by done.
  eexists. split; [reflexivity|]. split; [split|]; simpl.
  - lia.
  - done.
  - intros k. rewrite lookup_insert_is_Some, lookup_empty.
    split; [intros [<-|[_ [? [=]]]]; lia|intros ?; left; lia].
  - unfold poses_count. simpl. by rewrite map_size_insert_None.
  - done.
  - done.
  - pose proof (staged_known_init on pn mn rb) as H0.
    assert (Hk : after (keeps staged_known) (initialize p i noise)
                   (BaseSLAM_init on pn mn rb))
      by (keeps_frame; staged_solve).
    unfold after, keeps in Hk. rewrite initialize_fresh in Hk by done.
    by apply Hk.
  - apply lookup_insert_eq.
Qed.

(** X22: on a new engine, [initialize] at any index [i >= 0] followed by
    one [add_incremental_pose_constraint] per increment returns; the poses
    are those of [i .. i + n], pose [i + j] being the first pose composed
    with the first [j] increments, [poses_count] is [n + 1], the latest
    index is [i + n], [robot_edges] is the list of the [n] edges
    [(i + j, i + j + 1)] in order, and every edge confidence is 1. *)
Theorem odometry_edges on pn mn rb p i noise deltas :
  0 ≤ i →
  let n := length deltas in
  ∃ s0 s,
    initialize p i noise (BaseSLAM_init on pn mn rb) = (s0, Ok tt)
    ∧ odometry deltas s0 = (s, Ok tt)
    ∧ latest s = i + Z.of_nat n
    ∧ (∀ k, is_Some (xs_ s !! k) ↔ i ≤ k ≤ i + Z.of_nat n)
    ∧ (∀ j, (j ≤ n)%nat →
         xs_ s !! (i + Z.of_nat j)
         = Some (foldl oplus p (take j deltas.*1)))
    ∧ poses_count s = S n
    ∧ robot_edges s = consecutive i n
    ∧ robot_edges_confident s = repeat 1%Q n.
Proof.
  intros Hi n.
  destruct (initialize_run on pn mn rb p i noise Hi) as (s0 & E0 & Hc0 & Hp).
  destruct (odometry_run deltas i 0 s0 p Hc0) as (s & E & Hc & _ & Hposes).
  { by rewrite Z.add_0_r. }
  exists s0, s. destruct Hc as [Hidx _ Hxs Hcount Hedges Hconf _].
  simpl in *. by split_and!.
Qed.

(** X23: on an engine as constructed, after any sequence of calls there are
    at least as many edge confidences as edges in [xxs_]; when every call
    has returned, the two lists have one element per call that went
    through [add_relative_pose_constraint]. *)
Theorem robot_edges_count on pn mn rb v0 ops :
  base v0 = BaseSLAM_init on pn mn rb →
  let r := calls ops v0 in
  (length (robot_edges (base r.1))
   ≤ length (robot_edges_confident (base r.1)))%nat
  ∧ (r.2 = Ok tt →
     length (robot_edges (base r.1)) = relative_calls ops
     ∧ length (robot_edges_confident (base r.1)) = relative_calls ops).
Proof.
  intros Hnew r. subst r.
  destruct (calls_edges ops v0) as (Hr & Hle & Hok).
  { by rewrite Hnew. }
  { rewrite Hnew. apply staged_known_init. }
  unfold robot_edges, robot_edges_confident. rewrite Hr.
  rewrite Hnew in Hle, Hok. simpl in *. split; [lia|].
  intros Hret. destruct (Hok Hret) as [-> ->]. done.
Qed.

End Properties.

(** * The statements on the one-dimensional world *)

#[local] Existing Instances line_geometry line_cfg line_solver
  line_triangulation.

Example line_engine_init :
  VisualSLAM_init line_calib 2 [1%Q] [1%Q] [1%Q; 1%Q; 1%Q] 4 [2%Q; 2%Q]
  = Ok line_engine.
Proof. reflexivity. Qed.

Lemma switch_count_witness :
  length (switch_ (base (calls line_relative line_engine).1)) = 2%nat.
Proof.
  destruct (switch_count [1%Q] [1%Q] [1%Q] true line_engine line_relative
              (calls line_relative line_engine).1) as (_ & Hlen & _).
  - reflexivity.
  - apply returns. vm_compute. reflexivity.
  - exact Hlen.
Defined.

(** The run of the first four calls returns, and these are the entries. *)
Example line_pending_entries :
  (calls line_ops line_engine).2 = Ok tt
  ∧ lid_factors_ line_pending !! 7 = Some line_entry7
  ∧ lid_factors_ line_pending !! 8 = Some line_entry8
  ∧ lid_factors_ line_pending !! 9 = Some line_entry9
  ∧ xs_ (base line_pending) !! 1 = Some 1.
Proof. split_and!; vm_compute; reflexivity. Qed.

Example line_settled_result :
  (smart_update line_pending).2 = Ok ([9], [(0, 0, 1)%Q])
  ∧ lid_factors_ line_settled !! 7 = Some line_entry7
  ∧ lid_factors_ line_settled !! 8 = None
  ∧ lid_factors_ line_settled !! 9 = None
  ∧ ls_ (base line_settled) !! 9 = Some (LPoint (0, 0, 1)%Q).
Proof. split_and!; vm_compute; reflexivity. Qed.

Lemma skipped_below_min_landmark_obs_witness :
  lid_factors_ (smart_update line_pending).1 !! 7 = Some line_entry7.
Proof.
  destruct (skipped_below_min_landmark_obs line_pending 7 line_entry7)
    as (Hkept & _).
  - vm_compute. reflexivity.
  - right. vm_compute. reflexivity.
  - exact Hkept.
Defined.

Lemma rejected_entry_deleted_witness :
  smart_update_body (calculateEstimate (slam_ (base line_pending)))
    8 ([], []) line_pending
  = (set_lid_factors (delete 8) line_pending, Ok ([], [])).
Proof.
  destruct (rejected_entry_deleted line_pending 8 line_entry8)
    as (Hround & _).
  - vm_compute. reflexivity.
  - split; [reflexivity|]. vm_compute. discriminate.
  - right; right; left. vm_compute. reflexivity.
  - exact (Hround ([], [])).
Defined.

(** C5 as stated fails: the landmark 8 is rejected by the first settle
    pass for its reprojection error (11 against the threshold 4) and its
    entry deleted; seen twice more it gets a new entry, and the second
    settle pass promotes it. *)
Lemma rejected_then_promoted :
  lid_factors_ line_pending !! 8 = Some line_entry8
  ∧ smart_error (factor line_entry8)
      (calculateEstimate (slam_ (base line_pending))) == 11
  ∧ (smart_update line_pending).2 = Ok ([9], [(0, 0, 1)%Q])
  ∧ lid_factors_ line_settled !! 8 = None
  ∧ ls_ (base line_settled) !! 8 = None
  ∧ (calls line_again line_settled).2 = Ok tt
  ∧ lid_factors_ line_resighted !! 8
    = Some {| in_graph := false; count := 2;
              factor := [((3, 0)%Q, symbol "x" 1);
                         ((4, 0)%Q, symbol "x" 2)] |}
  ∧ (smart_update line_resighted).2 = Ok ([8], [(3, 0, 1)%Q])
  ∧ ls_ (base (smart_update line_resighted).1) !! 8
    = Some (LPoint (3, 0, 1)%Q).
Proof. split_and!; vm_compute; reflexivity. Qed.

Lemma promotion_commits_witness :
  9 ∈ [9]
  ∧ ls_ (base line_settled) !! 9 = Some (LPoint (0, 0, 1)%Q)
  ∧ initial_ (base line_settled) !! symbol "l" 9
    = Some (VPoint3 (0, 0, 1)%Q)
  ∧ lid_factors_ line_settled !! 9 = None.
Proof.
  destruct (promotion_commits line_pending 9 line_entry9)
    as (_ & Hpass & _).
  - vm_compute. reflexivity.
  - split; [reflexivity|]. vm_compute. discriminate.
  - split_and!; [reflexivity|reflexivity|vm_compute; reflexivity|].
    vm_compute. discriminate.
  - vm_compute. reflexivity.
  - vm_compute. reflexivity.
  - unfold line_settled.
    destruct (Hpass (smart_update line_pending).1 [9] [(0, 0, 1)%Q])
      as (Hin & Hls & Hinit & _ & Hgone).
    + apply (returns smart_update line_pending). vm_compute. reflexivity.
    + split_and!; assumption.
Defined.

Lemma line_pending_uncommitted : pending_uncommitted line_pending.
Proof.
  apply calls_pending; [reflexivity|].
  intros lid. unfold line_engine. simpl. rewrite lookup_empty.
  by intros [? [=]].
Qed.

Lemma line_pending_staged : staged_known (base line_pending).
Proof. apply calls_staged_known, staged_known_init. Qed.

(** The run [line_ops] followed by a sighting of the landmark 9 through
    [add_point_landmarks]: the entry of 9 is still pending, the landmark 9
    is committed, and the settle pass raises AssertionError. *)
Lemma pending_entry_committed_witness :
  (add_point_landmarks 1 [9] [(1, 0)]%Q [(0, 0, 1)]%Q None line_pending).2
  = Ok tt
  ∧ lid_factors_ line_mixed !! 9 = Some line_entry9
  ∧ ls_ (base line_mixed) !! 9 = Some (LPoint (1, 0, 1)%Q)
  ∧ smart_update_body (calculateEstimate (slam_ (base line_mixed))) 9
      ([], []) line_mixed
    = (line_mixed, Raise AssertionError)
  ∧ (smart_update line_mixed).2 = Raise AssertionError.
Proof.
  destruct (pending_entry_committed (geometry := line_geometry)
              1 1 [9] [(1, 0)]%Q [(0, 0, 1)]%Q None line_pending 9
              line_entry9)
    as (v' & Hrun & Hr & _ & _ & Hpass).
  - exact line_pending_uncommitted.
  - exact (staged_l _ line_pending_staged).
  - vm_compute. reflexivity.
  - reflexivity.
  - reflexivity.
  - constructor.
  - vm_compute. reflexivity.
  - assert (Hv : v' = line_mixed)
      by (unfold line_mixed; by rewrite Hrun).
    rewrite Hv in Hr, Hpass. destruct Hpass as [Hbody _].
    + split; [reflexivity|]. vm_compute. discriminate.
    + split_and!; [reflexivity|reflexivity|vm_compute; reflexivity|].
      vm_compute. discriminate.
    + split_and!.
      * by rewrite Hrun.
      * exact Hr.
      * vm_compute. reflexivity.
      * apply Hbody.
      * vm_compute. reflexivity.
Defined.

Lemma promoted_sighting_dropped_witness :
  add_point_landmarks_smart 1 [9] [(2, 0)%Q] line_settled
  = (line_settled, Ok tt).
Proof.
  apply (promoted_sighting_dropped line_settled 1 [9] [(2, 0)%Q]).
  - reflexivity.
  - intros lid ->%list_elem_of_singleton. vm_compute. eauto.
Defined.

Lemma initialize_unguarded_witness :
  ∃ s', initialize 7 0 None line_updated = (s', Ok tt)
        ∧ xs_ s' = <[0 := 7]> (xs_ line_updated)
        ∧ latest s' = 0.
Proof.
  destruct (initialize_unguarded (geometry := line_geometry) 7 0 None
              line_updated)
    as (s' & Hret & _ & _ & Hxs & Hlatest).
  - vm_compute. reflexivity.
  - exists s'. by split_and!.
Defined.

(** C9 as stated fails: on the engine that was initialized at pose 0 and
    updated, a second [initialize] returns and replaces pose 0. *)
Lemma initialize_twice_returns :
  is_initialized line_updated = true
  ∧ xs_ line_updated !! 0 = Some 0
  ∧ (initialize 7 0 None line_updated).2 = Ok tt
  ∧ xs_ (initialize 7 0 None line_updated).1 !! 0 = Some 7
  ∧ latest (initialize 7 0 None line_updated).1 = 0.
Proof. split_and!; vm_compute; reflexivity. Qed.

Lemma smart_update_returns_empty_witness :
  (smart_update line_hopeless).2 = Ok ([], []).
Proof.
  apply (smart_update_returns_empty line_hopeless).
  apply (map_Forall_to_list
           (λ _ r, ¬ (examined line_hopeless r
                      ∧ passes_checks line_hopeless
                          (calculateEstimate (slam_ (base line_hopeless))) r))).
  replace (map_to_list (lid_factors_ line_hopeless))
    with [(7, line_entry7); (8, line_entry8)]
    by (vm_compute; reflexivity).
  repeat constructor.
  - intros [[_ Hcount] _]. vm_compute in Hcount. by apply Hcount.
  - intros [_ (_ & _ & _ & Herr)]. vm_compute in Herr. by apply Herr.
Defined.

Lemma pose_chain_witness :
  ∃ s0 s,
    initialize 0 0 None (BaseSLAM_init [1%Q] [1%Q] [1%Q] true) = (s0, Ok tt)
    ∧ odometry [(1, None); (1, None); (1, None)] s0 = (s, Ok tt)
    ∧ latest s = 3
    ∧ xs_ s !! 3 = Some 3.
Proof.
  destruct (pose_chain (geometry := line_geometry) [1%Q] [1%Q] [1%Q] true
              [(1, None); (1, None); (1, None)]) as (Hchain & _).
  destruct (Hchain 0 None) as (s0 & s & H0 & Hrun & Hlatest & _ & Hposes).
  exists s0, s. split_and!; [done..|]. by apply (Hposes 3%nat).
Defined.

(** * Further statements on the one-dimensional world *)

#[local] Existing Instances line_marginals line_dogleg.

Lemma line_relative_staged :
  staged_known (base (calls line_relative line_engine).1).
Proof. apply calls_staged_known, staged_known_init. Qed.

Lemma line_posed_staged : staged_known (base line_posed).
Proof. apply calls_staged_known, staged_known_init. Qed.

Lemma staged_values_known_witness :
  (∀ k, is_Some (initial_ (base line_pending) !! symbol "x" k) →
        is_Some (xs_ (base line_pending) !! k))
  ∧ (∀ k, is_Some (initial_ (base line_pending) !! symbol "l" k) →
          is_Some (ls_ (base line_pending) !! k))
  ∧ (∀ k, is_Some (initial_ (base line_pending) !! symbol "s" k) →
          0 ≤ k < Z.of_nat (length (switch_ (base line_pending)))).
Proof.
  apply (staged_values_known [1%Q] [1%Q] [1%Q] true line_engine line_ops).
  reflexivity.
Defined.

Lemma add_relative_returns_iff_witness :
  let s := base (calls line_relative line_engine).1 in
  let r := (add_relative_pose_constraint 5 6 1 None s).2 in
  (r = Ok tt ↔ is_Some (xs_ s !! 6) ∨ is_Some (xs_ s !! 5))
  ∧ (r = Ok tt ∨ r = Raise KeyError).
Proof.
  exact (add_relative_returns_iff (geometry := line_geometry) 5 6 1 None _
           line_relative_staged).
Defined.

Lemma add_relative_unknown_poses_witness :
  let s := base (calls line_relative line_engine).1 in
  let s' := (add_relative_pose_constraint 5 6 1 None s).1 in
  (add_relative_pose_constraint 5 6 1 None s).2 = Raise KeyError
  ∧ xs_ s' = xs_ s
  ∧ xxs_ s' = xxs_ s.
Proof.
  destruct (add_relative_unknown_poses (geometry := line_geometry)
              5 6 1 None (base (calls line_relative line_engine).1))
    as (H1 & H2 & H3 & _).
  - apply line_relative_staged.
  - vm_compute. reflexivity.
  - vm_compute. reflexivity.
  - by split_and!.
Defined.

Lemma loop_closure_keeps_poses_witness :
  let s := base (calls line_relative line_engine).1 in
  let s' := (add_relative_pose_constraint 7 0 1 None s).1 in
  (add_relative_pose_constraint 7 0 1 None s).2 = Ok tt
  ∧ xs_ s' = xs_ s
  ∧ xxs_ s' = xxs_ s ++ [(7, 0)].
Proof.
  destruct (loop_closure_keeps_poses (geometry := line_geometry)
              7 0 1 None (base (calls line_relative line_engine).1))
    as (H1 & H2 & _ & _ & H3).
  - apply line_relative_staged.
  - vm_compute. eauto.
  - by split_and!.
Defined.

Lemma robot_edges_count_witness :
  length (robot_edges (base (calls line_relative line_engine).1)) = 2%nat
  ∧ length (robot_edges_confident (base (calls line_relative line_engine).1))
    = 2%nat.
Proof.
  destruct (robot_edges_count [1%Q] [1%Q] [1%Q] true line_engine
              line_relative) as (_ & Hok).
  - reflexivity.
  - apply Hok. vm_compute. reflexivity.
Defined.

Lemma odometry_edges_witness :
  ∃ s0 s,
    initialize 0 3 None (BaseSLAM_init [1%Q] [1%Q] [1%Q] true) = (s0, Ok tt)
    ∧ odometry [(1, None); (1, None)] s0 = (s, Ok tt)
    ∧ latest s = 5
    ∧ poses_count s = 3%nat
    ∧ robot_edges s = [(3, 4); (4, 5)]
    ∧ robot_edges_confident s = [1%Q; 1%Q].
Proof.
  destruct (odometry_edges (geometry := line_geometry) [1%Q] [1%Q] [1%Q]
              true 0 3 None [(1, None); (1, None)])
    as (s0 & s & H0 & Hrun & Hlatest & _ & _ & Hcount & Hedges & Hconf).
  - lia.
  - exists s0, s. by split_and!.
Defined.

Lemma add_pose_landmarks_returns_witness :
  ∃ s',
    add_pose_landmarks 0 [4; 4; 5] [2; 3; 5] None (base line_posed)
    = (s', Ok tt)
    ∧ landmark_edges s'
      = landmark_edges (base line_posed) ++ [(0, 4); (0, 4); (0, 5)]
    ∧ ls_ s' !! 4 = Some (LPose 2)
    ∧ ls_ s' !! 5 = Some (LPose 5).
Proof.
  destruct (add_pose_landmarks_returns (geometry := line_geometry)
              0 0 [4; 4; 5] [2; 3; 5] None (base line_posed))
    as (s' & Hrun & _ & Hedges & _ & Hls & _).
  - vm_compute. reflexivity.
  - apply line_posed_staged.
  - reflexivity.
  - exists s'. split_and!; [done|done| |].
    + rewrite Hls. vm_compute. reflexivity.
    + rewrite Hls. vm_compute. reflexivity.
Defined.

Lemma add_point_landmarks_returns_witness :
  ∃ v',
    add_point_landmarks 0 [4; 4; 5] [(1, 0); (2, 0); (3, 0)]%Q
      [(1, 1, 1); (2, 2, 2); (3, 3, 3)]%Q None line_posed
    = (v', Ok tt)
    ∧ landmark_edges (base v') = landmark_edges (base line_posed)
    ∧ ls_ (base v') !! 4 = Some (LPoint (1, 1, 1)%Q)
    ∧ lid_count_ v' !! 4 = Some 2.
Proof.
  destruct (add_point_landmarks_returns (geometry := line_geometry)
              0 0 [4; 4; 5] [(1, 0); (2, 0); (3, 0)]%Q
              [(1, 1, 1); (2, 2, 2); (3, 3, 3)]%Q None line_posed)
    as (v' & Hrun & _ & Hedges & _ & Hls & _ & Hcount & _).
  - vm_compute. reflexivity.
  - apply line_posed_staged.
  - reflexivity.
  - reflexivity.
  - exists v'. split_and!; [done|done| |].
    + rewrite Hls. vm_compute. reflexivity.
    + rewrite Hcount. vm_compute. reflexivity.
Defined.

Lemma lid_count_counts_witness :
  lid_count_ (calls line_counted line_engine).1 !! 4 = Some 2
  ∧ lid_count_ (calls line_counted line_engine).1 !! 5 = Some 1
  ∧ lid_count_ (calls line_counted line_engine).1 !! 6 = None.
Proof.
  assert (Hrun : calls line_counted line_engine
                 = ((calls line_counted line_engine).1, Ok tt)).
  { apply returns. vm_compute. reflexivity. }
  split_and!.
  - rewrite (proj1 (lid_count_counts line_counted line_engine _ 4
                      eq_refl Hrun)).
    reflexivity.
  - rewrite (proj1 (lid_count_counts line_counted line_engine _ 5
                      eq_refl Hrun)).
    reflexivity.
  - rewrite (proj1 (lid_count_counts line_counted line_engine _ 6
                      eq_refl Hrun)).
    reflexivity.
Defined.

Lemma settle_pass_graph_witness :
  graph_ (base line_settled)
  = graph_ (base line_pending) ++ promoted_factors line_pending [9]
    ++ settle_priors line_pending [9]
  ∧ [(0, 0, 1)%Q] = promoted_points line_pending [9].
Proof.
  destruct (settle_pass_graph line_pending line_settled [9] [(0, 0, 1)%Q])
    as (Hg & Hp & _).
  - unfold line_settled. apply (returns smart_update line_pending).
    vm_compute. reflexivity.
  - by split.
Defined.

Lemma entries_count_measurements_witness :
  in_graph line_entry8 = false
  ∧ count line_entry8 = Z.of_nat (length (factor line_entry8))
  ∧ 1 ≤ count line_entry8.
Proof.
  destruct (entries_count_measurements line_engine line_ops 8 line_entry8)
    as (H1 & H2 & H3 & _).
  - reflexivity.
  - vm_compute. reflexivity.
  - by split_and!.
Defined.

Lemma update_hands_over_once_witness :
  batch_init_ (VisualSLAM_update line_started).1 = true
  ∧ graph_ (base (VisualSLAM_update line_started).1) = []
  ∧ initial_ (base (VisualSLAM_update line_started).1) = ∅.
Proof.
  destruct (update_hands_over_once line_started
              (VisualSLAM_update line_started).1)
    as (H1 & H2 & H3 & _).
  - apply (returns VisualSLAM_update line_started). vm_compute. reflexivity.
  - by split_and!.
Defined.

Lemma update_override_agrees_witness :
  VisualSLAM_update line_posed = lift BaseSLAM_update line_posed.
Proof.
  apply (update_override_agrees line_posed). vm_compute. reflexivity.
Defined.

Lemma initialize_twice_raises_witness :
  ∃ s1 s2,
    initialize 0 0 None (BaseSLAM_init [1%Q] [1%Q] [1%Q] true) = (s1, Ok tt)
    ∧ initialize 7 0 None s1 = (s2, Raise ValuesKeyAlreadyExists)
    ∧ xs_ s2 !! 0 = Some 0
    ∧ latest s2 = 0.
Proof.
  destruct (initialize_twice_raises (geometry := line_geometry) 0 7 0 None
              None (BaseSLAM_init [1%Q] [1%Q] [1%Q] true))
    as (s1 & s2 & H1 & H2 & H3 & _ & H4 & _).
  - reflexivity.
  - exists s1, s2. by split_and!.
Defined.

Lemma update_estimates_refreshes_witness :
  xs_ (_update_estimates (base line_posed)).1 !! 0 = Some 0
  ∧ length (switch_ (_update_estimates (base line_posed)).1)
    = length (switch_ (base line_posed)).
Proof.
  destruct (update_estimates_refreshes (geometry := line_geometry)
              (base line_posed) {[symbol "x" 0 := @VPose3 line_geometry 0]}
              (_update_estimates (base line_posed)).1)
    as (Hxs & _ & Hlen & _).
  - vm_compute. reflexivity.
  - apply (returns _update_estimates (base line_posed)).
    vm_compute. reflexivity.
  - split; [|done]. rewrite Hxs. vm_compute. reflexivity.
Defined.

Lemma batch_solve_then_estimates_witness :
  ∃ s',
    (_batch_solve;; _update_estimates) (base line_started) = (s', Ok tt)
    ∧ graph_ s' = graph_ (base line_started)
    ∧ initial_ s' = initial_ (base line_started)
    ∧ slam_ s' = slam_ (base line_started).
Proof.
  destruct (batch_solve_then_estimates (geometry := line_geometry)
              (base line_started) (initial_ (base line_started)))
    as (s' & Hrun & _ & _ & Hg & Hi & Hslam).
  - reflexivity.
  - apply map_Forall_to_list.
    replace (map_to_list (initial_ (base line_started)))
      with [(symbol "x" 0, @VPose3 line_geometry 0)]
      by (vm_compute; reflexivity).
    constructor; [right; reflexivity|constructor].
  - exists s'. by split_and!.
Defined.

Lemma two_view_BA_few_points_witness :
  (two_view_BA line_calib (take 4 line_pixels) (take 4 line_pixels)
     (take 4 line_points) 1 true BA_new).2
  = Raise IndexError.
Proof.
  apply (two_view_BA_few_points (geometry := line_geometry) line_calib
           (take 4 line_pixels) (take 4 line_pixels) (take 4 line_points)
           1 true (take 3 line_pixels) (take 3 line_pixels)
           (take 3 line_points)).
  - reflexivity.
  - reflexivity.
  - reflexivity.
  - simpl. lia.
Defined.

Lemma two_view_BA_problem_witness :
  let r := two_view_BA line_calib line_pixels line_pixels line_points 1 true
             BA_new in
  r.2 = Ok tt
  ∧ initialEstimate r.1 !! symbol "x" 1 = Some (VPose3 1)
  ∧ initialEstimate r.1 !! symbol "l" 3 = Some (VPoint3 (4, 0, 1)%Q)
  ∧ length (graph r.1) = 20%nat.
Proof.
  destruct (two_view_BA_problem (geometry := line_geometry) line_calib
              line_pixels line_pixels line_points 1 true line_pixels_front
              line_pixels_front line_points_front)
    as (Hg & _ & _ & _ & Hx1 & Hl & Hres).
  - reflexivity.
  - reflexivity.
  - reflexivity.
  - simpl. lia.
  - split_and!.
    + rewrite Hres. reflexivity.
    + exact Hx1.
    + rewrite (Hl 3) by lia. reflexivity.
    + rewrite Hg. reflexivity.
Defined.
